(** * Recursive shadowcasting field of view (package [fov])

    A shallow embedding of [fov/fov.go]: the octant transform
    [distHeightXY], the distance metric [distTo], the recursive scan
    [View.fov], and the public operations [View.Compute] and
    [View.IsVisible], and the earlier engine [MapFOV] that the file also
    holds, followed by the properties established about them.  The scan is
    given on a call stack without a bound and, for its termination, with
    the room on the stack made explicit.

    The program is taken as compiled for amd64.  Go's [int] has 64 bits and
    wraps around; [float64] is IEEE 754 binary64, modelled bit-exactly by
    the Standard Library's executable specification [SpecFloat] at
    precision 53 and [emax] 1024, every operation rounded on its own (to
    nearest, ties to even; no fused multiply-add).  The visible set is keyed
    by the text [fmt.Sprintf("%d,%d", x, y)], as in the source. *)

From Stdlib Require Import ZArith Lia Bool List Ascii String.
From Stdlib Require Import Floats.SpecFloat.
From stdpp Require Import base decidable strings pretty gmap.

Local Open Scope Z_scope.

(** ** Machine integers: Go's [int] on a 64-bit target *)

Module Int.

Definition min_int : Z := - 2 ^ 63.
Definition max_int : Z := 2 ^ 63 - 1.

(** Two's complement wrap-around of a mathematical integer. *)
Definition wrap (z : Z) : Z := (z + 2 ^ 63) mod 2 ^ 64 - 2 ^ 63.

Definition add (a b : Z) : Z := wrap (a + b).
Definition sub (a b : Z) : Z := wrap (a - b).
Definition neg (a : Z) : Z := wrap (- a).

Definition in_range (z : Z) : Prop := min_int <= z <= max_int.

End Int.

(** ** IEEE 754 binary64: Go's [float64] *)

Module F64.

Definition prec : Z := 53.
Definition emax : Z := 1024.

Abbreviation float64 := spec_float.

Definition add : float64 -> float64 -> float64 := SFadd prec emax.
Definition sub : float64 -> float64 -> float64 := SFsub prec emax.
Definition mul : float64 -> float64 -> float64 := SFmul prec emax.
Definition div : float64 -> float64 -> float64 := SFdiv prec emax.
Definition sqrt : float64 -> float64 := SFsqrt prec emax.
Definition leb : float64 -> float64 -> bool := SFleb.
Definition eqb : float64 -> float64 -> bool := SFeqb.

(** The conversion [float64(n)] of an integer: round to nearest, ties to
    even. *)
Definition of_int (n : Z) : float64 := binary_normalize prec emax n 0 false.

(** The literals [0], [1] and [0.5]. *)
Definition zero : float64 := S754_zero false.
Definition one : float64 := of_int 1.
Definition half : float64 := binary_normalize prec emax 1 (-1) false.

(** [math.Floor]: the greatest integral value not above [x]; zeros,
    infinities and NaN are returned as they are. *)
Definition floor (x : float64) : float64 :=
  match x with
  | S754_finite s m e =>
      if 0 <=? e then x
      else binary_normalize prec emax
             (Z.shiftr (cond_Zopp s (Zpos m)) (- e)) 0 s
  | _ => x
  end.

(** The conversion [int(x)]: the fraction is discarded (truncation toward
    zero).  A value that does not fit, an infinity or a NaN gives the
    "integer indefinite" value of the amd64 conversion instruction. *)
Definition to_int (x : float64) : Z :=
  match x with
  | S754_zero _ => 0
  | S754_finite s m e =>
      let mag := if 0 <=? e then Z.shiftl (Zpos m) e
                 else Z.shiftr (Zpos m) (- e) in
      let z := cond_Zopp s mag in
      if (Int.min_int <=? z) && (z <=? Int.max_int) then z else Int.min_int
  | _ => Int.min_int
  end.

(** [math.Pow(x, 2)]: the library squares the significand of [x] once and
    rescales by a power of two, which is the correctly rounded product
    [x * x] for every [x] that is the conversion of an [int]. *)
Definition pow2 (x : float64) : float64 := mul x x.

End F64.

Import F64.

(** ** The grid capability *)

(** [GridMap] is the interface the engine consults.  [Index] is part of the
    interface but is never called by the engine. *)
Record GridMap := {
  Index : Z -> Z -> Z * Z;
  InBounds : Z -> Z -> bool;
  IsOpaque : Z -> Z -> bool
}.

(** ** The octant transform and the distance metric *)

Definition distHeightXY (px py d h oct : Z) : Z * Z :=
  let d := if Z.land oct 1 >? 0 then Int.neg d else d in
  let h := if Z.land oct 2 >? 0 then Int.neg h else h in
  if Z.land oct 4 >? 0 then (Int.add px h, Int.add py d)
  else (Int.add px d, Int.add py h).

Definition distTo (x1 y1 x2 y2 : Z) : Z :=
  let vx := pow2 (of_int (Int.sub x1 x2)) in
  let vy := pow2 (of_int (Int.sub y1 y2)) in
  to_int (F64.sqrt (F64.add vx vy)).

(** ** The visible set *)

(** [gridSet] is [map[string]struct{}]: a set of keys. *)
Abbreviation gridSet := (gset string).

(** The key [fmt.Sprintf("%d,%d", x, y)]. *)
Definition key (x y : Z) : string := pretty x +:+ "," +:+ pretty y.

Record View := { Visible : gridSet }.

(** [New] returns a view whose map is nil; reading a nil map finds no key.
    Writing to a nil map panics: the engine writes after [Compute] has made
    the map, and nowhere else. *)
Definition New : View := {| Visible := ∅ |}.

Definition IsVisible (v : View) (x y : Z) : bool :=
  bool_decide (key x y ∈ Visible v).

(** ** Execution state

    The engine runs against a [View] that it mutates and a grid that it
    queries.  The queries are recorded, most recent first, so that
    properties of the calls made on the grid can be stated. *)

Inductive query :=
  | QInBounds (x y : Z)
  | QIsOpaque (x y : Z).

Record machine := { view : View; queries : list query }.

(** A computation either finishes with a value or is cut off, because the
    step budget is exhausted or, where the stack is modelled, because the
    stack is; in both cases the state reached is kept. *)
Definition M (A : Type) : Type := machine -> machine * option A.

Definition ret {A} (a : A) : M A := fun s => (s, Some a).

Definition bind {A B} (m : M A) (k : A -> M B) : M B :=
  fun s => match m s with
           | (s', Some a) => k a s'
           | (s', None) => (s', None)
           end.

Definition cut_off {A} : M A := fun s => (s, None).

Notation "x <- m ;; k" := (bind m (fun x => k))
  (at level 100, m at level 99, k at level 200, right associativity).
Notation "m ;; k" := (bind m (fun _ => k))
  (at level 100, k at level 200, right associativity).

(** The three ways the engine changes the state: it replaces the map by a
    fresh one, it adds a key, and (by calling the grid) it extends the record
    of queries. *)
Definition cleared (s : machine) : machine :=
  {| view := {| Visible := ∅ |}; queries := queries s |}.

Definition marked (x y : Z) (s : machine) : machine :=
  {| view := {| Visible := {[ key x y ]} ∪ Visible (view s) |};
     queries := queries s |}.

Definition logged (q : query) (s : machine) : machine :=
  {| view := view s; queries := q :: queries s |}.

(** [v.Visible = make(map[string]struct{})] *)
Definition reset : M unit := fun s => (cleared s, Some tt).

(** [v.Visible[fmt.Sprintf("%d,%d", x, y)] = struct{}{}] *)
Definition mark (x y : Z) : M unit := fun s => (marked x y s, Some tt).

(** [grid.InBounds(x, y)] and [grid.IsOpaque(x, y)] *)
Definition inBounds (grid : GridMap) (x y : Z) : M bool :=
  fun s => (logged (QInBounds x y) s, Some (InBounds grid x y)).

Definition isOpaque (grid : GridMap) (x y : Z) : M bool :=
  fun s => (logged (QIsOpaque x y) s, Some (IsOpaque grid x y)).

(** Go's [a && b]: [b] is evaluated only when [a] is true. *)
Definition andM (a b : M bool) : M bool :=
  x <- a ;; if x then b else ret false.

(** Go's [!a]. *)
Definition notM (a : M bool) : M bool := x <- a ;; ret (negb x).

Definition when (b : bool) (m : M unit) : M unit := if b then m else ret tt.

(** ** The recursive scan *)

Section Scan.

Variable grid : GridMap.
Variables px py : Z.
Variables oct rad : Z.

(** The body of [fov] before its loop, given the loop: the base case, and
    the height band of this distance. *)
Definition fov_with
    (loop : Z -> float64 -> float64 -> float64 -> float64 -> bool -> M unit)
    (dist : Z) (lowSlope highSlope : float64) : M unit :=
  if dist >? rad then ret tt
  else
    let low := floor (F64.add (mul lowSlope (of_int dist)) half) in
    let high := floor (F64.add (mul highSlope (of_int dist)) half) in
    loop dist high highSlope low lowSlope false.

(** The [for height := low; height <= high; height++] loop of [fov],
    entered at [height] with the current [lowSlope] and [inGap].  One unit
    of [fuel] is spent per iteration and per nested call. *)
Fixpoint fov_loop (fuel : nat) (dist : Z) (high highSlope : float64)
    (height lowSlope : float64) (inGap : bool) {struct fuel} : M unit :=
  match fuel with
  | O => cut_off
  | S fuel' =>
      if leb height high then
        let '(mapx, mapy) := distHeightXY px py dist (to_int height) oct in
        near <- andM (inBounds grid mapx mapy)
                     (ret (distTo px py mapx mapy <? rad)) ;;
        when near (mark mapx mapy) ;;
        clear <- andM (inBounds grid mapx mapy)
                      (notM (isOpaque grid mapx mapy)) ;;
        if clear then
          when inGap
            (fov_with (fov_loop fuel') (Int.add dist 1) lowSlope
               (div (F64.sub height half) (of_int dist))) ;;
          fov_loop fuel' dist high highSlope (F64.add height one)
            (div (F64.add height half) (of_int dist)) false
        else
          when (eqb height high)
            (fov_with (fov_loop fuel') (Int.add dist 1) lowSlope highSlope) ;;
          fov_loop fuel' dist high highSlope (F64.add height one)
            lowSlope true
      else ret tt
  end.

Definition fov (fuel : nat) (dist : Z) (lowSlope highSlope : float64)
  : M unit :=
  fov_with (fov_loop fuel) dist lowSlope highSlope.

End Scan.

(** [for i := lo; i <= hi; i++ { body i }] over a literal range. *)
Fixpoint for_range (n : nat) (i : Z) (body : Z -> M unit) : M unit :=
  match n with
  | O => ret tt
  | S n' => body i ;; for_range n' (i + 1) body
  end.

Definition Compute (fuel : nat) (grid : GridMap) (px py r : Z) : M unit :=
  reset ;;
  mark px py ;;
  for_range 8 1 (fun i => fov grid px py i r fuel 1 zero one).

(** Running an operation on a view, with an empty record of queries. *)
Definition run {A} (m : M A) (v : View) : machine * option A :=
  m {| view := v; queries := [] |}.

Definition view_after {A} (m : M A) (v : View) : View := view (fst (run m v)).
Definition finished {A} (m : M A) (v : View) : bool :=
  match snd (run m v) with Some _ => true | None => false end.

(** ** The call stack

    [fov] calls itself: the scan of each distance runs in a frame of its own
    on the call stack, above the frames of the scans that called it.  The
    stack of a Go program is bounded, and a call that does not fit ends the
    program: the call does not return.  Below are the scan and [Compute]
    once more, with [room], the number of calls of [fov] that still fit on
    the stack, made explicit. *)


Section ScanOnStack.

Variable grid : GridMap.
Variables px py : Z.
Variables oct rad : Z.



End ScanOnStack.


(** ** The earlier engine, [MapFOV]

    The file holds an earlier version of the engine.  Its struct has the
    same single field as [View], and its scan is the same but for the key,
    which is [fmt.Sprintf("%d%d", x, y)], without the comma. *)

Module MapFOV.

(** The key [fmt.Sprintf("%d%d", x, y)]. *)
Definition key (x y : Z) : string := pretty x +:+ pretty y.

(** [MapFOV.IsVisible]: [false] when the key is not found, [true]
    otherwise. *)
Definition IsVisible (m : View) (x y : Z) : bool :=
  if negb (bool_decide (key x y ∈ Visible m)) then false else true.

(** [m.Visible[fmt.Sprintf("%d%d", x, y)] = struct{}{}] *)
Definition marked (x y : Z) (s : machine) : machine :=
  {| view := {| Visible := {[ key x y ]} ∪ Visible (view s) |};
     queries := queries s |}.

Definition mark (x y : Z) : M unit := fun s => (marked x y s, Some tt).

Section Scan.

Variable grid : GridMap.
Variables px py : Z.
Variables oct rad : Z.

Fixpoint fov_loop (fuel : nat) (dist : Z) (high highSlope : float64)
    (height lowSlope : float64) (inGap : bool) {struct fuel} : M unit :=
  match fuel with
  | O => cut_off
  | S fuel' =>
      if leb height high then
        let '(mapx, mapy) := distHeightXY px py dist (to_int height) oct in
        near <- andM (inBounds grid mapx mapy)
                     (ret (distTo px py mapx mapy <? rad)) ;;
        when near (mark mapx mapy) ;;
        clear <- andM (inBounds grid mapx mapy)
                      (notM (isOpaque grid mapx mapy)) ;;
        if clear then
          when inGap
            (fov_with rad (fov_loop fuel') (Int.add dist 1) lowSlope
               (div (F64.sub height half) (of_int dist))) ;;
          fov_loop fuel' dist high highSlope (F64.add height one)
            (div (F64.add height half) (of_int dist)) false
        else
          when (eqb height high)
            (fov_with rad (fov_loop fuel') (Int.add dist 1) lowSlope
               highSlope) ;;
          fov_loop fuel' dist high highSlope (F64.add height one)
            lowSlope true
      else ret tt
  end.

Definition fov (fuel : nat) (dist : Z) (lowSlope highSlope : float64)
  : M unit :=
  fov_with rad (fov_loop fuel) dist lowSlope highSlope.

End Scan.

Definition ComputeFOV (fuel : nat) (grid : GridMap) (px py r : Z) : M unit :=
  reset ;;
  mark px py ;;
  for_range 8 1 (fun i => fov grid px py i r fuel 1 zero one).

End MapFOV.

(** ** Scenario grids *)

Definition grid7 (wall : Z -> Z -> bool) : GridMap :=
  {| Index := fun x y => (x, y);
     InBounds := fun x y => (0 <=? x) && (x <=? 6) && (0 <=? y) && (y <=? 6);
     IsOpaque := wall |}.

Definition wall7 : GridMap := grid7 (fun x y => (x =? 4) && (y =? 3)).

Definition all_cells7 : list (Z * Z) :=
  x ← seqZ 0 7; y ← seqZ 0 7; [(x, y)].

Definition visible_cells (v : View) (cells : list (Z * Z)) : list (Z * Z) :=
  filter (fun c => IsVisible v c.1 c.2 = true) cells.

(** An open field without bounds, and a grid that has no cell at all. *)
Definition open_field : GridMap :=
  {| Index := fun x y => (x, y);
     InBounds := fun _ _ => true;
     IsOpaque := fun _ _ => false |}.

Definition no_grid : GridMap :=
  {| Index := fun x y => (x, y);
     InBounds := fun _ _ => false;
     IsOpaque := fun _ _ => false |}.

(** A 7x7 grid whose cells are all walls; and the wall scenario with
    another [Index], and opaque wherever it is out of bounds. *)
Definition walls7 : GridMap := grid7 (fun _ _ => true).

Definition wall7_flat : GridMap :=
  {| Index := fun _ _ => (0, 0);
     InBounds := InBounds wall7;
     IsOpaque := fun x y => IsOpaque wall7 x y || negb (InBounds wall7 x y) |}.

(** ** Specification vocabulary *)

(** [keeps I m Q]: run from a state satisfying [I], the computation [m]
    reaches a state satisfying [I], whether or not it is cut off, and any
    value it returns satisfies [Q]. *)
Definition keeps (I : machine -> Prop) {A} (m : M A) (Q : A -> Prop) : Prop :=
  forall s, I s ->
    I (fst (m s)) /\ forall a, snd (m s) = Some a -> Q a.

(** Every key of the visible set is the observer's, or that of a cell that
    is in bounds and nearer than the radius. *)
Definition marks_sound (grid : GridMap) (px py rad : Z) (s : machine) : Prop :=
  forall k, k ∈ Visible (view s) ->
    k = key px py \/
    exists x y, k = key x y /\ InBounds grid x y = true /\
                distTo px py x y < rad.

(** Every [IsOpaque] query comes right after an [InBounds] query on the same
    cell, and that cell is in bounds.  (The record is most recent first.) *)
Fixpoint guarded (grid : GridMap) (qs : list query) : Prop :=
  match qs with
  | [] => True
  | QInBounds _ _ :: rest => guarded grid rest
  | QIsOpaque x y :: rest =>
      match rest with
      | QInBounds x' y' :: _ =>
          x' = x /\ y' = y /\ InBounds grid x y = true /\ guarded grid rest
      | _ => False
      end
  end.

(** [extends m m']: whenever [m] finishes, [m'] finishes in the same state
    with the same value. *)
Definition extends {A} (m m' : M A) : Prop :=
  forall s s' a, m s = (s', Some a) -> m' s = (s', Some a).

(** A text without a comma. *)
Fixpoint no_comma (s : string) : Prop :=
  match s with
  | EmptyString => True
  | String c s' => c <> ","%char /\ no_comma s'
  end.


Definition finishes {A} (m : M A) : Prop :=
  forall s, exists s' a, m s = (s', Some a).

(** The slopes [fov] hands down from height [k] at distance [d], and the
    height that ends the band of a slope at a distance. *)
Definition slope_hi (k d : Z) : float64 := div (sub (of_int k) half) (of_int d).
Definition slope_lo (k d : Z) : float64 :=
  div (F64.add (of_int k) half) (of_int d).
Definition band (s : float64) (d : Z) : float64 :=
  floor (F64.add (mul s (of_int d)) half).

(** The slopes that can reach a scan when the radius is at most [R]. *)
Definition hi_slope (R : Z) (s : float64) : Prop :=
  s = one \/ exists k d, 1 <= k <= d /\ d <= R /\ s = slope_hi k d.
Definition lo_slope (R : Z) (s : float64) : Prop :=
  s = zero \/ exists k d, 0 <= k <= d /\ 1 <= d <= R /\ s = slope_lo k d.



(** ** Cells around the observer, and relations between runs *)

(** The cells a scan can come to: at most [r] away from the observer on each
    axis, and not the observer's own. *)
Definition around (px py r x y : Z) : Prop :=
  Z.abs (x - px) <= r /\ Z.abs (y - py) <= r /\ (x <> px \/ y <> py).

(** The cell a query is about. *)
Definition query_cell (q : query) : Z * Z :=
  match q with QInBounds x y | QIsOpaque x y => (x, y) end.

(** Every key of the visible set is the observer's, or that of a cell in
    bounds whose Euclidean distance to the observer is below the radius. *)
Definition in_disc (grid : GridMap) (px py r : Z) (s : machine) : Prop :=
  forall k, k ∈ Visible (view s) ->
    k = key px py \/
    exists x y, k = key x y /\ InBounds grid x y = true /\
                (x - px) * (x - px) + (y - py) * (y - py) < r * r.

(** Every key of the visible set is that of a cell at most [j] away from the
    observer on each axis. *)
Definition within (px py j : Z) (s : machine) : Prop :=
  forall k, k ∈ Visible (view s) ->
    exists x y, k = key x y /\ Z.abs (x - px) <= j /\ Z.abs (y - py) <= j.

(** Two grids that give the same answers on the cells around the observer;
    opacity is compared on the cells in bounds only. *)
Definition same_around (g g' : GridMap) (px py r : Z) : Prop :=
  forall x y, around px py r x y ->
    InBounds g x y = InBounds g' x y /\
    (InBounds g x y = true -> IsOpaque g x y = IsOpaque g' x y).

(** Two computations that do the same from every state. *)
Definition same_run {A} (m m' : M A) : Prop := forall s, m s = m' s.

(** [ensures m Q]: every run of [m] that finishes ends in a state satisfying
    [Q]. *)
Definition ensures {A} (m : M A) (Q : machine -> Prop) : Prop :=
  forall s s' a, m s = (s', Some a) -> Q s'.

(** The key [k] is in the visible set. *)
Definition has_key (k : string) (s : machine) : Prop := k ∈ Visible (view s).

(** The visible set holds at least the keys of [V]. *)
Definition holds (V : gridSet) (s : machine) : Prop := V ⊆ Visible (view s).

(** [follows R m m']: when [m'] finishes, from a state whose visible set
    holds that of the state [m] starts from, it ends with a visible set that
    holds the one [m] ends with, and the value of [m], if any, is related by
    [R] to that of [m']. *)
Definition follows {A} (R : A -> A -> Prop) (m m' : M A) : Prop :=
  forall s s' t' a',
    holds (Visible (view s)) s' -> m' s' = (t', Some a') ->
    holds (Visible (view (fst (m s)))) t' /\
    forall a, snd (m s) = Some a -> R a a'.

(** [covers s s']: the two engines have made the same queries, and every
    cell in the visible set of the first is in that of the second. *)
Definition covers (s s' : machine) : Prop :=
  queries s = queries s' /\
  forall x y, key x y ∈ Visible (view s) ->
              MapFOV.key x y ∈ Visible (view s').

(** [mirrors m m']: run from states related by [covers], the two
    computations end alike, in states related by [covers]. *)
Definition mirrors {A} (m m' : M A) : Prop :=
  forall s s', covers s s' ->
    covers (fst (m s)) (fst (m' s')) /\ snd (m s) = snd (m' s').

(** The state right after the map has been made, before any query. *)
Definition blank : machine :=
  {| view := {| Visible := ∅ |}; queries := [] |}.

(** [onto s e]: the state [s] with the keys and the queries of [e] added,
    the queries of [e] being the more recent ones. *)
Definition onto (s e : machine) : machine :=
  {| view := {| Visible := Visible (view e) ∪ Visible (view s) |};
     queries := queries e ++ queries s |}.

(** [framed m]: what [m] adds to the state, and the value it returns, do not
    depend on the state it starts from. *)
Definition framed {A} (m : M A) : Prop :=
  forall s, m s = (onto s (fst (m blank)), snd (m blank)).

(** The record of a run, most recent query first, is made of whole rounds:
    for a cell out of bounds two [InBounds] queries, for a cell in bounds
    two [InBounds] queries and one [IsOpaque] query. *)
Inductive rounds (grid : GridMap) : list query -> Prop :=
  | rounds_nil : rounds grid []
  | rounds_out x y qs :
      InBounds grid x y = false -> rounds grid qs ->
      rounds grid (QInBounds x y :: QInBounds x y :: qs)
  | rounds_in x y qs :
      InBounds grid x y = true -> rounds grid qs ->
      rounds grid (QIsOpaque x y :: QInBounds x y :: QInBounds x y :: qs).

(** ** Vocabulary for [float64] values *)

(** [int_float k x]: [x] is the normal float of the positive integer [k]. *)
Definition int_float (k : Z) (x : float64) : Prop :=
  exists m e, x = S754_finite false m e /\ Zpos (Pos.size m) = 53 /\
              -52 <= e <= 1 /\ Zpos m * 2 ^ (e + 52) = k * 2 ^ 52.

(** The last step of rounding: renormalise and pack. *)
Definition finish (s : bool) (mx e : Z) : float64 :=
  let '(mrs, e') := shr_fexp prec emax mx e loc_Exact in
  match shr_m mrs with
  | Z0 => S754_zero s
  | Zpos m => if e' <=? emax - prec then S754_finite s m e' else S754_infinity s
  | _ => S754_nan
  end.

(** [val x] is the value of a positive finite float, scaled by 2^1074 so
    that it is an integer; [pn lo hi x] says that [x] is a positive normal
    float with its exponent between [lo] and [hi]. *)
Definition val (x : float64) : Z :=
  match x with
  | S754_finite false m e => Zpos m * 2 ^ (e + 1074)
  | _ => 0
  end.

Definition pn (lo hi : Z) (x : float64) : Prop :=
  exists m e, x = S754_finite false m e /\ Zpos (Pos.size m) = 53 /\
              lo <= e <= hi.

(** ** The key of a cell determines the cell *)

Module Key.

Lemma pretty_N_char_no_comma (x : N) : pretty_N_char x <> ","%char.
Proof. unfold pretty_N_char. repeat case_match; discriminate. Qed.

Lemma pretty_N_go_no_comma (x : N) (s : string) :
  no_comma s -> no_comma (pretty_N_go x s).
Proof.
  revert s. induction (N.lt_wf_0 x) as [x _ IH]. intros s Hs.
  destruct (decide (x = 0)%N) as [->|Hx].
  - now rewrite pretty_N_go_0.
  - rewrite pretty_N_go_step by lia.
    apply IH.
    + apply N.div_lt; lia.
    + split; [apply pretty_N_char_no_comma | exact Hs].
Qed.

Lemma pretty_N_no_comma (x : N) : no_comma (pretty x).
Proof.
  unfold pretty, pretty_N. case_decide.
  - simpl. split; [discriminate | exact I].
  - apply pretty_N_go_no_comma. exact I.
Qed.

Lemma pretty_Z_no_comma (z : Z) : no_comma (pretty z).
Proof.
  destruct z as [|p|p]; unfold pretty, pretty_Z.
  - simpl. split; [discriminate | exact I].
  - apply (pretty_N_no_comma (N.pos p)).
  - simpl. split; [discriminate | apply (pretty_N_no_comma (N.pos p))].
Qed.

(** A text is cut at its first comma in one way only. *)
Lemma split_at_comma (a a' b b' : string) :
  no_comma a -> no_comma a' ->
  a +:+ "," +:+ b = a' +:+ "," +:+ b' -> a = a' /\ b = b'.
Proof.
  revert a'. induction a as [|c a IH]; intros [|c' a'] Ha Ha' E;
    simpl in *.
  - now inversion E.
  - inversion E; subst. now destruct Ha' as [[] _].
  - inversion E; subst. now destruct Ha as [[] _].
  - inversion E; subst.
    destruct (IH a') as [-> ->]; [tauto | tauto | assumption | easy].
Qed.

Lemma key_inj (x y x' y' : Z) : key x y = key x' y' -> x = x' /\ y = y'.
Proof.
  unfold key. intros E.
  apply split_at_comma in E as [Ex Ey]; auto using pretty_Z_no_comma.
  split; eapply (inj pretty); eassumption.
Qed.

End Key.

(** ** Proof rules for [keeps] *)

Section Rules.

Variable I : machine -> Prop.

Lemma keeps_ret {A} (a : A) (Q : A -> Prop) : Q a -> keeps I (ret a) Q.
Proof. intros HQ s Hs. split; [exact Hs|]. simpl. now intros ? [= <-]. Qed.

Lemma keeps_cut_off {A} (Q : A -> Prop) : keeps I (@cut_off A) Q.
Proof. intros s Hs. split; [exact Hs|]. simpl. discriminate. Qed.

Lemma keeps_bind {A B} (m : M A) (k : A -> M B) (Q : A -> Prop)
    (R : B -> Prop) :
  keeps I m Q -> (forall a, Q a -> keeps I (k a) R) -> keeps I (bind m k) R.
Proof.
  intros Hm Hk s Hs. unfold bind.
  destruct (Hm s Hs) as [Hi Hq].
  destruct (m s) as [s' [a|]]; simpl in *.
  - exact (Hk a (Hq a eq_refl) s' Hi).
  - split; [exact Hi | discriminate].
Qed.

Lemma keeps_weaken {A} (m : M A) (Q R : A -> Prop) :
  keeps I m Q -> (forall a, Q a -> R a) -> keeps I m R.
Proof. intros Hm HQR s Hs. destruct (Hm s Hs). split; auto. Qed.

Lemma keeps_when (b : bool) (m : M unit) :
  (b = true -> keeps I m (fun _ => True)) ->
  keeps I (when b m) (fun _ => True).
Proof. destruct b; simpl; intros H; [auto | now apply keeps_ret]. Qed.

End Rules.

(** ** Invariants of the scan

    Any property of the state that survives a bounds query, a bounds query
    followed by an opacity query on a cell in bounds, and the marking of a
    cell in bounds and nearer than the radius, survives the whole scan. *)

Section ScanInvariant.

Variable grid : GridMap.
Variables px py oct rad : Z.
Variable I : machine -> Prop.

Hypothesis I_bounds : forall s x y, I s -> I (logged (QInBounds x y) s).
Hypothesis I_opaque : forall s x y,
  InBounds grid x y = true -> I s ->
  I (logged (QIsOpaque x y) (logged (QInBounds x y) s)).
Hypothesis I_mark : forall s x y,
  InBounds grid x y = true -> distTo px py x y < rad -> I s ->
  I (marked x y s).

Lemma near_keeps (x y : Z) :
  keeps I (andM (inBounds grid x y) (ret (distTo px py x y <? rad)))
    (fun b => b = true ->
              InBounds grid x y = true /\ distTo px py x y < rad).
Proof.
  intros s Hs. unfold andM, bind, inBounds. simpl.
  destruct (InBounds grid x y) eqn:Hb; simpl.
  - split; [now apply I_bounds|]. intros a [= <-] Hlt. split; [easy | lia].
  - split; [now apply I_bounds|]. now intros a [= <-].
Qed.

Lemma clear_keeps (x y : Z) :
  keeps I (andM (inBounds grid x y) (notM (isOpaque grid x y)))
    (fun _ => True).
Proof.
  intros s Hs. unfold andM, notM, bind, inBounds, isOpaque. simpl.
  destruct (InBounds grid x y) eqn:Hb; simpl.
  - split; [now apply I_opaque | easy].
  - split; [now apply I_bounds | easy].
Qed.

Lemma mark_keeps (x y : Z) :
  InBounds grid x y = true -> distTo px py x y < rad ->
  keeps I (mark x y) (fun _ => True).
Proof. intros Hb Hd s Hs. split; [now apply I_mark | easy]. Qed.

Lemma fov_with_keeps loop :
  (forall d hi hs h ls g, keeps I (loop d hi hs h ls g) (fun _ => True)) ->
  forall dist ls hs,
    keeps I (fov_with rad loop dist ls hs) (fun _ => True).
Proof.
  intros Hloop dist ls hs. unfold fov_with.
  destruct (dist >? rad); [now apply keeps_ret | apply Hloop].
Qed.

Lemma fov_loop_keeps (fuel : nat) :
  forall dist high highSlope height lowSlope inGap,
    keeps I (fov_loop grid px py oct rad fuel dist high highSlope
               height lowSlope inGap) (fun _ => True).
Proof.
  induction fuel as [|fuel IH]; intros; simpl.
  - apply keeps_cut_off.
  - destruct (leb height high); [|now apply keeps_ret].
    destruct (distHeightXY px py dist (to_int height) oct) as [mapx mapy].
    eapply keeps_bind; [apply near_keeps|]. intros near Hnear.
    eapply keeps_bind.
    { apply keeps_when. intros ->. destruct Hnear as [Hb Hd]; [easy|].
      now apply mark_keeps. }
    intros _ _.
    eapply keeps_bind; [apply clear_keeps|]. intros clear _.
    destruct clear.
    + eapply keeps_bind; [|intros; apply IH].
      apply keeps_when. intros _. now apply fov_with_keeps.
    + eapply keeps_bind; [|intros; apply IH].
      apply keeps_when. intros _. now apply fov_with_keeps.
Qed.

Lemma fov_keeps (fuel : nat) (dist : Z) (lowSlope highSlope : float64) :
  keeps I (fov grid px py oct rad fuel dist lowSlope highSlope)
    (fun _ => True).
Proof. apply fov_with_keeps. apply fov_loop_keeps. Qed.

End ScanInvariant.

(** ** From the scan to [Compute] *)

Lemma for_range_keeps (I : machine -> Prop) (body : Z -> M unit) (n : nat) :
  (forall i, keeps I (body i) (fun _ => True)) ->
  forall i, keeps I (for_range n i body) (fun _ => True).
Proof.
  intros Hbody. induction n as [|n IH]; intros i; simpl.
  - now apply keeps_ret.
  - eapply keeps_bind; [apply Hbody | intros; apply IH].
Qed.

Lemma Compute_unfold (fuel : nat) (grid : GridMap) (px py r : Z) (s : machine) :
  Compute fuel grid px py r s =
  for_range 8 1 (fun i => fov grid px py i r fuel 1 zero one)
    (marked px py (cleared s)).
Proof. reflexivity. Qed.

Section ComputeInvariant.

Variable grid : GridMap.
Variables px py r : Z.
Variable I : machine -> Prop.

Hypothesis I_bounds : forall s x y, I s -> I (logged (QInBounds x y) s).
Hypothesis I_opaque : forall s x y,
  InBounds grid x y = true -> I s ->
  I (logged (QIsOpaque x y) (logged (QInBounds x y) s)).
Hypothesis I_mark : forall s x y,
  InBounds grid x y = true -> distTo px py x y < r -> I s ->
  I (marked x y s).

Lemma Compute_keeps (fuel : nat) (s : machine) :
  I (marked px py (cleared s)) -> I (fst (Compute fuel grid px py r s)).
Proof.
  intros Hs. rewrite Compute_unfold.
  refine (proj1 (for_range_keeps I _ 8 _ 1 _ Hs)).
  intros i. now apply fov_keeps.
Qed.

End ComputeInvariant.

Lemma elem_of_marked (k : string) (x y : Z) (s : machine) :
  k ∈ Visible (view (marked x y s)) <-> k = key x y \/ k ∈ Visible (view s).
Proof. simpl. set_solver. Qed.

Lemma IsVisible_spec (v : View) (x y : Z) :
  IsVisible v x y = true <-> key x y ∈ Visible v.
Proof. unfold IsVisible. apply bool_decide_eq_true. Qed.

Lemma marks_sound_Compute (fuel : nat) (grid : GridMap) (px py r : Z)
    (s : machine) :
  marks_sound grid px py r (fst (Compute fuel grid px py r s)).
Proof.
  apply Compute_keeps.
  - intros s0 x y H. exact H.
  - intros s0 x y _ H. exact H.
  - intros s0 x y Hb Hd H k Hk.
    apply elem_of_marked in Hk as [->|Hk]; [|now apply H].
    right. now exists x, y.
  - intros k Hk. apply elem_of_marked in Hk as [->|Hk]; [now left|].
    simpl in Hk. set_solver.
Qed.

Lemma guarded_In (grid : GridMap) (qs : list query) (x y : Z) :
  guarded grid qs -> In (QIsOpaque x y) qs -> InBounds grid x y = true.
Proof.
  induction qs as [|q qs IH]; simpl; [easy|].
  destruct q as [x0 y0|x0 y0].
  - intros Hg [[=]|Hin]. now apply IH.
  - destruct qs as [|[x1 y1|x1 y1] qs']; try easy.
    intros (-> & -> & Hb & Hg) [[= -> ->]|Hin]; [exact Hb | now apply IH].
Qed.

Lemma guarded_Compute (fuel : nat) (grid : GridMap) (px py r : Z)
    (s : machine) :
  guarded grid (queries s) ->
  guarded grid (queries (fst (Compute fuel grid px py r s))).
Proof.
  intros Hs.
  apply (Compute_keeps grid px py r (fun s => guarded grid (queries s)));
    simpl; auto.
Qed.

Lemma observer_marked_Compute (fuel : nat) (grid : GridMap) (px py r : Z)
    (s : machine) :
  key px py ∈ Visible (view (fst (Compute fuel grid px py r s))).
Proof.
  apply (Compute_keeps grid px py r
           (fun s => key px py ∈ Visible (view s))); simpl; auto.
  - intros. set_solver.
  - set_solver.
Qed.

(** The first statement of [fov] returns at once when the radius is below
    the initial distance. *)
Lemma fov_base_case (grid : GridMap) (px py oct rad : Z) (fuel : nat)
    (dist : Z) (lowSlope highSlope : float64) (s : machine) :
  rad < dist ->
  fov grid px py oct rad fuel dist lowSlope highSlope s = (s, Some tt).
Proof.
  intros H. unfold fov, fov_with.
  replace (dist >? rad) with true by (symmetry; apply Z.gtb_lt; lia).
  reflexivity.
Qed.

Lemma Compute_small_radius (fuel : nat) (grid : GridMap) (px py r : Z)
    (s : machine) :
  r <= 0 ->
  Compute fuel grid px py r s = (marked px py (cleared s), Some tt).
Proof.
  intros Hr. rewrite Compute_unfold. simpl. unfold bind.
  now rewrite !fov_base_case by lia.
Qed.

Lemma small_radius_view (fuel : nat) (grid : GridMap) (px py r : Z)
    (v : View) :
  r <= 0 ->
  Visible (view_after (Compute fuel grid px py r) v) = {[ key px py ]}.
Proof.
  intros Hr. unfold view_after, run. rewrite Compute_small_radius by exact Hr.
  simpl. apply union_empty_r_L.
Qed.

(** ** More fuel does not change a finished run *)

Lemma extends_refl {A} (m : M A) : extends m m.
Proof. now intros s s' a H. Qed.

Lemma extends_bind {A B} (m m' : M A) (k k' : A -> M B) :
  extends m m' -> (forall a, extends (k a) (k' a)) ->
  extends (bind m k) (bind m' k').
Proof.
  intros Hm Hk s s' b. unfold bind.
  destruct (m s) as [s1 [a|]] eqn:E; [|discriminate].
  rewrite (Hm _ _ _ E). apply Hk.
Qed.

Lemma extends_when (b : bool) (m m' : M unit) :
  extends m m' -> extends (when b m) (when b m').
Proof. destruct b; simpl; [easy | intros; apply extends_refl]. Qed.

Lemma extends_fov_with (rad : Z) loop loop' :
  (forall d hi hs h ls g, extends (loop d hi hs h ls g) (loop' d hi hs h ls g)) ->
  forall dist ls hs,
    extends (fov_with rad loop dist ls hs) (fov_with rad loop' dist ls hs).
Proof.
  intros H dist ls hs. unfold fov_with.
  destruct (dist >? rad); [apply extends_refl | apply H].
Qed.

Lemma fov_loop_S (grid : GridMap) (px py oct rad : Z) (fuel : nat)
    (dist : Z) (high highSlope height lowSlope : float64) (inGap : bool) :
  fov_loop grid px py oct rad (S fuel) dist high highSlope height lowSlope
    inGap =
  if leb height high then
    let '(mapx, mapy) := distHeightXY px py dist (to_int height) oct in
    near <- andM (inBounds grid mapx mapy)
                 (ret (distTo px py mapx mapy <? rad)) ;;
    when near (mark mapx mapy) ;;
    clear <- andM (inBounds grid mapx mapy)
                  (notM (isOpaque grid mapx mapy)) ;;
    if clear then
      when inGap
        (fov_with rad (fov_loop grid px py oct rad fuel) (Int.add dist 1)
           lowSlope (div (F64.sub height half) (of_int dist))) ;;
      fov_loop grid px py oct rad fuel dist high highSlope
        (F64.add height one) (div (F64.add height half) (of_int dist)) false
    else
      when (eqb height high)
        (fov_with rad (fov_loop grid px py oct rad fuel) (Int.add dist 1)
           lowSlope highSlope) ;;
      fov_loop grid px py oct rad fuel dist high highSlope
        (F64.add height one) lowSlope true
  else ret tt.
Proof. reflexivity. Qed.

Lemma fov_loop_fuel_S (grid : GridMap) (px py oct rad : Z) (fuel : nat) :
  forall dist high highSlope height lowSlope inGap,
    extends
      (fov_loop grid px py oct rad fuel dist high highSlope height lowSlope
         inGap)
      (fov_loop grid px py oct rad (S fuel) dist high highSlope height
         lowSlope inGap).
Proof.
  induction fuel as [|fuel IH]; intros.
  - intros s s' a. simpl. discriminate.
  - rewrite (fov_loop_S _ _ _ _ _ fuel), (fov_loop_S _ _ _ _ _ (S fuel)).
    destruct (leb height high); [|apply extends_refl].
    destruct (distHeightXY px py dist (to_int height) oct) as [mapx mapy].
    apply extends_bind; [apply extends_refl|]. intros near.
    apply extends_bind; [apply extends_refl|]. intros _.
    apply extends_bind; [apply extends_refl|]. intros [|].
    + apply extends_bind; [|intros; apply IH].
      apply extends_when. apply extends_fov_with. intros; apply IH.
    + apply extends_bind; [|intros; apply IH].
      apply extends_when. apply extends_fov_with. intros; apply IH.
Qed.

Lemma extends_trans {A} (m1 m2 m3 : M A) :
  extends m1 m2 -> extends m2 m3 -> extends m1 m3.
Proof. intros H12 H23 s s' a H. now apply H23, H12. Qed.

Lemma fov_loop_fuel_le (grid : GridMap) (px py oct rad : Z) (n m : nat) :
  (n <= m)%nat ->
  forall dist high highSlope height lowSlope inGap,
    extends
      (fov_loop grid px py oct rad n dist high highSlope height lowSlope inGap)
      (fov_loop grid px py oct rad m dist high highSlope height lowSlope inGap).
Proof.
  induction 1 as [|m _ IH]; intros.
  - apply extends_refl.
  - eapply extends_trans; [apply IH | apply fov_loop_fuel_S].
Qed.

Lemma extends_for_range (body body' : Z -> M unit) (n : nat) :
  (forall i, extends (body i) (body' i)) ->
  forall i, extends (for_range n i body) (for_range n i body').
Proof.
  intros H. induction n as [|n IH]; intros i; simpl.
  - apply extends_refl.
  - apply extends_bind; [apply H | intros; apply IH].
Qed.

Lemma Compute_fuel_le (grid : GridMap) (px py r : Z) (n m : nat) :
  (n <= m)%nat ->
  extends (Compute n grid px py r) (Compute m grid px py r).
Proof.
  intros Hnm. unfold Compute.
  apply extends_bind; [apply extends_refl|]. intros _.
  apply extends_bind; [apply extends_refl|]. intros _.
  apply extends_for_range. intros i. unfold fov.
  apply extends_fov_with. intros. now apply fov_loop_fuel_le.
Qed.

(** A run that finished is the run of every larger budget. *)
Lemma run_fuel_le (grid : GridMap) (px py r : Z) (n m : nat) (v : View) :
  finished (Compute n grid px py r) v = true -> (n <= m)%nat ->
  run (Compute m grid px py r) v = run (Compute n grid px py r) v.
Proof.
  unfold finished, run. intros Hfin Hnm.
  destruct (Compute n grid px py r _) as [s' [[]|]] eqn:E; [|discriminate].
  now apply (Compute_fuel_le grid px py r n m Hnm).
Qed.

(** ** Machine arithmetic *)

Lemma wrap_small (z : Z) : Int.in_range z -> Int.wrap z = z.
Proof.
  unfold Int.in_range, Int.min_int, Int.max_int, Int.wrap. intros H.
  rewrite Z.mod_small by lia. lia.
Qed.

Lemma land_bit (a k : Z) : 0 <= k -> (Z.land a (2 ^ k) >? 0) = Z.testbit a k.
Proof.
  intros Hk.
  assert (E : Z.land a (2 ^ k) = if Z.testbit a k then 2 ^ k else 0).
  { apply Z.bits_inj'. intros n Hn.
    rewrite Z.land_spec, Z.pow2_bits_eqb by lia.
    destruct (Z.eqb_spec k n) as [->|Hne].
    - destruct (Z.testbit a n); simpl.
      + now rewrite Z.pow2_bits_eqb, Z.eqb_refl by lia.
      + now rewrite Z.bits_0.
    - rewrite andb_false_r.
      destruct (Z.testbit a k).
      + rewrite Z.pow2_bits_eqb by lia. symmetry. now apply Z.eqb_neq.
      + now rewrite Z.bits_0. }
  rewrite E. destruct (Z.testbit a k).
  - apply Z.gtb_lt. apply Z.pow_pos_nonneg; lia.
  - reflexivity.
Qed.

(** * Facts about [float64] arithmetic

    What the scan needs of binary64: counting, comparing and rounding of
    integers up to 2^53, and bounds on the rounded products, sums and
    quotients that make the height bands. *)

Lemma digits2_pos_size (p : positive) : digits2_pos p = Pos.size p.
Proof. induction p; simpl; congruence. Qed.

Lemma size_bounds (p : positive) :
  2 ^ (Zpos (Pos.size p) - 1) <= Zpos p < 2 ^ Zpos (Pos.size p).
Proof.
  split.
  - pose proof (Pos.size_le p) as H.
    assert (H' : 2 ^ Zpos (Pos.size p) <= 2 * Zpos p).
    { change (2 * Zpos p) with (Zpos p~0). rewrite <- Pos2Z.inj_pow. now apply Pos2Z.pos_le_pos. }
    replace (Zpos (Pos.size p)) with (Zpos (Pos.size p) - 1 + 1) in H' by lia.
    rewrite Z.pow_add_r in H' by lia. lia.
  - pose proof (Pos.size_gt p) as H.
    rewrite <- Pos2Z.inj_pow. now apply Pos2Z.pos_lt_pos.
Qed.

Lemma size_unique (p : positive) (n : Z) :
  2 ^ (n - 1) <= Zpos p < 2 ^ n -> Zpos (Pos.size p) = n.
Proof.
  intros [Hlo Hhi]. pose proof (size_bounds p) as [Slo Shi].
  assert (Hn : 0 < n).
  { destruct (Z.lt_trichotomy n 0) as [H|[H|H]]; auto.
    - rewrite (Z.pow_neg_r 2 n) in Hhi by lia. lia.
    - subst. simpl in Hhi. lia. }
  destruct (Z.lt_trichotomy (Zpos (Pos.size p)) n) as [H|[H|H]]; auto.
  - assert (2 ^ Zpos (Pos.size p) <= 2 ^ (n - 1)) by (apply Z.pow_le_mono_r; lia). lia.
  - assert (2 ^ n <= 2 ^ (Zpos (Pos.size p) - 1)) by (apply Z.pow_le_mono_r; lia). lia.
Qed.

Lemma iter_pos_iter {A} (f : A -> A) (n : positive) (x : A) :
  SpecFloat.iter_pos f n x = Pos.iter f x n.
Proof.
  revert x. induction n as [n IH|n IH|]; intros x; simpl.
  - rewrite !IH. now rewrite <- !Pos.iter_swap.
  - now rewrite !IH.
  - reflexivity.
Qed.

Lemma shr_1_spec (z : Z) (r s : bool) :
  0 <= z ->
  shr_1 {| shr_m := z; shr_r := r; shr_s := s |} =
  {| shr_m := Z.div2 z; shr_r := Z.odd z; shr_s := r || s |}.
Proof. intros Hz. destruct z as [|[p|p|]|p]; try reflexivity; lia. Qed.

Lemma shr_exact (k : nat) (m : Z) :
  0 <= m ->
  Nat.iter k shr_1 {| shr_m := m * 2 ^ Z.of_nat k; shr_r := false; shr_s := false |} =
  {| shr_m := m; shr_r := false; shr_s := false |}.
Proof.
  intros Hm. revert m Hm. induction k as [|k IH]; intros m Hm.
  - simpl. now rewrite Z.mul_1_r.
  - rewrite Nat.iter_succ_r.
    rewrite Nat2Z.inj_succ, Z.pow_succ_r by lia.
    replace (m * (2 * 2 ^ Z.of_nat k)) with (2 * (m * 2 ^ Z.of_nat k)) by ring.
    set (x := m * 2 ^ Z.of_nat k).
    assert (Hx : 0 <= x) by (apply Z.mul_nonneg_nonneg; lia).
    rewrite shr_1_spec by lia.
    rewrite Z.div2_div, (Z.mul_comm 2 x), Z.div_mul by lia.
    rewrite Z.odd_mul, andb_false_r. simpl. now apply IH.
Qed.


Lemma Zdigits2_unique (z n : Z) :
  0 < z -> 2 ^ (n - 1) <= z < 2 ^ n -> Zdigits2 z = n.
Proof.
  intros Hz H. destruct z as [|p|p]; try lia.
  simpl. rewrite digits2_pos_size. now apply size_unique.
Qed.

Lemma shr_pos (mrs : shr_record) (e n : Z) :
  0 < n -> shr mrs e n = (Nat.iter (Z.to_nat n) shr_1 mrs, e + n).
Proof.
  intros Hn. destruct n as [|p|p]; try lia.
  simpl. now rewrite iter_pos_iter, Pos2Nat.inj_iter.
Qed.

Lemma shr_nonpos (mrs : shr_record) (e n : Z) :
  n <= 0 -> shr mrs e n = (mrs, e).
Proof. intros Hn. destruct n as [|p|p]; try lia; reflexivity. Qed.

Lemma fexp_normal (e : Z) : emin prec emax <= e - prec -> fexp prec emax e = e - prec.
Proof. unfold fexp. lia. Qed.

Lemma round_aux_exact (s : bool) (P : positive) (n E : Z) :
  Zpos (Pos.size P) = 53 -> 0 <= n ->
  -1074 <= E + n <= 971 ->
  binary_round_aux prec emax s (Zpos P * 2 ^ n) E loc_Exact =
  S754_finite s P (E + n).
Proof.
  intros HP Hn HE.
  pose proof (size_bounds P) as [Plo Phi]. rewrite HP in Plo, Phi.
  assert (Hpow : 0 < 2 ^ n) by (apply Z.pow_pos_nonneg; lia).
  assert (HM : 0 < Zpos P * 2 ^ n) by lia.
  assert (Hd : Zdigits2 (Zpos P * 2 ^ n) = 53 + n).
  { apply Zdigits2_unique; [exact HM|].
    replace (53 + n - 1) with (52 + n) by lia.
    rewrite !Z.pow_add_r by lia. nia. }
  unfold binary_round_aux, shr_fexp. rewrite Hd.
  rewrite fexp_normal by (unfold emin, prec, emax; lia).
  replace (53 + n + E - prec - E) with n by (unfold prec; lia).
  assert (Hstage : shr (shr_record_of_loc (Zpos P * 2 ^ n) loc_Exact) E n =
            ({| shr_m := Zpos P; shr_r := false; shr_s := false |}, E + n)).
  { destruct (Z.eq_dec n 0) as [->|Hn0].
    - rewrite shr_nonpos by lia. now rewrite Z.pow_0_r, Z.mul_1_r, Z.add_0_r.
    - rewrite shr_pos by lia. simpl shr_record_of_loc.
      replace (2 ^ n) with (2 ^ Z.of_nat (Z.to_nat n))
        by (now rewrite Z2Nat.id by lia).
      now rewrite shr_exact by lia. }
  rewrite Hstage. simpl loc_of_shr_record. simpl round_nearest_even.
  simpl Zdigits2. rewrite digits2_pos_size, HP.
  rewrite fexp_normal by (unfold emin, prec, emax; lia).
  rewrite shr_nonpos by (unfold prec; lia).
  simpl shr_m.
  replace (E + n <=? emax - prec) with true
    by (symmetry; apply Z.leb_le; unfold emax, prec; lia).
  reflexivity.
Qed.

Lemma iter_xO_pow (M d : positive) :
  Zpos (Pos.iter xO M d) = Zpos M * 2 ^ Zpos d.
Proof.
  induction d as [|d IH] using Pos.peano_ind.
  - simpl. lia.
  - rewrite Pos.iter_succ, Pos2Z.inj_xO, IH, Pos2Z.inj_succ, Z.pow_succ_r by lia.
    ring.
Qed.

(** Rounding a number that a normal float represents gives that float. *)
Lemma round_exact (s : bool) (M : positive) (E : Z) (P : positive) (E' : Z) :
  Zpos (Pos.size P) = 53 -> -1074 <= E' <= 971 ->
  Zpos M * 2 ^ (E - Z.min E E') = Zpos P * 2 ^ (E' - Z.min E E') ->
  binary_round prec emax s M E = S754_finite s P E'.
Proof.
  intros HP HE Hval.
  pose proof (size_bounds P) as [Plo Phi]. rewrite HP in Plo, Phi.
  pose proof (size_bounds M) as [Mlo Mhi].
  unfold binary_round. rewrite digits2_pos_size.
  destruct (Z.le_gt_cases E E') as [Hle|Hgt].
  - rewrite Z.min_l in Hval by lia. rewrite Z.sub_diag, Z.mul_1_r in Hval.
    assert (Hpow : 0 < 2 ^ (E' - E)) by (apply Z.pow_pos_nonneg; lia).
    assert (Hsz : Zpos (Pos.size M) = 53 + (E' - E)).
    { apply size_unique. rewrite Hval.
      replace (53 + (E' - E) - 1) with (52 + (E' - E)) by lia.
      rewrite !Z.pow_add_r by lia. nia. }
    rewrite Hsz. rewrite fexp_normal by (unfold emin, prec, emax; lia).
    unfold shl_align.
    replace (53 + (E' - E) + E - prec - E) with (E' - E) by (unfold prec; lia).
    assert (Hal : match E' - E with
                  | Z.neg d => (Pos.iter xO M d, 53 + (E' - E) + E - prec)
                  | _ => (M, E) end = (M, E)).
    { destruct (E' - E) eqn:Hd; try reflexivity; lia. }
    rewrite Hal, Hval.
    replace E' with (E + (E' - E)) at 2 by lia.
    apply round_aux_exact; lia.
  - rewrite Z.min_r in Hval by lia. rewrite Z.sub_diag, Z.mul_1_r in Hval.
    assert (Hpow : 0 < 2 ^ (E - E')) by (apply Z.pow_pos_nonneg; lia).
    assert (Hsz : Zpos (Pos.size M) = 53 - (E - E')).
    { apply size_unique.
      assert (2 ^ (53 - (E - E') - 1) * 2 ^ (E - E') = 2 ^ 52 /\
              2 ^ (53 - (E - E')) * 2 ^ (E - E') = 2 ^ 53) as [H1 H2].
      { destruct (Z.le_gt_cases (E - E') 52).
        - rewrite <- !Z.pow_add_r by lia. split; f_equal; lia.
        - exfalso. assert (2 ^ 53 <= 2 ^ (E - E')) by (apply Z.pow_le_mono_r; lia).
          nia. }
      nia. }
    rewrite Hsz. rewrite fexp_normal by (unfold emin, prec, emax; lia).
    unfold shl_align.
    replace (53 - (E - E') + E - prec - E) with (E' - E) by (unfold prec; lia).
    replace (53 - (E - E') + E - prec) with E' by (unfold prec; lia).
    destruct (E' - E) as [|d|d] eqn:Hd; try lia.
    assert (HMP : Zpos (Pos.iter xO M d) = Zpos P).
    { rewrite iter_xO_pow, <- Hval. f_equal. f_equal. lia. }
    injection HMP as ->.
    replace (Zpos P) with (Zpos P * 2 ^ 0) by lia.
    replace E' with (E' + 0) at 2 by lia.
    apply round_aux_exact; lia.
Qed.

Lemma int_float_exists (k : Z) :
  0 < k <= 2 ^ 53 ->
  exists m e, Zpos (Pos.size m) = 53 /\ -52 <= e <= 1 /\
              Zpos m * 2 ^ (e + 52) = k * 2 ^ 52.
Proof.
  intros Hk.
  destruct (Z.eq_dec k (2 ^ 53)) as [->|Hne].
  - exists (2 ^ 52)%positive, 1. repeat split; try reflexivity; lia.
  - pose proof (Z.log2_spec k ltac:(lia)) as [Llo Lhi].
    pose proof (Z.log2_nonneg k) as L0.
    assert (L52 : Z.log2 k <= 52).
    { destruct (Z.le_gt_cases (Z.log2 k) 52); auto.
      assert (2 ^ 53 <= 2 ^ Z.log2 k) by (apply Z.pow_le_mono_r; lia). lia. }
    assert (Hpow : 0 < 2 ^ (52 - Z.log2 k)) by (apply Z.pow_pos_nonneg; lia).
    assert (Hsplit : 2 ^ Z.log2 k * 2 ^ (52 - Z.log2 k) = 2 ^ 52).
    { rewrite <- Z.pow_add_r by lia. f_equal. lia. }
    exists (Z.to_pos (k * 2 ^ (52 - Z.log2 k))), (Z.log2 k - 52).
    assert (Hm : Zpos (Z.to_pos (k * 2 ^ (52 - Z.log2 k))) =
                 k * 2 ^ (52 - Z.log2 k)) by (apply Z2Pos.id; nia).
    split; [|split; [lia|]].
    + apply size_unique. rewrite Hm.
      rewrite Z.pow_succ_r in Lhi by lia.
      change (53 - 1) with 52. change (2 ^ 53) with (2 * 2 ^ 52). nia.
    + rewrite Hm. replace (Z.log2 k - 52 + 52) with (Z.log2 k) by lia.
      nia.
Qed.

Lemma of_int_int_float (k : Z) : 0 < k <= 2 ^ 53 -> int_float k (of_int k).
Proof.
  intros Hk. destruct (int_float_exists k Hk) as (m & e & Hsz & He & Hval).
  exists m, e. repeat split; try assumption; try lia.
  unfold of_int. destruct k as [|p|p]; try lia.
  simpl binary_normalize. apply round_exact; [exact Hsz | lia |].
  destruct (Z.le_gt_cases 0 e) as [H0|H0].
  - rewrite Z.min_l by lia. simpl (0 - 0). rewrite Z.mul_1_r.
    replace (e + 52) with (e - 0 + 52) in Hval by lia.
    rewrite Z.pow_add_r in Hval by lia. nia.
  - rewrite Z.min_r by lia. rewrite Z.sub_diag, Z.mul_1_r.
    assert (2 ^ (0 - e) * 2 ^ (e + 52) = 2 ^ 52).
    { rewrite <- Z.pow_add_r by lia. f_equal. lia. }
    assert (0 < 2 ^ (e + 52)) by (apply Z.pow_pos_nonneg; lia).
    nia.
Qed.

Lemma int_float_unique (k : Z) (x y : float64) :
  int_float k x -> int_float k y -> x = y.
Proof.
  intros (m & e & -> & Hm & He & Hv) (m' & e' & -> & Hm' & He' & Hv').
  pose proof (size_bounds m) as [Mlo Mhi]. rewrite Hm in Mlo, Mhi.
  pose proof (size_bounds m') as [Mlo' Mhi']. rewrite Hm' in Mlo', Mhi'.
  change (53 - 1) with 52 in *.
  assert (Hee : e = e').
  { destruct (Z.lt_trichotomy e e') as [H|[H|H]]; auto; exfalso.
    - assert (2 ^ (e' + 52) = 2 ^ (e' - e) * 2 ^ (e + 52))
        by (rewrite <- Z.pow_add_r by lia; f_equal; lia).
      assert (2 <= 2 ^ (e' - e)) by (change 2 with (2 ^ 1) at 1; apply Z.pow_le_mono_r; lia).
      assert (0 < 2 ^ (e + 52)) by (apply Z.pow_pos_nonneg; lia).
      nia.
    - assert (2 ^ (e + 52) = 2 ^ (e - e') * 2 ^ (e' + 52))
        by (rewrite <- Z.pow_add_r by lia; f_equal; lia).
      assert (2 <= 2 ^ (e - e')) by (change 2 with (2 ^ 1) at 1; apply Z.pow_le_mono_r; lia).
      assert (0 < 2 ^ (e' + 52)) by (apply Z.pow_pos_nonneg; lia).
      nia. }
  subst e'. assert (0 < 2 ^ (e + 52)) by (apply Z.pow_pos_nonneg; lia).
  assert (Zpos m = Zpos m') by nia. congruence.
Qed.

Lemma of_int_of_int_float (k : Z) (x : float64) :
  0 < k <= 2 ^ 53 -> int_float k x -> of_int k = x.
Proof. intros Hk Hx. eapply int_float_unique; [now apply of_int_int_float | exact Hx]. Qed.

Lemma one_eq : one = S754_finite false (2 ^ 52) (-52).
Proof. reflexivity. Qed.

Lemma half_eq : half = S754_finite false (2 ^ 52) (-53).
Proof. reflexivity. Qed.

(** Aligning a significand to a lower exponent multiplies it by a power of
    two. *)
Lemma shl_align_val (m : positive) (e ez : Z) :
  ez <= e -> Zpos (fst (shl_align m e ez)) = Zpos m * 2 ^ (e - ez).
Proof.
  intros H. unfold shl_align.
  destruct (ez - e) as [|d|d] eqn:Hd; simpl fst; try lia.
  - replace (e - ez) with 0 by lia. lia.
  - rewrite iter_xO_pow. f_equal. f_equal. lia.
Qed.

Lemma mul_one_int_float (k : Z) (x : float64) :
  int_float k x -> mul one x = x.
Proof.
  intros (m & e & -> & Hm & He & Hv). rewrite one_eq.
  unfold mul, SFmul. simpl xorb.
  replace (Zpos (2 ^ 52 * m)) with (Zpos m * 2 ^ 52) by lia.
  replace e with (-52 + e + 52) at 2 by lia.
  apply round_aux_exact; lia.
Qed.

Lemma add_one_int_float (k : Z) (x : float64) :
  0 < k < 2 ^ 53 -> int_float k x -> F64.add x one = of_int (k + 1).
Proof.
  intros Hk (m & e & -> & Hm & He & Hv).
  assert (He' : e <= 0).
  { destruct (Z.eq_dec e 1) as [->|]; [|lia].
    pose proof (size_bounds m) as [Mlo _]. rewrite Hm in Mlo.
    change (53 - 1) with 52 in Mlo. change (2 ^ (1 + 52)) with (2 * 2 ^ 52) in Hv.
    change (2 ^ 53) with (2 * 2 ^ 52) in Hk. nia. }
  destruct (of_int_int_float (k + 1) ltac:(lia)) as (m' & e' & -> & Hm' & He2 & Hv').
  rewrite one_eq. unfold F64.add, SFadd.
  rewrite Z.min_r by lia. cbv [cond_Zopp].
  rewrite !shl_align_val by lia. rewrite Z.sub_diag, Z.mul_1_r.
  replace (e - -52) with (e + 52) by lia. rewrite Hv.
  replace (k * 2 ^ 52 + Zpos (2 ^ 52)) with ((k + 1) * 2 ^ 52) by lia.
  rewrite <- Hv'.
  assert (Hpos : 0 < Zpos m' * 2 ^ (e' + 52))
    by (apply Z.mul_pos_pos; [lia | apply Z.pow_pos_nonneg; lia]).
  destruct (Zpos m' * 2 ^ (e' + 52)) as [|M|M] eqn:HM; try lia.
  simpl binary_normalize. apply round_exact; [exact Hm' | lia |].
  rewrite Z.min_l by lia. rewrite Z.sub_diag, Z.mul_1_r.
  rewrite <- HM. now replace (e' - -52) with (e' + 52) by lia.
Qed.

Lemma add_zero_one : F64.add zero one = of_int 1.
Proof. reflexivity. Qed.

(** Counting up by one from an integer below 2^53 is exact. *)
Lemma add_one_of_int (k : Z) :
  0 <= k < 2 ^ 53 -> F64.add (of_int k) one = of_int (k + 1).
Proof.
  intros Hk. destruct (Z.eq_dec k 0) as [->|Hne]; [reflexivity|].
  apply add_one_int_float; [lia | apply of_int_int_float; lia].
Qed.

Lemma binary_round_aux_finish (s : bool) (mx ex : Z) (lx : location) :
  binary_round_aux prec emax s mx ex lx =
  let '(mrs, e) := shr_fexp prec emax mx ex lx in
  finish s (round_nearest_even (shr_m mrs) (loc_of_shr_record mrs)) e.
Proof. reflexivity. Qed.

Lemma stage_exact (P : positive) (n E : Z) :
  Zpos (Pos.size P) = 53 -> 0 <= n -> -1074 <= E + n ->
  shr_fexp prec emax (Zpos P * 2 ^ n) E loc_Exact =
  ({| shr_m := Zpos P; shr_r := false; shr_s := false |}, E + n).
Proof.
  intros HP Hn HE.
  pose proof (size_bounds P) as [Plo Phi]. rewrite HP in Plo, Phi.
  assert (Hpow : 0 < 2 ^ n) by (apply Z.pow_pos_nonneg; lia).
  assert (Hd : Zdigits2 (Zpos P * 2 ^ n) = 53 + n).
  { apply Zdigits2_unique; [lia|].
    replace (53 + n - 1) with (52 + n) by lia.
    rewrite !Z.pow_add_r by lia. nia. }
  unfold shr_fexp. rewrite Hd.
  rewrite fexp_normal by (unfold emin, prec, emax; lia).
  replace (53 + n + E - prec - E) with n by (unfold prec; lia).
  destruct (Z.eq_dec n 0) as [->|Hn0].
  - rewrite shr_nonpos by lia. now rewrite Z.pow_0_r, Z.mul_1_r, Z.add_0_r.
  - rewrite shr_pos by lia. simpl shr_record_of_loc.
    replace (2 ^ n) with (2 ^ Z.of_nat (Z.to_nat n))
      by (now rewrite Z2Nat.id by lia).
    now rewrite shr_exact by lia.
Qed.

Lemma finish_exact (s : bool) (P : positive) (n E : Z) :
  Zpos (Pos.size P) = 53 -> 0 <= n -> -1074 <= E + n <= 971 ->
  finish s (Zpos P * 2 ^ n) E = S754_finite s P (E + n).
Proof.
  intros HP Hn HE. unfold finish. rewrite stage_exact by lia. simpl shr_m.
  replace (E + n <=? emax - prec) with true
    by (symmetry; apply Z.leb_le; unfold emax, prec; lia).
  reflexivity.
Qed.



(** Below 2^52 adding one half is exact, and [floor] takes it away again. *)
Lemma floor_add_half_small (d : Z) (x : float64) :
  0 < d < 2 ^ 52 -> int_float d x -> floor (F64.add x half) = of_int d.
Proof.
  intros Hd (m & e & -> & Hm & He & Hv).
  pose proof (size_bounds m) as [Mlo Mhi]. rewrite Hm in Mlo, Mhi.
  change (53 - 1) with 52 in Mlo.
  assert (He0 : e < 0).
  { destruct (Z.lt_ge_cases e 0) as [H|H]; auto; exfalso.
    assert (2 ^ 52 <= 2 ^ (e + 52)) by (apply Z.pow_le_mono_r; lia). nia. }
  destruct (int_float_exists (2 * d + 1)) as (m' & e' & Hm' & He' & Hv').
  { change (2 ^ 53) with (2 * 2 ^ 52). lia. }
  pose proof (size_bounds m') as [Mlo' Mhi']. rewrite Hm' in Mlo', Mhi'.
  change (53 - 1) with 52 in Mlo'.
  assert (He0' : e' <= 0).
  { destruct (Z.le_gt_cases e' 0) as [H|H]; auto; exfalso.
    assert (e' = 1) by lia. subst e'.
    change (2 ^ (1 + 52)) with (2 * 2 ^ 52) in Hv'. nia. }
  assert (Hsum : F64.add (S754_finite false m e) half =
                 S754_finite false m' (e' - 1)).
  { rewrite half_eq. unfold F64.add, SFadd.
    rewrite Z.min_r by lia. cbv [cond_Zopp].
    rewrite !shl_align_val by lia. rewrite Z.sub_diag, Z.mul_1_r.
    replace (e - -53) with (1 + (e + 52)) by lia.
    rewrite Z.pow_add_r by lia. change (2 ^ 1) with 2.
    replace (Zpos m * (2 * 2 ^ (e + 52)) + Zpos (2 ^ 52))
      with ((2 * d + 1) * 2 ^ 52)
      by (set (X := 2 ^ (e + 52)) in *; change (Zpos (2 ^ 52)) with (2 ^ 52); nia).
    rewrite <- Hv'.
    assert (Hpos : 0 < Zpos m' * 2 ^ (e' + 52))
      by (apply Z.mul_pos_pos; [lia | apply Z.pow_pos_nonneg; lia]).
    destruct (Zpos m' * 2 ^ (e' + 52)) as [|M|M] eqn:HM; try lia.
    simpl binary_normalize. apply round_exact; [exact Hm' | lia |].
    rewrite Z.min_l by lia. rewrite Z.sub_diag, Z.mul_1_r.
    rewrite <- HM. now replace (e' - 1 - -53) with (e' + 52) by lia. }
  rewrite Hsum. unfold floor.
  replace (0 <=? e' - 1) with false by (symmetry; apply Z.leb_gt; lia).
  cbv [cond_Zopp]. rewrite Z.shiftr_div_pow2 by lia.
  replace (Zpos m' / 2 ^ (- (e' - 1))) with d; [reflexivity|].
  assert (Hs : 2 ^ (e' + 52) * 2 ^ (- e') = 2 ^ 52)
    by (rewrite <- Z.pow_add_r by lia; f_equal; lia).
  assert (Hp : 0 < 2 ^ (- e')) by (apply Z.pow_pos_nonneg; lia).
  assert (Hq : 0 < 2 ^ (e' + 52)) by (apply Z.pow_pos_nonneg; lia).
  assert (Hmm : Zpos m' = (2 * d + 1) * 2 ^ (- e')) by nia.
  replace (- (e' - 1)) with (1 + - e') by lia.
  rewrite Z.pow_add_r by lia. change (2 ^ 1) with 2. rewrite Hmm.
  rewrite Z.div_mul_cancel_r by lia.
  apply Z.div_unique with (r := 1); lia.
Qed.

(** The band of the whole octant, slopes 0 and 1, at every distance up to
    2^53 + 1: it starts at height 0 and ends at an integer not above
    2^53. *)
Lemma band_zero (d : Z) :
  0 < d <= 2 ^ 53 + 1 ->
  floor (F64.add (mul zero (of_int d)) half) = zero.
Proof.
  intros Hd.
  assert (Hfin : exists m e, of_int d = S754_finite false m e).
  { destruct (Z.eq_dec d (2 ^ 53 + 1)) as [->|Hne].
    - eexists _, _. reflexivity.
    - destruct (of_int_int_float d ltac:(lia)) as (m & e & -> & _). eauto. }
  destruct Hfin as (m & e & ->). reflexivity.
Qed.


Lemma compare_int_float (k k' : Z) (x y : float64) :
  int_float k x -> int_float k' y -> SFcompare x y = Some (k ?= k').
Proof.
  intros (m & e & -> & Hm & He & Hv) (m' & e' & -> & Hm' & He' & Hv').
  pose proof (size_bounds m) as [Mlo Mhi]. rewrite Hm in Mlo, Mhi.
  pose proof (size_bounds m') as [Mlo' Mhi']. rewrite Hm' in Mlo', Mhi'.
  change (53 - 1) with 52 in *.
  assert (P52 : 0 < 2 ^ 52) by lia.
  unfold SFcompare. f_equal.
  destruct (Z.compare_spec e e') as [Heq|Hlt|Hgt].
  - subst e'. rewrite Pos.compare_cont_spec.
    assert (Hp : 0 < 2 ^ (e + 52)) by (apply Z.pow_pos_nonneg; lia).
    change (m ?= m')%positive with (Zpos m ?= Zpos m').
    destruct (Z.compare_spec (Zpos m) (Zpos m')) as [E|L|G]; simpl; symmetry.
    + apply Z.compare_eq_iff. nia.
    + apply Z.compare_lt_iff. nia.
    + apply Z.compare_gt_iff. nia.
  - symmetry. apply Z.compare_lt_iff.
    assert (2 ^ (e' + 52) = 2 ^ (e' - e) * 2 ^ (e + 52))
      by (rewrite <- Z.pow_add_r by lia; f_equal; lia).
    assert (2 <= 2 ^ (e' - e))
      by (change 2 with (2 ^ 1) at 1; apply Z.pow_le_mono_r; lia).
    assert (0 < 2 ^ (e + 52)) by (apply Z.pow_pos_nonneg; lia).
    nia.
  - symmetry. apply Z.compare_gt_iff.
    assert (2 ^ (e + 52) = 2 ^ (e - e') * 2 ^ (e' + 52))
      by (rewrite <- Z.pow_add_r by lia; f_equal; lia).
    assert (2 <= 2 ^ (e - e'))
      by (change 2 with (2 ^ 1) at 1; apply Z.pow_le_mono_r; lia).
    assert (0 < 2 ^ (e' + 52)) by (apply Z.pow_pos_nonneg; lia).
    nia.
Qed.

Lemma compare_of_int (k k' : Z) :
  0 <= k <= 2 ^ 53 -> 0 <= k' <= 2 ^ 53 ->
  SFcompare (of_int k) (of_int k') = Some (k ?= k').
Proof.
  intros Hk Hk'.
  destruct (Z.eq_dec k 0) as [->|Hne], (Z.eq_dec k' 0) as [->|Hne'].
  - reflexivity.
  - destruct (of_int_int_float k' ltac:(lia)) as (m' & e' & -> & _).
    destruct k' as [|p|p]; try lia; reflexivity.
  - destruct (of_int_int_float k ltac:(lia)) as (m & e & -> & _).
    destruct k as [|p|p]; try lia; reflexivity.
  - apply compare_int_float; apply of_int_int_float; lia.
Qed.

Lemma leb_of_int_spec (k k' : Z) :
  0 <= k <= 2 ^ 53 -> 0 <= k' <= 2 ^ 53 ->
  leb (of_int k) (of_int k') = (k <=? k').
Proof.
  intros Hk Hk'. unfold leb, SFleb. rewrite compare_of_int by lia.
  unfold Z.leb. now destruct (k ?= k').
Qed.

Lemma leb_of_int (k k' : Z) :
  0 <= k <= k' -> k' <= 2 ^ 53 -> leb (of_int k) (of_int k') = true.
Proof.
  intros Hk Hk'. rewrite leb_of_int_spec by lia. apply Z.leb_le. lia.
Qed.

Lemma eqb_of_int_refl (k : Z) :
  0 <= k <= 2 ^ 53 -> eqb (of_int k) (of_int k) = true.
Proof.
  intros Hk. unfold eqb, SFeqb. rewrite compare_of_int by lia.
  now rewrite Z.compare_refl.
Qed.

(** ** Bounds on rounded results *)

Lemma shr_1_m (r : shr_record) :
  0 <= shr_m r -> shr_m (shr_1 r) = shr_m r / 2.
Proof.
  destruct r as [m r s]. cbn [shr_m]. intros Hm.
  rewrite shr_1_spec by exact Hm. cbn [shr_m]. apply Z.div2_div.
Qed.

Lemma shr_iter_m (n : nat) (r : shr_record) :
  0 <= shr_m r -> shr_m (Nat.iter n shr_1 r) = shr_m r / 2 ^ Z.of_nat n.
Proof.
  intros Hm. induction n as [|n IH].
  - simpl. now rewrite Z.div_1_r.
  - rewrite Nat2Z.inj_succ, Z.pow_succ_r by lia. simpl Nat.iter.
    rewrite shr_1_m.
    + rewrite IH. rewrite Z.div_div by (try apply Z.pow_pos_nonneg; lia).
      f_equal. ring.
    + rewrite IH. apply Z.div_pos; [exact Hm | apply Z.pow_pos_nonneg; lia].
Qed.

Lemma shr_record_of_loc_m (m : Z) (l : location) :
  shr_m (shr_record_of_loc m l) = m.
Proof. now destruct l as [|[| |]]. Qed.

Lemma round_nearest_even_bounds (m : Z) (l : location) :
  m <= round_nearest_even m l <= m + 1.
Proof.
  unfold round_nearest_even. destruct l as [|[| |]]; try lia.
  destruct (Z.even m); lia.
Qed.

(** The first stage of rounding a significand of at least 53 digits keeps
    its 53 leading digits. *)
Lemma stage_m (M : positive) (E : Z) (lx : location) :
  53 <= Zpos (Pos.size M) -> -1074 <= E + (Zpos (Pos.size M) - 53) ->
  exists mrs,
    shr_fexp prec emax (Zpos M) E lx = (mrs, E + (Zpos (Pos.size M) - 53)) /\
    shr_m mrs = Zpos M / 2 ^ (Zpos (Pos.size M) - 53).
Proof.
  intros HL HE. set (L := Zpos (Pos.size M)) in *.
  unfold shr_fexp. simpl Zdigits2. rewrite digits2_pos_size. fold L.
  rewrite fexp_normal by (unfold emin, prec, emax; lia).
  replace (L + E - prec - E) with (L - 53) by (unfold prec; lia).
  destruct (Z.eq_dec (L - 53) 0) as [E0|Hn0].
  - rewrite E0, shr_nonpos by lia. eexists. split; [f_equal; lia|].
    rewrite shr_record_of_loc_m. now rewrite Z.div_1_r.
  - rewrite shr_pos by lia. eexists. split; [reflexivity|].
    rewrite shr_iter_m by (rewrite shr_record_of_loc_m; lia).
    rewrite shr_record_of_loc_m. now rewrite Z2Nat.id by lia.
Qed.

Lemma div_pow2_bounds (M L n : Z) :
  0 <= n <= L - 1 -> 2 ^ (L - 1) <= M < 2 ^ L ->
  2 ^ (L - n - 1) <= M / 2 ^ n < 2 ^ (L - n).
Proof.
  intros Hn [Hlo Hhi].
  assert (Hp : 0 < 2 ^ n) by (apply Z.pow_pos_nonneg; lia).
  split.
  - apply Z.div_le_lower_bound; [lia|].
    rewrite <- Z.pow_add_r by lia. replace (n + (L - n - 1)) with (L - 1) by lia.
    exact Hlo.
  - apply Z.div_lt_upper_bound; [lia|].
    rewrite <- Z.pow_add_r by lia. replace (n + (L - n)) with L by lia.
    exact Hhi.
Qed.

(** Rounding a significand [M] of at least 53 digits at exponent [E], from
    any location: the result is a normal float whose significand is the 53
    leading digits [q] of [M] or [q + 1]. *)
Lemma round_aux_bounds (s : bool) (M : positive) (E : Z) (lx : location) :
  53 <= Zpos (Pos.size M) ->
  -1074 <= E + (Zpos (Pos.size M) - 53) <= 970 ->
  exists m' e',
    binary_round_aux prec emax s (Zpos M) E lx = S754_finite s m' e' /\
    Zpos (Pos.size m') = 53 /\
    E + (Zpos (Pos.size M) - 53) <= e' <= E + (Zpos (Pos.size M) - 53) + 1 /\
    Zpos M / 2 ^ (Zpos (Pos.size M) - 53) * 2 ^ (Zpos (Pos.size M) - 53)
      <= Zpos m' * 2 ^ (e' - E) /\
    Zpos m' * 2 ^ (e' - E)
      <= (Zpos M / 2 ^ (Zpos (Pos.size M) - 53) + 1) * 2 ^ (Zpos (Pos.size M) - 53).
Proof.
  intros HL HE. set (L := Zpos (Pos.size M)) in *. set (n := L - 53) in *.
  pose proof (size_bounds M) as HM. fold L in HM.
  destruct (stage_m M E lx HL ltac:(lia)) as (mrs & Hst & Hq).
  fold L in Hst, Hq. fold n in Hst, Hq.
  rewrite binary_round_aux_finish, Hst.
  set (q := Zpos M / 2 ^ n) in *.
  assert (Hqb : 2 ^ 52 <= q < 2 ^ 53).
  { pose proof (div_pow2_bounds (Zpos M) L n ltac:(lia) HM) as H.
    replace (L - n - 1) with 52 in H by lia.
    replace (L - n) with 53 in H by lia. exact H. }
  pose proof (round_nearest_even_bounds (shr_m mrs) (loc_of_shr_record mrs)) as Hr.
  rewrite Hq in Hr. rewrite Hq.
  set (m1 := round_nearest_even q (loc_of_shr_record mrs)) in *.
  assert (Hpn : 0 < 2 ^ n) by (apply Z.pow_pos_nonneg; lia).
  destruct (Z.eq_dec m1 (2 ^ 53)) as [Em|Nm].
  - exists (2 ^ 52)%positive, (E + n + 1). rewrite Em.
    change (2 ^ 53) with (Zpos (2 ^ 52) * 2 ^ 1).
    rewrite finish_exact by (try reflexivity; lia).
    split; [reflexivity|]. split; [reflexivity|]. split; [lia|].
    replace (E + n + 1 - E) with (1 + n) by lia.
    rewrite Z.pow_add_r by lia.
    change (Zpos (2 ^ 52)) with (2 ^ 52). change (2 ^ 1) with 2.
    change (2 ^ 53) with (2 * 2 ^ 52) in *. nia.
  - assert (Hm1 : 0 < m1) by lia.
    destruct m1 as [|p|p] eqn:Ep; try lia.
    exists p, (E + n).
    replace (Zpos p) with (Zpos p * 2 ^ 0) at 1 by lia.
    assert (Hsz : Zpos (Pos.size p) = 53)
      by (apply size_unique; change (53 - 1) with 52; lia).
    rewrite finish_exact by lia.
    split; [f_equal; lia|]. split; [exact Hsz|]. split; [lia|].
    replace (E + n - E) with n by lia. nia.
Qed.
(** ** Values of positive normal floats *)

Lemma pow2_pos (a : Z) : 0 <= a -> 0 < 2 ^ a.
Proof. intros. apply Z.pow_pos_nonneg; lia. Qed.

Lemma pow2_split (a b : Z) : 0 <= a -> 0 <= b -> 2 ^ (a + b) = 2 ^ a * 2 ^ b.
Proof. intros. apply Z.pow_add_r; lia. Qed.

Lemma pow2_le (a b : Z) : 0 <= a <= b -> 2 ^ a <= 2 ^ b.
Proof. intros. apply Z.pow_le_mono_r; lia. Qed.

Lemma pow2_lt_inv (a b : Z) : 0 <= b -> 2 ^ a < 2 ^ b -> a < b.
Proof. intros Hb H. apply (Z.pow_lt_mono_r_iff 2); lia. Qed.

Lemma size_le (M : positive) (t : Z) : Zpos M < 2 ^ t -> Zpos (Pos.size M) <= t.
Proof.
  intros H. pose proof (size_bounds M) as [Hlo _].
  assert (Ht : 0 <= t).
  { destruct (Z.le_gt_cases 0 t); auto. rewrite Z.pow_neg_r in H; lia. }
  assert (2 ^ (Zpos (Pos.size M) - 1) < 2 ^ t) by lia.
  apply pow2_lt_inv in H0; lia.
Qed.

Lemma size_ge (M : positive) (t : Z) : 2 ^ t <= Zpos M -> t + 1 <= Zpos (Pos.size M).
Proof.
  intros H. pose proof (size_bounds M) as [_ Hhi].
  destruct (Z.le_gt_cases 0 t) as [Ht|Ht]; [|lia].
  assert (2 ^ t < 2 ^ Zpos (Pos.size M)) by lia.
  apply pow2_lt_inv in H0; lia.
Qed.

(** Rounding from an exact location never passes a multiple of the last
    place that is not below the exact value. *)
Lemma round_aux_val_le (M : positive) (E T G : Z) :
  53 <= Zpos (Pos.size M) ->
  -1074 <= E -> E + (Zpos (Pos.size M) - 53) <= 970 ->
  T = G * 2 ^ (E + (Zpos (Pos.size M) - 53) + 1074) ->
  Zpos M * 2 ^ (E + 1074) <= T ->
  exists r, binary_round_aux prec emax false (Zpos M) E loc_Exact = r /\
            pn (E + (Zpos (Pos.size M) - 53)) (E + (Zpos (Pos.size M) - 53) + 1) r /\
            val r <= T.
Proof.
  intros HL HE Hhi HT Hle. set (n := Zpos (Pos.size M) - 53) in *.
  assert (Hn : 0 <= n) by lia.
  pose proof (pow2_pos n Hn) as Pn. pose proof (pow2_pos (E + 1074) ltac:(lia)) as PE.
  replace (E + n + 1074) with (n + (E + 1074)) in HT by lia.
  rewrite pow2_split in HT by lia.
  set (q := Zpos M / 2 ^ n).
  pose proof (Z.div_mod (Zpos M) (2 ^ n) ltac:(lia)) as Hdm. fold q in Hdm.
  pose proof (Z.mod_pos_bound (Zpos M) (2 ^ n) Pn) as Hmod.
  destruct (Z.eq_dec (Zpos M mod 2 ^ n) 0) as [Hex|Hin].
  - (* exact *)
    assert (HMq : Zpos M = q * 2 ^ n) by lia.
    assert (Hqb : 2 ^ 52 <= q < 2 ^ 53).
    { pose proof (div_pow2_bounds (Zpos M) (Zpos (Pos.size M)) n ltac:(lia)
                    (size_bounds M)) as H.
      replace (Zpos (Pos.size M) - n - 1) with 52 in H by lia.
      replace (Zpos (Pos.size M) - n) with 53 in H by lia. exact H. }
    destruct q as [|P|P] eqn:Eq; try lia.
    assert (Hsz : Zpos (Pos.size P) = 53)
      by (apply size_unique; change (53 - 1) with 52; lia).
    eexists. split; [reflexivity|]. rewrite HMq.
    rewrite round_aux_exact by lia. split.
    + exists P, (E + n). repeat split; lia || assumption.
    + simpl val. replace (E + n + 1074) with (n + (E + 1074)) by lia.
      rewrite pow2_split by lia. rewrite HMq in Hle. lia.
  - destruct (round_aux_bounds false M E loc_Exact HL ltac:(lia))
      as (m' & e' & Hr & Hsz & He' & _ & Hub).
    fold n in He', Hub. fold q in Hub.
    eexists. split; [reflexivity|]. rewrite Hr. split.
    + exists m', e'. repeat split; lia || assumption.
    + simpl val. replace (e' + 1074) with ((e' - E) + (E + 1074)) by lia.
      rewrite pow2_split by lia.
      assert (HMG : Zpos M <= G * 2 ^ n).
      { apply (Z.mul_le_mono_pos_r _ _ (2 ^ (E + 1074))); [lia|].
        rewrite <- Z.mul_assoc, <- HT. exact Hle. }
      assert (HG : q + 1 <= G).
      { assert (q * 2 ^ n < G * 2 ^ n) by lia.
        apply Z.mul_lt_mono_pos_r in H; lia. }
      assert ((q + 1) * 2 ^ n <= G * 2 ^ n)
        by (apply Z.mul_le_mono_nonneg_r; lia).
      rewrite HT, !Z.mul_assoc.
      apply Z.mul_le_mono_nonneg_r; lia.
Qed.

(** From any location, the same holds for a multiple strictly above. *)
Lemma round_aux_val_lt (M : positive) (E T G : Z) (lx : location) :
  53 <= Zpos (Pos.size M) ->
  -1074 <= E -> E + (Zpos (Pos.size M) - 53) <= 970 ->
  T = G * 2 ^ (E + (Zpos (Pos.size M) - 53) + 1074) ->
  Zpos M * 2 ^ (E + 1074) < T ->
  exists r, binary_round_aux prec emax false (Zpos M) E lx = r /\
            pn (E + (Zpos (Pos.size M) - 53)) (E + (Zpos (Pos.size M) - 53) + 1) r /\
            val r <= T.
Proof.
  intros HL HE Hhi HT Hlt. set (n := Zpos (Pos.size M) - 53) in *.
  assert (Hn : 0 <= n) by lia.
  pose proof (pow2_pos n Hn) as Pn. pose proof (pow2_pos (E + 1074) ltac:(lia)) as PE.
  replace (E + n + 1074) with (n + (E + 1074)) in HT by lia.
  rewrite pow2_split in HT by lia.
  set (q := Zpos M / 2 ^ n).
  pose proof (Z.div_mod (Zpos M) (2 ^ n) ltac:(lia)) as Hdm. fold q in Hdm.
  pose proof (Z.mod_pos_bound (Zpos M) (2 ^ n) Pn) as Hmod.
  destruct (round_aux_bounds false M E lx HL ltac:(lia))
    as (m' & e' & Hr & Hsz & He' & _ & Hub).
  fold n in He', Hub. fold q in Hub.
  eexists. split; [reflexivity|]. rewrite Hr. split.
  - exists m', e'. repeat split; lia || assumption.
  - simpl val. replace (e' + 1074) with ((e' - E) + (E + 1074)) by lia.
    rewrite pow2_split by lia.
    assert (HMG : Zpos M < G * 2 ^ n).
    { apply (Z.mul_lt_mono_pos_r (2 ^ (E + 1074))); [lia|].
      rewrite <- Z.mul_assoc, <- HT. exact Hlt. }
    assert (HG : q + 1 <= G).
    { assert (q * 2 ^ n < G * 2 ^ n) by lia.
      apply Z.mul_lt_mono_pos_r in H; lia. }
    assert ((q + 1) * 2 ^ n <= G * 2 ^ n)
      by (apply Z.mul_le_mono_nonneg_r; lia).
    rewrite HT, !Z.mul_assoc.
    apply Z.mul_le_mono_nonneg_r; lia.
Qed.

Lemma pn_weaken (lo hi lo' hi' : Z) (x : float64) :
  pn lo hi x -> lo' <= lo -> hi <= hi' -> pn lo' hi' x.
Proof.
  intros (m & e & -> & Hm & He) Hlo Hhi. exists m, e. repeat split; lia || assumption.
Qed.

Lemma of_int_val (d : Z) :
  0 < d < 2 ^ 52 -> pn (-52) (-1) (of_int d) /\ val (of_int d) = d * 2 ^ 1074.
Proof.
  intros Hd.
  destruct (of_int_int_float d ltac:(lia)) as (m & e & -> & Hm & He & Hv).
  pose proof (size_bounds m) as [Mlo Mhi]. rewrite Hm in Mlo, Mhi.
  change (53 - 1) with 52 in Mlo.
  assert (He0 : e < 0).
  { destruct (Z.lt_ge_cases e 0) as [H|H]; auto; exfalso.
    assert (2 ^ 52 <= 2 ^ (e + 52)) by (apply pow2_le; lia). nia. }
  split.
  - exists m, e. repeat split; lia || assumption.
  - simpl val. replace (e + 1074) with ((e + 52) + 1022) by lia.
    rewrite pow2_split by lia. rewrite Z.mul_assoc, Hv.
    change (2 ^ 1074) with (2 ^ 52 * 2 ^ 1022). ring.
Qed.

Lemma one_val : pn (-52) (-52) one /\ val one = 2 ^ 1074.
Proof.
  split; [|reflexivity]. exists (2 ^ 52)%positive, (-52).
  repeat split; try reflexivity; lia.
Qed.

(** A factor at most 2^b multiplies a value by at most 2^b. *)
Lemma mul_val_le (s y : float64) (b : Z) :
  pn (-110) 10 s -> pn (-60) 10 y -> 0 <= b <= 10 ->
  val s <= 2 ^ (b + 1074) ->
  exists r, mul s y = r /\ pn (-200) 100 r /\ val r <= 2 ^ b * val y.
Proof.
  intros (ms & es & -> & Hms & Hes) (my & ey & -> & Hmy & Hey) Hb Hs.
  pose proof (size_bounds ms) as [Slo Shi]. rewrite Hms in Slo, Shi.
  pose proof (size_bounds my) as [Ylo Yhi]. rewrite Hmy in Ylo, Yhi.
  change (53 - 1) with 52 in *. simpl val in *.
  pose proof (pow2_pos (es + 1074) ltac:(lia)) as Pes.
  assert (Hesb : es <= b - 52).
  { assert (2 ^ (52 + (es + 1074)) <= 2 ^ (b + 1074)).
    { rewrite (pow2_split 52 (es + 1074)) by lia. nia. }
    destruct (Z.le_gt_cases es (b - 52)); auto.
    assert (2 ^ (b + 1074) < 2 ^ (52 + (es + 1074)))
      by (apply Z.pow_lt_mono_r; lia). lia. }
  assert (Hmsb : Zpos ms <= 2 ^ (b - es)).
  { replace (b + 1074) with ((b - es) + (es + 1074)) in Hs by lia.
    rewrite (pow2_split (b - es) (es + 1074)) in Hs by lia.
    apply Z.mul_le_mono_pos_r in Hs; lia. }
  pose proof (pow2_pos (b - es) ltac:(lia)) as Pbes.
  unfold mul, SFmul. simpl xorb.
  set (M := (ms * my)%positive).
  assert (HM : Zpos M = Zpos ms * Zpos my) by reflexivity.
  assert (HLlo : 105 <= Zpos (Pos.size M)).
  { apply (size_ge M 104). rewrite HM. change (2 ^ 104) with (2 ^ 52 * 2 ^ 52). nia. }
  assert (HLhi : Zpos (Pos.size M) <= b - es + 53).
  { apply size_le. rewrite HM, pow2_split by lia. nia. }
  set (n := Zpos (Pos.size M) - 53) in *.
  destruct (round_aux_val_le M (es + ey) (2 ^ b * (Zpos my * 2 ^ (ey + 1074)))
              (Zpos my * 2 ^ (b - es - n))) as (r & Hr & Hpn & Hval);
    try (fold n); try lia.
  - rewrite <- Z.mul_assoc, <- (pow2_split (b - es - n) (es + ey + n + 1074)) by lia.
    replace (b - es - n + (es + ey + n + 1074)) with (b + (ey + 1074)) by lia.
    rewrite (pow2_split b (ey + 1074)) by lia. ring.
  - rewrite HM.
    pose proof (pow2_pos (es + ey + 1074) ltac:(lia)) as PX.
    replace (2 ^ b * (Zpos my * 2 ^ (ey + 1074)))
      with (2 ^ (b - es) * Zpos my * 2 ^ (es + ey + 1074)).
    + apply Z.mul_le_mono_nonneg_r; [lia | nia].
    + rewrite <- (Z.mul_assoc (2 ^ (b - es))), (Z.mul_comm (Zpos my)), Z.mul_assoc.
      rewrite <- (pow2_split (b - es) (es + ey + 1074)) by lia.
      replace (b - es + (es + ey + 1074)) with (b + (ey + 1074)) by lia.
      rewrite (pow2_split b (ey + 1074)) by lia. ring.
  - exists r. split; [exact Hr|]. split; [|exact Hval].
    fold n in Hpn. eapply pn_weaken; [exact Hpn | lia | lia].
Qed.

Lemma half_val : pn (-53) (-53) half /\ val half = 2 ^ 1073.
Proof.
  split; [|reflexivity]. exists (2 ^ 52)%positive, (-53).
  repeat split; try reflexivity; lia.
Qed.

(** Adding one half to a value of at most [K] gives at most [K + 1/2]. *)
Lemma add_half_val_le (p : float64) (K : Z) :
  pn (-200) 100 p -> 0 <= K < 2 ^ 51 -> val p <= K * 2 ^ 1074 ->
  exists u, F64.add p half = u /\ pn (-260) 60 u /\
            val u <= K * 2 ^ 1074 + 2 ^ 1073.
Proof.
  intros (mp & ep & -> & Hmp & Hep) HK Hp.
  pose proof (size_bounds mp) as [Plo Phi]. rewrite Hmp in Plo, Phi.
  change (53 - 1) with 52 in *. simpl val in Hp.
  rewrite half_eq. unfold F64.add, SFadd. cbv [cond_Zopp].
  set (ez := Z.min ep (-53)).
  assert (Hez : ez <= ep /\ ez <= -53 /\ -200 <= ez) by (unfold ez; lia).
  rewrite !shl_align_val by lia.
  set (S := Zpos mp * 2 ^ (ep - ez) + Zpos (2 ^ 52) * 2 ^ (-53 - ez)).
  pose proof (pow2_pos (ep - ez) ltac:(lia)) as P1.
  pose proof (pow2_pos (-53 - ez) ltac:(lia)) as P2.
  pose proof (pow2_pos (ez + 1074) ltac:(lia)) as P3.
  assert (HSpos : 0 < S) by (unfold S; nia).
  (* the value of the sum *)
  assert (HSval : S * 2 ^ (ez + 1074) = Zpos mp * 2 ^ (ep + 1074) + 2 ^ 1073).
  { unfold S. rewrite Z.mul_add_distr_r, <- !Z.mul_assoc.
    rewrite <- (pow2_split (ep - ez) (ez + 1074)) by lia.
    rewrite <- (pow2_split (-53 - ez) (ez + 1074)) by lia.
    replace (ep - ez + (ez + 1074)) with (ep + 1074) by lia.
    replace (-53 - ez + (ez + 1074)) with 1021 by lia.
    change (Zpos (2 ^ 52) * 2 ^ 1021) with (2 ^ 1073). reflexivity. }
  destruct S as [|Sp|Sp] eqn:ES; try lia.
  simpl binary_normalize. unfold binary_round. rewrite digits2_pos_size.
  assert (HLlo : 53 <= Zpos (Pos.size Sp)).
  { apply (size_ge Sp 52). nia. }
  assert (HSlt : Zpos Sp < 2 ^ (52 - ez)).
  { apply (Z.mul_lt_mono_pos_r (2 ^ (ez + 1074)) _ _ P3).
    rewrite <- (pow2_split (52 - ez) (ez + 1074)) by lia.
    replace (52 - ez + (ez + 1074)) with 1126 by lia.
    apply Z.le_lt_trans with (Zpos mp * 2 ^ (ep + 1074) + 2 ^ 1073);
      [apply Z.eq_le_incl; exact HSval|].
    change (2 ^ 1126) with (2 ^ 52 * 2 ^ 1074).
    change (2 ^ 1074) with (2 * 2 ^ 1073) in *.
    change (2 ^ 52) with (2 * 2 ^ 51).
    assert (0 < 2 ^ 1073) by (apply pow2_pos; lia). nia. }
  assert (HLhi : Zpos (Pos.size Sp) <= 52 - ez) by (now apply size_le).
  set (n := Zpos (Pos.size Sp) - 53) in *.
  rewrite fexp_normal by (unfold emin, prec, emax; lia).
  assert (Hal : shl_align Sp ez (Zpos (Pos.size Sp) + ez - prec) = (Sp, ez)).
  { unfold shl_align.
    destruct (Zpos (Pos.size Sp) + ez - prec - ez) eqn:Hd; try reflexivity.
    unfold prec in Hd. lia. }
  rewrite Hal.
  destruct (round_aux_val_le Sp ez (K * 2 ^ 1074 + 2 ^ 1073)
              ((2 * K + 1) * 2 ^ (-1 - ez - n))) as (r & Hr & Hpn & Hval);
    try (fold n); try lia.
  - rewrite <- Z.mul_assoc, <- (pow2_split (-1 - ez - n) (ez + n + 1074)) by lia.
    replace (-1 - ez - n + (ez + n + 1074)) with 1073 by lia.
    change (2 ^ 1074) with (2 * 2 ^ 1073). ring.
  - exists r. split; [exact Hr|]. split; [|exact Hval].
    fold n in Hpn. eapply pn_weaken; [exact Hpn | lia | lia].
Qed.

(** [floor] of a value of at most [K + 1/2] is an integer of at most [K]. *)
Lemma floor_val_le (u : float64) (K : Z) :
  pn (-1074) 971 u -> 0 <= K < 2 ^ 52 ->
  val u <= K * 2 ^ 1074 + 2 ^ 1073 ->
  exists kb, 0 <= kb <= K /\ floor u = of_int kb.
Proof.
  intros (mu & eu & -> & Hmu & Heu) HK Hu.
  pose proof (size_bounds mu) as [Ulo Uhi]. rewrite Hmu in Ulo, Uhi.
  change (53 - 1) with 52 in *. simpl val in Hu.
  pose proof (pow2_pos (eu + 1074) ltac:(lia)) as P1.
  assert (P1073 : 0 < 2 ^ 1073) by (apply pow2_pos; lia).
  assert (Heu0 : eu < 0).
  { destruct (Z.lt_ge_cases eu 0) as [H|H]; auto; exfalso.
    assert (2 ^ 1074 <= 2 ^ (eu + 1074)) by (apply pow2_le; lia).
    change (2 ^ 1074) with (2 * 2 ^ 1073) in *. nia. }
  pose proof (pow2_pos (- eu) ltac:(lia)) as P2.
  unfold floor.
  replace (0 <=? eu) with false by (symmetry; apply Z.leb_gt; lia).
  cbv [cond_Zopp]. rewrite Z.shiftr_div_pow2 by lia.
  exists (Zpos mu / 2 ^ (- eu)). split; [|reflexivity].
  split; [apply Z.div_pos; lia|].
  assert (Hq : Zpos mu / 2 ^ (- eu) * 2 ^ (- eu) <= Zpos mu).
  { pose proof (Z.div_mod (Zpos mu) (2 ^ (- eu)) ltac:(lia)).
    pose proof (Z.mod_pos_bound (Zpos mu) (2 ^ (- eu)) P2). lia. }
  set (kb := Zpos mu / 2 ^ (- eu)) in *.
  assert (Hkb : kb * 2 ^ 1074 <= Zpos mu * 2 ^ (eu + 1074)).
  { replace 1074 with (- eu + (eu + 1074)) at 1 by lia.
    rewrite pow2_split by lia. rewrite Z.mul_assoc.
    apply Z.mul_le_mono_nonneg_r; lia. }
  change (2 ^ 1074) with (2 * 2 ^ 1073) in *. nia.
Qed.

(** The band of a slope of value at most 2^b ends at most at 2^b times the
    distance. *)
Lemma band_le (s : float64) (b d : Z) :
  pn (-110) 10 s -> 0 <= b <= 1 -> val s <= 2 ^ (b + 1074) ->
  0 < d < 2 ^ 50 ->
  exists kb, 0 <= kb <= 2 ^ b * d /\ band s d = of_int kb.
Proof.
  intros Hs Hb Hv Hd.
  destruct (of_int_val d ltac:(lia)) as [Hy Hyv].
  destruct (mul_val_le s (of_int d) b Hs) as (r & Hr & Hrp & Hrv);
    [eapply pn_weaken; [exact Hy | lia | lia] | lia | exact Hv |].
  rewrite Hyv, Z.mul_assoc in Hrv.
  assert (HK : 0 <= 2 ^ b * d < 2 ^ 51).
  { assert (1 <= 2 ^ b <= 2).
    { split; [change 1 with (2 ^ 0); apply pow2_le; lia|].
      change 2 with (2 ^ 1) at 2. apply pow2_le; lia. }
    change (2 ^ 51) with (2 * 2 ^ 50). nia. }
  destruct (add_half_val_le r (2 ^ b * d) Hrp HK Hrv) as (u & Hu & Hup & Huv).
  destruct (floor_val_le u (2 ^ b * d)) as (kb & Hkb & Hfl);
    [eapply pn_weaken; [exact Hup | lia | lia] | lia | exact Huv |].
  exists kb. split; [exact Hkb|].
  unfold band. now rewrite Hr, Hu.
Qed.

(** ** The slopes *)

(** For an integer [k], [k + 1/2] and [k - 1/2] are computed exactly. *)
Lemma half_integer_exists (a : Z) :
  0 < a < 2 ^ 53 ->
  exists x, pn (-53) (-1) x /\ val x = a * 2 ^ 1073 /\
            forall s M, Zpos M = a * 2 ^ 52 ->
                        binary_round prec emax s M (-53) =
                        match x with
                        | S754_finite _ m e => S754_finite s m e
                        | _ => x
                        end.
Proof.
  intros Ha.
  destruct (int_float_exists a ltac:(lia)) as (m & e & Hm & He & Hv).
  pose proof (size_bounds m) as [Mlo Mhi]. rewrite Hm in Mlo, Mhi.
  change (53 - 1) with 52 in Mlo.
  assert (He0 : e <= 0).
  { destruct (Z.le_gt_cases e 0) as [H|H]; auto; exfalso.
    assert (e = 1) by lia. subst e.
    change (2 ^ (1 + 52)) with (2 * 2 ^ 52) in Hv. nia. }
  exists (S754_finite false m (e - 1)). split; [|split].
  - exists m, (e - 1). repeat split; lia || assumption.
  - simpl val. replace (e - 1 + 1074) with ((e + 52) + 1021) by lia.
    rewrite pow2_split by lia. rewrite Z.mul_assoc, Hv.
    change (2 ^ 1073) with (2 ^ 52 * 2 ^ 1021). ring.
  - intros s M HM. apply round_exact; [exact Hm | lia |].
    rewrite Z.min_l by lia. rewrite Z.sub_diag, Z.mul_1_r, HM, <- Hv.
    f_equal. f_equal. lia.
Qed.

Lemma add_half_val (k : Z) :
  0 <= k < 2 ^ 52 ->
  pn (-53) (-1) (F64.add (of_int k) half) /\
  val (F64.add (of_int k) half) = (2 * k + 1) * 2 ^ 1073.
Proof.
  intros Hk. destruct (Z.eq_dec k 0) as [->|Hne].
  { split; [|reflexivity]. exists (2 ^ 52)%positive, (-53).
    repeat split; try reflexivity; lia. }
  destruct (of_int_int_float k ltac:(lia)) as (m & e & -> & Hm & He & Hv).
  pose proof (size_bounds m) as [Mlo Mhi]. rewrite Hm in Mlo, Mhi.
  change (53 - 1) with 52 in Mlo.
  assert (He0 : e < 0).
  { destruct (Z.lt_ge_cases e 0) as [H|H]; auto; exfalso.
    assert (2 ^ 52 <= 2 ^ (e + 52)) by (apply pow2_le; lia). nia. }
  destruct (half_integer_exists (2 * k + 1)) as (x & Hx & Hxv & Hround).
  { change (2 ^ 53) with (2 * 2 ^ 52). lia. }
  rewrite half_eq. unfold F64.add, SFadd.
  rewrite Z.min_r by lia. cbv [cond_Zopp].
  rewrite !shl_align_val by lia. rewrite Z.sub_diag, Z.mul_1_r.
  replace (e - -53) with (1 + (e + 52)) by lia.
  rewrite (pow2_split 1 (e + 52)) by lia. change (2 ^ 1) with 2.
  assert (HS : Zpos m * (2 * 2 ^ (e + 52)) + Zpos (2 ^ 52) =
               (2 * k + 1) * 2 ^ 52).
  { change (Zpos (2 ^ 52)) with (2 ^ 52). nia. }
  rewrite HS.
  assert (Hpos : 0 < (2 * k + 1) * 2 ^ 52) by lia.
  destruct ((2 * k + 1) * 2 ^ 52) as [|M|M] eqn:HM; try lia.
  simpl binary_normalize. rewrite (Hround false M eq_refl).
  destruct Hx as (mx & ex & -> & Hmx & Hex).
  split; [|exact Hxv]. exists mx, ex. repeat split; lia || assumption.
Qed.

Lemma sub_half_val (k : Z) :
  0 < k < 2 ^ 52 ->
  pn (-53) (-1) (sub (of_int k) half) /\
  val (sub (of_int k) half) = (2 * k - 1) * 2 ^ 1073.
Proof.
  intros Hk.
  destruct (of_int_int_float k ltac:(lia)) as (m & e & -> & Hm & He & Hv).
  pose proof (size_bounds m) as [Mlo Mhi]. rewrite Hm in Mlo, Mhi.
  change (53 - 1) with 52 in Mlo.
  assert (He0 : e < 0).
  { destruct (Z.lt_ge_cases e 0) as [H|H]; auto; exfalso.
    assert (2 ^ 52 <= 2 ^ (e + 52)) by (apply pow2_le; lia). nia. }
  destruct (half_integer_exists (2 * k - 1)) as (x & Hx & Hxv & Hround).
  { change (2 ^ 53) with (2 * 2 ^ 52). lia. }
  rewrite half_eq. unfold sub, SFsub.
  rewrite Z.min_r by lia. cbv [cond_Zopp].
  rewrite !shl_align_val by lia. rewrite Z.sub_diag, Z.mul_1_r.
  replace (e - -53) with (1 + (e + 52)) by lia.
  rewrite (pow2_split 1 (e + 52)) by lia. change (2 ^ 1) with 2.
  assert (HS : Zpos m * (2 * 2 ^ (e + 52)) - Zpos (2 ^ 52) =
               (2 * k - 1) * 2 ^ 52).
  { change (Zpos (2 ^ 52)) with (2 ^ 52). nia. }
  rewrite HS.
  assert (Hpos : 0 < (2 * k - 1) * 2 ^ 52) by lia.
  destruct ((2 * k - 1) * 2 ^ 52) as [|M|M] eqn:HM; try lia.
  simpl binary_normalize. rewrite (Hround false M eq_refl).
  destruct Hx as (mx & ex & -> & Hmx & Hex).
  split; [|exact Hxv]. exists mx, ex. repeat split; lia || assumption.
Qed.

(** A quotient whose exact value is below 2^b is at most 2^b. *)
Lemma div_val_lt (x y : float64) (b : Z) :
  pn (-53) (-1) x -> pn (-52) (-1) y -> 0 <= b <= 1 ->
  val x < 2 ^ b * val y ->
  exists r, div x y = r /\ pn (-110) 10 r /\ val r <= 2 ^ (b + 1074).
Proof.
  intros (mx & ex & -> & Hmx & Hex) (my & ey & -> & Hmy & Hey) Hb Hxy.
  pose proof (size_bounds mx) as [Xlo Xhi]. rewrite Hmx in Xlo, Xhi.
  pose proof (size_bounds my) as [Ylo Yhi]. rewrite Hmy in Ylo, Yhi.
  change (53 - 1) with 52 in *. simpl val in Hxy.
  pose proof (pow2_pos (ex + 1074) ltac:(lia)) as Pex.
  pose proof (pow2_pos (ey + 1074) ltac:(lia)) as Pey.
  pose proof (pow2_pos b ltac:(lia)) as Pb.
  set (t := b + ey - ex).
  assert (Ht : 0 <= t).
  { destruct (Z.le_gt_cases 0 t) as [H|H]; auto; exfalso.
    assert (Hle : b + (ey + 1074) + 1 <= ex + 1074) by (unfold t in H; lia).
    assert (2 ^ (b + (ey + 1074) + 1) <= 2 ^ (ex + 1074))
      by (apply pow2_le; lia).
    rewrite (pow2_split (b + (ey + 1074)) 1) in H0 by lia.
    rewrite (pow2_split b (ey + 1074)) in H0 by lia.
    change (2 ^ 1) with 2 in H0.
    change (2 ^ 53) with (2 * 2 ^ 52) in Yhi.
    assert (2 ^ b * (Zpos my * 2 ^ (ey + 1074)) <
            2 ^ b * (2 * 2 ^ 52 * 2 ^ (ey + 1074))).
    { apply Z.mul_lt_mono_pos_l; [lia|].
      apply Z.mul_lt_mono_pos_r; lia. }
    assert (2 ^ 52 * 2 ^ (ex + 1074) <= Zpos mx * 2 ^ (ex + 1074))
      by (apply Z.mul_le_mono_nonneg_r; lia).
    assert (2 ^ 52 * (2 ^ b * 2 ^ (ey + 1074) * 2) <= 2 ^ 52 * 2 ^ (ex + 1074))
      by (apply Z.mul_le_mono_nonneg_l; lia).
    lia. }
  pose proof (pow2_pos t Ht) as Pt.
  assert (Hmxy : Zpos mx < Zpos my * 2 ^ t).
  { apply (Z.mul_lt_mono_pos_r (2 ^ (ex + 1074)) _ _ Pex).
    rewrite <- Z.mul_assoc, <- (pow2_split t (ex + 1074)) by lia.
    replace (t + (ex + 1074)) with (b + (ey + 1074)) by (unfold t; lia).
    rewrite (pow2_split b (ey + 1074)) by lia. lia. }
  unfold div, SFdiv, SFdiv_core_binary. simpl xorb.
  simpl Zdigits2.
  rewrite (digits2_pos_size mx), (digits2_pos_size my), Hmx, Hmy.
  replace (53 + ex - (53 + ey)) with (ex - ey) by lia.
  rewrite fexp_normal by (unfold emin, prec, emax; lia).
  rewrite Z.min_l by (unfold prec; lia).
  replace (ex - ey - (ex - ey - prec)) with 53 by (unfold prec; lia).
  rewrite Z.shiftl_mul_pow2 by lia.
  set (e' := ex - ey - prec).
  assert (He' : e' = ex - ey - 53) by reflexivity.
  pose proof (Z_div_mod (Zpos mx * 2 ^ 53) (Zpos my) ltac:(lia)) as Hdm.
  destruct (Z.div_eucl (Zpos mx * 2 ^ 53) (Zpos my)) as [q0 r0].
  destruct Hdm as [Hdm Hr0].
  assert (Hq0lo : 2 ^ 52 <= q0).
  { change (2 ^ 53) with (2 * 2 ^ 52) in *. nia. }
  assert (Hq0hi : q0 < 2 ^ (t + 53)).
  { rewrite (pow2_split t 53) by lia. nia. }
  destruct q0 as [|Q|Q] eqn:EQ; try lia.
  assert (HLlo : 53 <= Zpos (Pos.size Q)) by (apply (size_ge Q 52); lia).
  assert (HLhi : Zpos (Pos.size Q) <= t + 53) by (now apply size_le).
  set (n := Zpos (Pos.size Q) - 53) in *.
  destruct (round_aux_val_lt Q e' (2 ^ (b + 1074)) (2 ^ (b - e' - n))
              (new_location (Zpos my) r0)) as (r & Hr & Hpn & Hval);
    try (fold n); try lia.
  - rewrite <- (pow2_split (b - e' - n) (e' + n + 1074)) by (unfold t in *; lia).
    f_equal. lia.
  - replace (b + 1074) with ((t + 53) + (e' + 1074)) by (unfold t; lia).
    rewrite (pow2_split (t + 53) (e' + 1074)) by lia.
    apply Z.mul_lt_mono_pos_r; [apply pow2_pos; lia | lia].
  - exists r. split; [exact Hr|]. split; [|exact Hval].
    fold n in Hpn. eapply pn_weaken; [exact Hpn | lia | unfold t in *; lia].
Qed.

(** * A scan that never ends *)






Section Stall.

Variables px py oct : Z.










End Stall.


(** * Termination of the scan *)



Lemma finishes_bind_post {A B} (m : M A) (k : A -> M B) (Q : A -> Prop) :
  finishes m -> keeps (fun _ => True) m Q -> (forall a, Q a -> finishes (k a)) ->
  finishes (bind m k).
Proof.
  intros Hm Hq Hk s. unfold bind. destruct (Hm s) as (s' & a & E).
  destruct (Hq s I) as [_ Hpost]. rewrite E in *. apply Hk, Hpost. reflexivity.
Qed.






Section Termination.

Variable R : Z.
Hypothesis R_small : R < 2 ^ 52.

Hypothesis hi_band : forall s d, hi_slope R s -> 1 <= d <= R ->
  exists kh, 0 <= kh <= d /\ band s d = of_int kh.
Hypothesis lo_band : forall s d, lo_slope R s -> 1 <= d <= R ->
  exists kl, 0 <= kl <= 2 ^ 53 /\ band s d = of_int kl.

Variable grid : GridMap.
Variables px py oct rad : Z.
Hypothesis rad_le : rad <= R.



End Termination.

Lemma hi_band_all (R : Z) :
  R < 2 ^ 50 ->
  forall s d, hi_slope R s -> 1 <= d <= R ->
    exists kh, 0 <= kh <= d /\ band s d = of_int kh.
Proof.
  intros HR s d Hs Hd.
  assert (Hgen : pn (-110) 10 s /\ val s <= 2 ^ (0 + 1074)).
  { destruct Hs as [->|(k & d' & Hk & Hd' & ->)].
    - destruct one_val as [Hp Hv]. split; [|rewrite Hv; reflexivity].
      eapply pn_weaken; [exact Hp | lia | lia].
    - destruct (sub_half_val k ltac:(lia)) as [Hx Hxv].
      destruct (of_int_val d' ltac:(lia)) as [Hy Hyv].
      destruct (div_val_lt (sub (of_int k) half) (of_int d') 0 Hx Hy ltac:(lia))
        as (r & Hr & Hrp & Hrv).
      { rewrite Hxv, Hyv. change (2 ^ 1074) with (2 * 2 ^ 1073).
        assert (0 < 2 ^ 1073) by (apply pow2_pos; lia).
        change (2 ^ 0) with 1. nia. }
      unfold slope_hi. rewrite Hr. split; assumption. }
  destruct Hgen as [Hp Hv].
  destruct (band_le s 0 d Hp ltac:(lia) Hv ltac:(lia)) as (kb & Hkb & Hband).
  exists kb. split; [|exact Hband]. change (2 ^ 0) with 1 in Hkb. lia.
Qed.

Lemma lo_band_all (R : Z) :
  R < 2 ^ 50 ->
  forall s d, lo_slope R s -> 1 <= d <= R ->
    exists kl, 0 <= kl <= 2 ^ 53 /\ band s d = of_int kl.
Proof.
  intros HR s d Hs Hd.
  destruct Hs as [->|(k & d' & Hk & Hd' & ->)].
  - exists 0. split; [lia|]. unfold band. rewrite band_zero by lia. reflexivity.
  - destruct (add_half_val k ltac:(lia)) as [Hx Hxv].
    destruct (of_int_val d' ltac:(lia)) as [Hy Hyv].
    destruct (div_val_lt (F64.add (of_int k) half) (of_int d') 1 Hx Hy ltac:(lia))
      as (r & Hr & Hrp & Hrv).
    { rewrite Hxv, Hyv. change (2 ^ 1074) with (2 * 2 ^ 1073).
      assert (0 < 2 ^ 1073) by (apply pow2_pos; lia).
      change (2 ^ 1) with 2. nia. }
    unfold slope_lo. rewrite Hr.
    destruct (band_le r 1 d Hrp ltac:(lia) Hrv ltac:(lia))
      as (kb & Hkb & Hband).
    exists kb. split; [|exact Hband].
    change (2 ^ 1) with 2 in Hkb. change (2 ^ 53) with (8 * 2 ^ 50). lia.
Qed.



(** * The distance metric *)

(** ** More machine arithmetic *)

Lemma wrap_in_range (z : Z) : Int.in_range (Int.wrap z).
Proof.
  unfold Int.in_range, Int.min_int, Int.max_int, Int.wrap.
  pose proof (Z.mod_pos_bound (z + 2 ^ 63) (2 ^ 64) ltac:(lia)). lia.
Qed.

Lemma wrap_eqm (z : Z) : exists q, Int.wrap z = z + q * 2 ^ 64.
Proof.
  exists (- ((z + 2 ^ 63) / 2 ^ 64)). unfold Int.wrap.
  rewrite Z.mod_eq by lia. lia.
Qed.

Lemma wrap_unique (z a q : Z) :
  Int.in_range a -> a = z + q * 2 ^ 64 -> Int.wrap z = a.
Proof.
  intros Ha E. destruct (wrap_eqm z) as [q' Eq].
  pose proof (wrap_in_range z) as Hr.
  unfold Int.in_range, Int.min_int, Int.max_int in *. lia.
Qed.

Lemma wrap_add_l (a b : Z) : Int.wrap (Int.wrap a + b) = Int.wrap (a + b).
Proof.
  destruct (wrap_eqm a) as [q Eq]. destruct (wrap_eqm (a + b)) as [q' Eq'].
  apply (wrap_unique _ _ (q' - q)); [apply wrap_in_range | lia].
Qed.

Lemma wrap_add_r (a b : Z) : Int.wrap (a + Int.wrap b) = Int.wrap (a + b).
Proof. rewrite Z.add_comm, wrap_add_l. f_equal. lia. Qed.

Lemma wrap_opp (a : Z) : Int.wrap (- Int.wrap a) = Int.wrap (- a).
Proof.
  destruct (wrap_eqm a) as [q Eq]. destruct (wrap_eqm (- a)) as [q' Eq'].
  apply (wrap_unique _ _ (q' + q)); [apply wrap_in_range | lia].
Qed.

Lemma wrap_sub_r (a b : Z) : Int.wrap (a - Int.wrap b) = Int.wrap (a - b).
Proof.
  destruct (wrap_eqm b) as [q Eq]. destruct (wrap_eqm (a - b)) as [q' Eq'].
  apply (wrap_unique _ _ (q' + q)); [apply wrap_in_range | lia].
Qed.

(** The negation of a machine integer is its opposite, except for the least
    one, which is its own negation. *)
Lemma neg_cases (z : Z) :
  Int.in_range z ->
  (z = Int.min_int /\ Int.neg z = z) \/ (Int.neg z = - z).
Proof.
  intros Hz. unfold Int.neg.
  destruct (Z.eq_dec z Int.min_int) as [->|Hne].
  - left. split; reflexivity.
  - right. apply wrap_small.
    unfold Int.in_range, Int.min_int, Int.max_int in *. lia.
Qed.

(** ** Squares and sums of floats *)

Lemma binary_round_sign (m : positive) (e : Z) :
  binary_round prec emax true m e = SFopp (binary_round prec emax false m e).
Proof.
  unfold binary_round. destruct (shl_align m e _) as [mz ez].
  unfold binary_round_aux.
  destruct (shr_fexp prec emax (Z.pos mz) ez loc_Exact) as [mrs e1].
  destruct (shr_fexp prec emax _ e1 loc_Exact) as [mrs2 e2].
  destruct (shr_m mrs2); try reflexivity.
  destruct (e2 <=? emax - prec); reflexivity.
Qed.

Lemma SFopp_involutive (x : float64) : SFopp (SFopp x) = x.
Proof. destruct x as [s|s| |s m e]; simpl; now rewrite ?negb_involutive. Qed.

Lemma of_int_opp (z : Z) : of_int (- z) = SFopp (of_int z) \/ z = 0.
Proof.
  destruct z as [|p|p]; [now right | left | left].
  - apply binary_round_sign.
  - change (binary_round prec emax false p 0 =
            SFopp (binary_round prec emax true p 0)).
    now rewrite binary_round_sign, SFopp_involutive.
Qed.

Lemma pow2_opp (x : float64) : pow2 (SFopp x) = pow2 x.
Proof.
  unfold pow2, mul, SFmul.
  destruct x as [s|s| |s m e]; simpl; try reflexivity;
    now destruct s.
Qed.

Lemma pow2_of_int_neg (z : Z) :
  Int.in_range z -> pow2 (of_int (Int.neg z)) = pow2 (of_int z).
Proof.
  intros Hz. destruct (neg_cases z Hz) as [[_ E]|E]; rewrite E; [reflexivity|].
  destruct (of_int_opp z) as [E'|E']; rewrite E'; [apply pow2_opp | reflexivity].
Qed.

Lemma add_comm (x y : float64) : F64.add x y = F64.add y x.
Proof.
  unfold F64.add, SFadd.
  destruct x as [sx|sx| |sx mx ex], y as [sy|sy| |sy my ey]; try reflexivity.
  - destruct sx, sy; reflexivity.
  - destruct sx, sy; reflexivity.
  - rewrite (Z.min_comm ey ex). f_equal. apply Z.add_comm.
Qed.

(** ** Symmetries of the distance *)

Lemma sub_neg (a b : Z) : Int.sub b a = Int.neg (Int.sub a b).
Proof.
  unfold Int.sub, Int.neg. rewrite wrap_opp. f_equal. lia.
Qed.

Lemma distTo_swap (x1 y1 x2 y2 : Z) : distTo x1 y1 x2 y2 = distTo x2 y2 x1 y1.
Proof.
  unfold distTo.
  rewrite (sub_neg x1 x2), (sub_neg y1 y2).
  now rewrite !pow2_of_int_neg by apply wrap_in_range.
Qed.

Lemma distTo_transpose (x1 y1 x2 y2 : Z) :
  distTo x1 y1 x2 y2 = distTo y1 x1 y2 x2.
Proof. unfold distTo. now rewrite add_comm. Qed.

Lemma distTo_offset (px py x y : Z) :
  distTo px py x y = distTo 0 0 (Int.sub x px) (Int.sub y py).
Proof.
  unfold distTo.
  replace (Int.sub 0 (Int.sub x px)) with (Int.sub px x).
  2:{ unfold Int.sub. rewrite wrap_sub_r. f_equal. lia. }
  replace (Int.sub 0 (Int.sub y py)) with (Int.sub py y).
  2:{ unfold Int.sub. rewrite wrap_sub_r. f_equal. lia. }
  reflexivity.
Qed.

Lemma distTo_neg_l (a b : Z) :
  Int.in_range a -> distTo 0 0 (Int.neg a) b = distTo 0 0 a b.
Proof.
  intros Ha. unfold distTo.
  replace (Int.sub 0 (Int.neg a)) with (Int.neg (Int.sub 0 a)).
  2:{ unfold Int.sub, Int.neg. rewrite wrap_opp, wrap_sub_r. f_equal. }
  now rewrite pow2_of_int_neg by apply wrap_in_range.
Qed.

Lemma distTo_neg_r (a b : Z) :
  Int.in_range b -> distTo 0 0 a (Int.neg b) = distTo 0 0 a b.
Proof.
  intros Hb. rewrite distTo_transpose, distTo_neg_l by exact Hb.
  apply distTo_transpose.
Qed.

Lemma sub_add_cancel (p a : Z) : Int.in_range a -> Int.sub (Int.add p a) p = a.
Proof.
  intros Ha. unfold Int.sub, Int.add.
  replace (Int.wrap (p + a) - p) with (Int.wrap (p + a) + (- p)) by lia.
  rewrite wrap_add_l. replace (p + a + - p) with a by lia.
  now apply wrap_small.
Qed.

Lemma neg_in_range (a : Z) : Int.in_range (Int.neg a).
Proof. apply wrap_in_range. Qed.

(** The distance from the observer to the cell that [distHeightXY] gives
    depends on the distance and the height of the scan alone. *)
Lemma distTo_distHeightXY (px py d h oct : Z) :
  Int.in_range d -> Int.in_range h ->
  distTo px py (distHeightXY px py d h oct).1 (distHeightXY px py d h oct).2 =
  distTo 0 0 d h.
Proof.
  intros Hd Hh. rewrite distTo_offset. unfold distHeightXY.
  destruct (Z.land oct 1 >? 0), (Z.land oct 2 >? 0), (Z.land oct 4 >? 0);
    cbn [fst snd]; rewrite !sub_add_cancel by
      first [assumption | apply neg_in_range];
    rewrite ?distTo_neg_l, ?distTo_neg_r by
      first [assumption | apply neg_in_range];
    rewrite ?distTo_neg_l, ?distTo_neg_r by
      first [assumption | apply neg_in_range];
    first [reflexivity | apply distTo_transpose].
Qed.

(** ** No cell is scanned twice in an octant *)

Lemma add_cancel (p a b : Z) :
  Int.in_range a -> Int.in_range b -> Int.add p a = Int.add p b -> a = b.
Proof.
  intros Ha Hb E. unfold Int.add in E.
  destruct (wrap_eqm (p + a)) as [q Eq]. destruct (wrap_eqm (p + b)) as [q' Eq'].
  unfold Int.in_range, Int.min_int, Int.max_int in *. lia.
Qed.

Lemma neg_cancel (a b : Z) :
  Int.in_range a -> Int.in_range b -> Int.neg a = Int.neg b -> a = b.
Proof.
  intros Ha Hb E. unfold Int.neg in E.
  destruct (wrap_eqm (- a)) as [q Eq]. destruct (wrap_eqm (- b)) as [q' Eq'].
  unfold Int.in_range, Int.min_int, Int.max_int in *. lia.
Qed.

Lemma distHeightXY_inj (px py d h d' h' oct : Z) :
  Int.in_range d -> Int.in_range h -> Int.in_range d' -> Int.in_range h' ->
  distHeightXY px py d h oct = distHeightXY px py d' h' oct ->
  d = d' /\ h = h'.
Proof.
  intros Hd Hh Hd' Hh'. unfold distHeightXY.
  destruct (Z.land oct 1 >? 0), (Z.land oct 2 >? 0), (Z.land oct 4 >? 0);
    intros [= E1 E2];
    apply add_cancel in E1; try apply neg_in_range; try assumption;
    apply add_cancel in E2; try apply neg_in_range; try assumption;
    try apply neg_cancel in E1; try apply neg_cancel in E2;
    try assumption; auto.
Qed.

(** ** Exact integer arithmetic in [float64] *)

Lemma int_float_pos (k : Z) (x : float64) : int_float k x -> 0 < k.
Proof.
  intros (m & e & -> & Hm & He & Hv).
  assert (0 < 2 ^ (e + 52)) by (apply pow2_pos; lia).
  assert (0 < 2 ^ 52) by (apply pow2_pos; lia). nia.
Qed.

Lemma to_int_int_float (k : Z) (x : float64) :
  int_float k x -> k <= 2 ^ 53 -> to_int x = k.
Proof.
  intros Hx Hk. pose proof (int_float_pos k x Hx) as Hpos.
  destruct Hx as (m & e & -> & Hm & He & Hv).
  assert (Hmag : (if 0 <=? e then Z.shiftl (Zpos m) e
                  else Z.shiftr (Zpos m) (- e)) = k).
  { destruct (Z.leb_spec 0 e) as [H0|H0].
    - rewrite Z.shiftl_mul_pow2 by lia.
      rewrite Z.pow_add_r in Hv by lia.
      assert (0 < 2 ^ 52) by (apply pow2_pos; lia). nia.
    - rewrite Z.shiftr_div_pow2 by lia.
      assert (E : 2 ^ (- e) * 2 ^ (e + 52) = 2 ^ 52)
        by (rewrite <- Z.pow_add_r by lia; f_equal; lia).
      assert (0 < 2 ^ (e + 52)) by (apply pow2_pos; lia).
      assert (0 < 2 ^ (- e)) by (apply pow2_pos; lia).
      assert (Em : Zpos m = k * 2 ^ (- e)) by nia.
      rewrite Em. apply Z.div_mul. lia. }
  unfold to_int. rewrite Hmag. cbv [cond_Zopp].
  replace (Int.min_int <=? k) with true
    by (symmetry; apply Z.leb_le; unfold Int.min_int; lia).
  replace (k <=? Int.max_int) with true
    by (symmetry; apply Z.leb_le; unfold Int.max_int; lia).
  reflexivity.
Qed.

Lemma to_int_of_int (k : Z) : 0 <= k <= 2 ^ 53 -> to_int (of_int k) = k.
Proof.
  intros Hk. destruct (Z.eq_dec k 0) as [->|Hne]; [reflexivity|].
  apply to_int_int_float; [apply of_int_int_float|]; lia.
Qed.

Lemma mul_int_float (a b : Z) (x y : float64) :
  int_float a x -> int_float b y -> a * b <= 2 ^ 53 ->
  int_float (a * b) (mul x y).
Proof.
  intros Hx Hy Hab.
  pose proof (int_float_pos a x Hx) as Ha.
  pose proof (int_float_pos b y Hy) as Hb.
  destruct Hx as (ma & ea & -> & Hma & Hea & Hva).
  destruct Hy as (mb & eb & -> & Hmb & Heb & Hvb).
  destruct (int_float_exists (a * b) ltac:(nia)) as (P & e' & HP & He' & HvP).
  exists P, e'. repeat split; try assumption; try lia.
  pose proof (size_bounds ma) as [Alo Ahi]. rewrite Hma in Alo, Ahi.
  pose proof (size_bounds mb) as [Blo Bhi]. rewrite Hmb in Blo, Bhi.
  pose proof (size_bounds P) as [Plo Phi]. rewrite HP in Plo, Phi.
  change (53 - 1) with 52 in *.
  set (A := 2 ^ (ea + 52)) in *. set (B := 2 ^ (eb + 52)) in *.
  set (C := 2 ^ (e' + 52)) in *.
  assert (HA : 0 < A) by (apply pow2_pos; lia).
  assert (HB : 0 < B) by (apply pow2_pos; lia).
  assert (HC : 0 < C) by (apply pow2_pos; lia).
  assert (H52 : 0 < 2 ^ 52) by (apply pow2_pos; lia).
  assert (Hprod : Zpos ma * Zpos mb * (A * B) = Zpos P * (C * 2 ^ 52)).
  { transitivity ((Zpos ma * A) * (Zpos mb * B)); [ring|].
    rewrite Hva, Hvb.
    transitivity (a * b * 2 ^ 52 * 2 ^ 52); [ring|].
    rewrite <- HvP. ring. }
  assert (Hn : 0 <= e' - (ea + eb)).
  { destruct (Z.le_gt_cases 0 (e' - (ea + eb))) as [H|H]; [exact H|exfalso].
    assert (E : A * B = C * 2 ^ 52 * 2 ^ (ea + eb - e')).
    { unfold A, B, C. rewrite <- !Z.pow_add_r by lia. f_equal. lia. }
    assert (1 <= 2 ^ (ea + eb - e')) by (pose proof (pow2_pos (ea + eb - e')); lia).
    rewrite E in Hprod.
    assert (Zpos ma * Zpos mb * 2 ^ (ea + eb - e') = Zpos P).
    { apply Z.mul_reg_r with (C * 2 ^ 52); [lia|].
      rewrite <- Hprod. ring. }
    assert (2 ^ 52 * 2 ^ 52 <= Zpos ma * Zpos mb) by nia.
    change (2 ^ 53) with (2 * 2 ^ 52) in Phi. nia. }
  assert (E : C * 2 ^ 52 = A * B * 2 ^ (e' - (ea + eb))).
  { unfold A, B, C. rewrite <- !Z.pow_add_r by lia. f_equal. lia. }
  assert (Em : Zpos (ma * mb) = Zpos P * 2 ^ (e' - (ea + eb))).
  { rewrite Pos2Z.inj_mul. apply Z.mul_reg_r with (A * B); [lia|].
    rewrite Hprod, E. ring. }
  unfold mul, SFmul. simpl xorb. rewrite Em.
  replace e' with (ea + eb + (e' - (ea + eb))) at 2 by lia.
  apply round_aux_exact; [exact HP | exact Hn | lia].
Qed.

Lemma scale_cancel (M P E E' : Z) :
  -52 <= E -> -52 <= E' ->
  M * 2 ^ (E + 52) = P * 2 ^ (E' + 52) ->
  M * 2 ^ (E - Z.min E E') = P * 2 ^ (E' - Z.min E E').
Proof.
  intros HE HE' H.
  assert (H1 : 2 ^ (E + 52) = 2 ^ (E - Z.min E E') * 2 ^ (Z.min E E' + 52))
    by (rewrite <- Z.pow_add_r by lia; f_equal; lia).
  assert (H2 : 2 ^ (E' + 52) = 2 ^ (E' - Z.min E E') * 2 ^ (Z.min E E' + 52))
    by (rewrite <- Z.pow_add_r by lia; f_equal; lia).
  assert (0 < 2 ^ (Z.min E E' + 52)) by (apply pow2_pos; lia).
  apply Z.mul_reg_r with (2 ^ (Z.min E E' + 52)); [lia|].
  rewrite <- !Z.mul_assoc, <- H1, <- H2. exact H.
Qed.

Lemma add_int_float (a b : Z) (x y : float64) :
  int_float a x -> int_float b y -> a + b <= 2 ^ 53 ->
  int_float (a + b) (F64.add x y).
Proof.
  intros Hx Hy Hab.
  pose proof (int_float_pos a x Hx) as Ha.
  pose proof (int_float_pos b y Hy) as Hb.
  destruct Hx as (ma & ea & -> & Hma & Hea & Hva).
  destruct Hy as (mb & eb & -> & Hmb & Heb & Hvb).
  destruct (int_float_exists (a + b) ltac:(lia)) as (P & e' & HP & He' & HvP).
  exists P, e'. repeat split; try assumption; try lia.
  unfold F64.add, SFadd. cbv [cond_Zopp].
  rewrite !shl_align_val by lia.
  set (ez := Z.min ea eb).
  assert (Hsum : (Zpos ma * 2 ^ (ea - ez) + Zpos mb * 2 ^ (eb - ez)) *
                 2 ^ (ez + 52) = Zpos P * 2 ^ (e' + 52)).
  { rewrite HvP, Z.mul_add_distr_r, <- !Z.mul_assoc, <- !Z.pow_add_r by lia.
    replace (ea - ez + (ez + 52)) with (ea + 52) by lia.
    replace (eb - ez + (ez + 52)) with (eb + 52) by lia.
    rewrite Hva, Hvb. ring. }
  assert (Hpos : 0 < Zpos ma * 2 ^ (ea - ez) + Zpos mb * 2 ^ (eb - ez)).
  { assert (0 < 2 ^ (ea - ez)) by (apply pow2_pos; lia).
    assert (0 < 2 ^ (eb - ez)) by (apply pow2_pos; lia). nia. }
  destruct (Zpos ma * 2 ^ (ea - ez) + Zpos mb * 2 ^ (eb - ez))
    as [|M|M] eqn:HM; try lia.
  simpl binary_normalize. apply round_exact; [exact HP | lia |].
  apply scale_cancel; [lia | lia | exact Hsum].
Qed.

Lemma pow2_of_int (z : Z) :
  Z.abs z <= 2 ^ 26 -> pow2 (of_int z) = of_int (z * z).
Proof.
  intros Hz.
  assert (Hpos : forall a, 0 < a <= 2 ^ 26 -> pow2 (of_int a) = of_int (a * a)).
  { intros a Ha. symmetry. apply of_int_of_int_float.
    - change (2 ^ 53) with (2 * (2 ^ 26 * 2 ^ 26)). nia.
    - apply mul_int_float; try (apply of_int_int_float; lia).
      change (2 ^ 53) with (2 * (2 ^ 26 * 2 ^ 26)). nia. }
  destruct (Z.lt_trichotomy z 0) as [H|[->|H]].
  - replace z with (- (- z)) at 1 by lia.
    destruct (of_int_opp (- z)) as [E|E]; [|lia].
    rewrite E, pow2_opp, Hpos by lia. f_equal. lia.
  - reflexivity.
  - apply Hpos. lia.
Qed.

Lemma add_of_int (a b : Z) :
  0 <= a -> 0 <= b -> a + b <= 2 ^ 53 ->
  F64.add (of_int a) (of_int b) = of_int (a + b).
Proof.
  intros Ha Hb Hab.
  destruct (Z.eq_dec a 0) as [->|Ha0], (Z.eq_dec b 0) as [->|Hb0].
  - reflexivity.
  - rewrite Z.add_0_l.
    destruct (of_int_int_float b ltac:(lia)) as (m & e & E & _).
    rewrite E. reflexivity.
  - rewrite Z.add_0_r.
    destruct (of_int_int_float a ltac:(lia)) as (m & e & E & _).
    rewrite E. reflexivity.
  - symmetry. apply of_int_of_int_float; [lia|].
    apply add_int_float; try (apply of_int_int_float; lia). lia.
Qed.

(** ** The square root *)

Lemma loc_of_shr_record_of_loc (m : Z) (l : location) :
  loc_of_shr_record (shr_record_of_loc m l) = l.
Proof. destruct l as [|[]]; reflexivity. Qed.

Lemma sqrt_scaled (n T : Z) :
  0 <= n -> 0 < T ->
  Z.sqrt n * T <= Z.sqrt (n * (T * T)) < (Z.sqrt n + 1) * T.
Proof.
  intros Hn HT.
  pose proof (Z.sqrt_spec n Hn) as [Hlo Hhi].
  pose proof (Z.sqrt_spec (n * (T * T)) ltac:(nia)) as [Qlo Qhi].
  pose proof (Z.sqrt_nonneg n). pose proof (Z.sqrt_nonneg (n * (T * T))).
  unfold Z.succ in *.
  set (k := Z.sqrt n) in *. set (q := Z.sqrt (n * (T * T))) in *.
  split.
  - destruct (Z.le_gt_cases (k * T) q) as [H1|H1]; [exact H1|exfalso].
    assert ((q + 1) * (q + 1) <= (k * T) * (k * T)) by nia.
    nia.
  - destruct (Z.lt_ge_cases q ((k + 1) * T)) as [H1|H1]; [exact H1|exfalso].
    assert (((k + 1) * T) * ((k + 1) * T) <= q * q) by nia.
    nia.
Qed.

(** Rounding the root up never reaches the next integer. *)
Lemma sqrt_round_up (n T q : Z) :
  0 <= n -> Z.sqrt n + 1 <= T -> q = Z.sqrt (n * (T * T)) ->
  q < n * (T * T) - q * q -> q + 1 < (Z.sqrt n + 1) * T.
Proof.
  intros Hn HT -> Hr.
  pose proof (Z.sqrt_nonneg n).
  pose proof (sqrt_scaled n T Hn ltac:(lia)) as [Hlo Hhi].
  pose proof (Z.sqrt_spec n Hn) as [Klo Khi]. unfold Z.succ in *.
  set (k := Z.sqrt n) in *. set (q := Z.sqrt (n * (T * T))) in *.
  destruct (Z.eq_dec (q + 1) ((k + 1) * T)) as [E|E]; [exfalso|lia].
  assert (Eq : q = (k + 1) * T - 1) by lia.
  assert (n + 1 <= (k + 1) * (k + 1)) by lia.
  assert (n * (T * T) + T * T <= (k + 1) * (k + 1) * (T * T)) by nia.
  rewrite Eq in Hr. nia.
Qed.

Lemma sqrt_int_float (n : Z) (x : float64) :
  int_float n x -> n < 2 ^ 52 -> to_int (F64.sqrt x) = Z.sqrt n.
Proof.
  intros Hx Hn. pose proof (int_float_pos n x Hx) as Hpos.
  destruct Hx as (m & e & -> & Hm & He & Hv).
  pose proof (size_bounds m) as [Mlo Mhi]. rewrite Hm in Mlo, Mhi.
  change (53 - 1) with 52 in Mlo.
  assert (H52 : 0 < 2 ^ 52) by (apply pow2_pos; lia).
  assert (He' : e <= -1).
  { destruct (Z.le_gt_cases e (-1)) as [H|H]; [exact H|exfalso].
    assert (2 ^ 52 <= 2 ^ (e + 52)) by (apply pow2_le; lia). nia. }
  set (g := Z.div2 (53 + e + 1)).
  assert (Hg : 2 * g <= 54 + e <= 2 * g + 1).
  { unfold g. rewrite Z.div2_div.
    pose proof (Z.div_mod (53 + e + 1) 2 ltac:(lia)).
    pose proof (Z.mod_pos_bound (53 + e + 1) 2 ltac:(lia)). lia. }
  set (t := 53 - g). set (T := 2 ^ t).
  assert (HT : 0 < T) by (apply pow2_pos; lia).
  assert (Em : Zpos m = n * 2 ^ (- e)).
  { assert (E : 2 ^ (- e) * 2 ^ (e + 52) = 2 ^ 52)
      by (rewrite <- Z.pow_add_r by lia; f_equal; lia).
    assert (0 < 2 ^ (e + 52)) by (apply pow2_pos; lia).
    assert (0 < 2 ^ (- e)) by (apply pow2_pos; lia). nia. }
  (* the shifted significand is n * T^2 *)
  assert (Em' : Zpos m * 2 ^ (e - 2 * (g - 53)) = n * (T * T)).
  { rewrite Em. unfold T. rewrite <- Z.mul_assoc, <- !Z.pow_add_r by lia.
    f_equal. f_equal. lia. }
  assert (HkT : Z.sqrt n + 1 <= T).
  { assert (Hn2 : n < 2 ^ g * 2 ^ g).
    { rewrite <- Z.pow_add_r by lia.
      assert (n * 2 ^ (- e) < 2 ^ (53 + e) * 2 ^ (- e)).
      { rewrite <- Z.pow_add_r by lia. replace (53 + e + - e) with 53 by lia.
        lia. }
      assert (0 < 2 ^ (- e)) by (apply pow2_pos; lia).
      assert (2 ^ (53 + e) <= 2 ^ (g + g)) by (apply pow2_le; lia). nia. }
    pose proof (Z.sqrt_spec n ltac:(lia)) as [Klo _].
    pose proof (Z.sqrt_nonneg n).
    assert (0 < 2 ^ g) by (apply pow2_pos; lia).
    assert (Z.sqrt n < 2 ^ g) by nia.
    assert (2 ^ g <= T) by (apply pow2_le; lia). lia. }
  assert (HkT53 : (Z.sqrt n + 1) * T <= 2 ^ 53).
  { assert (Hn2 : n < 2 ^ g * 2 ^ g).
    { rewrite <- Z.pow_add_r by lia.
      assert (n * 2 ^ (- e) < 2 ^ (53 + e) * 2 ^ (- e)).
      { rewrite <- Z.pow_add_r by lia. replace (53 + e + - e) with 53 by lia.
        lia. }
      assert (0 < 2 ^ (- e)) by (apply pow2_pos; lia).
      assert (2 ^ (53 + e) <= 2 ^ (g + g)) by (apply pow2_le; lia). nia. }
    pose proof (Z.sqrt_spec n ltac:(lia)) as [Klo _].
    pose proof (Z.sqrt_nonneg n).
    assert (0 < 2 ^ g) by (apply pow2_pos; lia).
    assert (Z.sqrt n < 2 ^ g) by nia.
    assert (E : 2 ^ g * T = 2 ^ 53).
    { unfold T, t. rewrite <- Z.pow_add_r by lia. f_equal. lia. }
    nia. }
  unfold F64.sqrt, SFsqrt, SFsqrt_core_binary.
  change (Zdigits2 (Zpos m)) with (Zpos (digits2_pos m)).
  rewrite digits2_pos_size, Hm. fold g.
  assert (Ef : fexp prec emax g = g - 53).
  { apply fexp_normal. unfold emin, prec, emax. lia. }
  rewrite Ef.
  assert (Ed : g - 53 <= Z.div2 e).
  { rewrite Z.div2_div.
    pose proof (Z.div_mod e 2 ltac:(lia)).
    pose proof (Z.mod_pos_bound e 2 ltac:(lia)). lia. }
  rewrite Z.min_l by exact Ed.
  assert (Es : exists p, e - 2 * (g - 53) = Zpos p).
  { destruct (e - 2 * (g - 53)) as [|p|p] eqn:E; try lia. now exists p. }
  destruct Es as [p Ep].
  replace (match e - 2 * (g - 53) with
           | 0 => Zpos m
           | Zpos _ => Z.shiftl (Zpos m) (e - 2 * (g - 53))
           | Zneg _ => 0
           end) with (n * (T * T)).
  2:{ rewrite Ep. rewrite <- Ep. rewrite Z.shiftl_mul_pow2 by lia.
      symmetry. exact Em'. }
  pose proof (Z.sqrtrem_spec (n * (T * T)) ltac:(nia)) as Hspec.
  pose proof (Z.sqrtrem_sqrt (n * (T * T))) as Hsq.
  destruct (Z.sqrtrem (n * (T * T))) as [q r]. simpl in Hsq.
  destruct Hspec as [Hqr Hr].
  pose proof (sqrt_scaled n T ltac:(lia) HT) as [Slo Shi].
  rewrite <- Hsq in Slo, Shi.
  assert (Hq52 : 2 ^ 52 <= q).
  { rewrite Hsq. change (2 ^ 52) with (Z.sqrt (2 ^ 52 * 2 ^ 52)).
    apply Z.sqrt_le_mono. rewrite <- Em'.
    assert (2 ^ 52 <= 2 ^ (e - 2 * (g - 53))) by (apply pow2_le; lia). nia. }
  assert (Hq53 : q < 2 ^ 53) by lia.
  set (l := if r =? 0 then loc_Exact
            else loc_Inexact (if r <=? q then Lt else Gt)).
  rewrite binary_round_aux_finish.
  unfold shr_fexp. rewrite (Zdigits2_unique q 53) by (change (53 - 1) with 52; lia).
  replace (fexp prec emax (53 + (g - 53))) with (g - 53).
  2:{ symmetry. replace (g - 53) with (53 + (g - 53) - prec) at 2
        by (unfold prec; lia).
      apply fexp_normal. unfold emin, prec, emax. lia. }
  rewrite shr_nonpos by lia.
  rewrite shr_record_of_loc_m, loc_of_shr_record_of_loc.
  assert (Hmz : q <= round_nearest_even q l < (Z.sqrt n + 1) * T).
  { unfold l. destruct (Z.eqb_spec r 0) as [Hr0|Hr0]; simpl; [lia|].
    destruct (Z.leb_spec r q) as [Hle|Hgt]; simpl; [lia|].
    split; [lia|].
    apply (sqrt_round_up n T q); try lia. }
  set (mz := round_nearest_even q l) in *.
  destruct mz as [|P|P] eqn:EP; try lia.
  assert (HP : Zpos (Pos.size P) = 53).
  { apply size_unique. change (53 - 1) with 52. lia. }
  replace (Zpos P) with (Zpos P * 2 ^ 0) by lia.
  rewrite finish_exact by (try exact HP; lia).
  rewrite Z.add_0_r. unfold to_int.
  replace (0 <=? g - 53) with false by (symmetry; apply Z.leb_gt; lia).
  cbv [cond_Zopp]. rewrite Z.shiftr_div_pow2 by lia.
  replace (- (g - 53)) with t by (unfold t; lia). fold T.
  assert (Ediv : Zpos P / T = Z.sqrt n).
  { symmetry. apply Z.div_unique with (Zpos P - Z.sqrt n * T); lia. }
  rewrite Ediv.
  pose proof (Z.sqrt_nonneg n).
  replace (Int.min_int <=? Z.sqrt n) with true
    by (symmetry; apply Z.leb_le; unfold Int.min_int; lia).
  assert (T <= 2 ^ 52) by (apply pow2_le; lia).
  replace (Z.sqrt n <=? Int.max_int) with true
    by (symmetry; apply Z.leb_le; unfold Int.max_int; lia).
  reflexivity.
Qed.

(** Within 2^25 cells on each axis, [distTo] is the integer part of the
    Euclidean distance. *)
Lemma distTo_sqrt (x1 y1 x2 y2 : Z) :
  Z.abs (x1 - x2) <= 2 ^ 25 -> Z.abs (y1 - y2) <= 2 ^ 25 ->
  distTo x1 y1 x2 y2 =
  Z.sqrt ((x1 - x2) * (x1 - x2) + (y1 - y2) * (y1 - y2)).
Proof.
  intros Hx Hy. unfold distTo, Int.sub.
  rewrite !wrap_small
    by (unfold Int.in_range, Int.min_int, Int.max_int; lia).
  set (dx := x1 - x2) in *. set (dy := y1 - y2) in *.
  rewrite !pow2_of_int by lia.
  assert (Hsq : forall a, Z.abs a <= 2 ^ 25 -> 0 <= a * a <= 2 ^ 50).
  { intros a Ha. change (2 ^ 50) with (2 ^ 25 * 2 ^ 25). nia. }
  pose proof (Hsq dx Hx). pose proof (Hsq dy Hy).
  rewrite add_of_int by lia.
  set (n := dx * dx + dy * dy) in *.
  destruct (Z.eq_dec n 0) as [->|Hn0]; [reflexivity|].
  apply sqrt_int_float; [apply of_int_int_float; lia | lia].
Qed.

(** * The scan within the radius *)

(** ** Invariants of the scan, cell by cell *)

Lemma near_keeps_at (I : machine -> Prop) (grid : GridMap) (px py rad x y : Z) :
  (forall s, I s -> I (logged (QInBounds x y) s)) ->
  keeps I (andM (inBounds grid x y) (ret (distTo px py x y <? rad)))
    (fun b => b = true ->
              InBounds grid x y = true /\ distTo px py x y < rad).
Proof.
  intros Hb s Hs. unfold andM, bind, inBounds. simpl.
  destruct (InBounds grid x y) eqn:E; simpl.
  - split; [now apply Hb|]. intros a [= <-] Hlt. split; [easy | lia].
  - split; [now apply Hb|]. now intros a [= <-].
Qed.

Lemma clear_keeps_at (I : machine -> Prop) (grid : GridMap) (x y : Z) :
  (forall s, I s -> I (logged (QInBounds x y) s)) ->
  (InBounds grid x y = true ->
   forall s, I s -> I (logged (QIsOpaque x y) (logged (QInBounds x y) s))) ->
  keeps I (andM (inBounds grid x y) (notM (isOpaque grid x y)))
    (fun _ => True).
Proof.
  intros Hb Ho s Hs. unfold andM, notM, bind, inBounds, isOpaque. simpl.
  destruct (InBounds grid x y) eqn:E; simpl.
  - split; [now apply Ho | easy].
  - split; [now apply Hb | easy].
Qed.

Lemma mark_keeps_at (I : machine -> Prop) (x y : Z) :
  (forall s, I s -> I (marked x y s)) -> keeps I (mark x y) (fun _ => True).
Proof. intros H s Hs. split; [now apply H | easy]. Qed.

Lemma add_1_small (d : Z) : 0 <= d < 2 ^ 62 -> Int.add d 1 = d + 1.
Proof.
  intros H. apply wrap_small.
  unfold Int.in_range, Int.min_int, Int.max_int. lia.
Qed.

Section Wedge.

Variable grid : GridMap.
Variables px py oct rad : Z.
Hypothesis rad_small : rad < 2 ^ 50.

Variable I : machine -> Prop.

Hypothesis I_bounds : forall s d k,
  1 <= d <= rad -> 0 <= k <= d -> I s ->
  I (logged (QInBounds (distHeightXY px py d k oct).1
                       (distHeightXY px py d k oct).2) s).
Hypothesis I_opaque : forall s d k,
  1 <= d <= rad -> 0 <= k <= d ->
  InBounds grid (distHeightXY px py d k oct).1
                (distHeightXY px py d k oct).2 = true ->
  I s ->
  I (logged (QIsOpaque (distHeightXY px py d k oct).1
                       (distHeightXY px py d k oct).2)
       (logged (QInBounds (distHeightXY px py d k oct).1
                          (distHeightXY px py d k oct).2) s)).
Hypothesis I_mark : forall s d k,
  1 <= d <= rad -> 0 <= k <= d ->
  InBounds grid (distHeightXY px py d k oct).1
                (distHeightXY px py d k oct).2 = true ->
  distTo px py (distHeightXY px py d k oct).1
               (distHeightXY px py d k oct).2 < rad ->
  I s ->
  I (marked (distHeightXY px py d k oct).1 (distHeightXY px py d k oct).2 s).

Lemma wedge_loop_keeps (fuel : nat) :
  forall (d kh : Z) (hs : float64) (k : Z) (ls : float64) (inGap : bool),
    1 <= d <= rad -> 0 <= kh <= d -> hi_slope rad hs -> lo_slope rad ls ->
    0 <= k <= 2 ^ 53 -> (inGap = true -> 1 <= k) ->
    keeps I (fov_loop grid px py oct rad fuel d (of_int kh) hs (of_int k) ls
               inGap) (fun _ => True).
Proof.
  induction fuel as [|fuel IH]; intros d kh hs k ls inGap Hd Hkh Hhs Hls Hk Hgap.
  - apply keeps_cut_off.
  - rewrite fov_loop_S. rewrite leb_of_int_spec by lia.
    destruct (Z.leb_spec k kh) as [Hle|Hgt]; [|now apply keeps_ret].
    rewrite to_int_of_int by lia.
    assert (Hdeep : forall ls' hs', lo_slope rad ls' -> hi_slope rad hs' ->
              keeps I (fov_with rad (fov_loop grid px py oct rad fuel)
                         (Int.add d 1) ls' hs') (fun _ => True)).
    { intros ls' hs' Hl Hh. rewrite add_1_small by lia. unfold fov_with.
      destruct (Z.gtb_spec (d + 1) rad) as [Hgt|Hle']; [now apply keeps_ret|].
      destruct (hi_band_all rad rad_small hs' (d + 1) Hh ltac:(lia))
        as (kh' & Hkh' & Ehi).
      destruct (lo_band_all rad rad_small ls' (d + 1) Hl ltac:(lia))
        as (kl' & Hkl' & Elo).
      fold (band ls' (d + 1)). fold (band hs' (d + 1)). rewrite Ehi, Elo.
      apply IH; first [lia | assumption | discriminate]. }
    assert (Hnext : forall ls' g', lo_slope rad ls' ->
              keeps I (fov_loop grid px py oct rad fuel d (of_int kh) hs
                         (F64.add (of_int k) one) ls' g') (fun _ => True)).
    { intros ls' g' Hl. rewrite add_one_of_int by lia.
      apply IH; first [lia | assumption]. }
    pose proof (fun s => I_bounds s d k Hd ltac:(lia)) as Hb.
    pose proof (fun H s => I_opaque s d k Hd ltac:(lia) H) as Ho.
    pose proof (fun H1 H2 s => I_mark s d k Hd ltac:(lia) H1 H2) as Hm.
    destruct (distHeightXY px py d k oct) as [mapx mapy].
    cbn [fst snd] in Hb, Ho, Hm.
    eapply keeps_bind; [apply near_keeps_at; exact Hb|]. intros near Hnear.
    eapply keeps_bind.
    { apply keeps_when. intros ->. destruct Hnear as [H1 H2]; [easy|].
      apply mark_keeps_at. now apply Hm. }
    intros _ _.
    eapply keeps_bind; [apply clear_keeps_at; [exact Hb | exact Ho]|].
    intros clear _. destruct clear.
    + eapply keeps_bind; [|intros; apply Hnext].
      * apply keeps_when. intros ->. apply Hdeep; [exact Hls|].
        right. exists k, d.
        repeat split; first [lia | apply Hgap; reflexivity].
      * right. exists k, d. repeat split; lia.
    + eapply keeps_bind; [|intros; now apply Hnext].
      apply keeps_when. intros _. now apply Hdeep.
Qed.

Lemma wedge_fov_keeps (fuel : nat) :
  keeps I (fov grid px py oct rad fuel 1 zero one) (fun _ => True).
Proof.
  unfold fov, fov_with.
  destruct (Z.gtb_spec 1 rad) as [Hgt|Hle]; [now apply keeps_ret|].
  assert (Hhi : hi_slope rad one) by now left.
  assert (Hlo : lo_slope rad zero) by now left.
  destruct (hi_band_all rad rad_small one 1 Hhi ltac:(lia))
    as (kh & Hkh & Ehi).
  destruct (lo_band_all rad rad_small zero 1 Hlo ltac:(lia))
    as (kl & Hkl & Elo).
  fold (band zero 1). fold (band one 1). rewrite Ehi, Elo.
  apply wedge_loop_keeps; first [lia | assumption | discriminate].
Qed.

End Wedge.

Lemma distHeightXY_small (px py d h oct : Z) :
  Z.abs px <= 2 ^ 62 -> Z.abs py <= 2 ^ 62 ->
  Z.abs d < 2 ^ 62 -> Z.abs h < 2 ^ 62 ->
  distHeightXY px py d h oct =
    (let d' := if Z.land oct 1 >? 0 then - d else d in
     let h' := if Z.land oct 2 >? 0 then - h else h in
     if Z.land oct 4 >? 0 then (px + h', py + d') else (px + d', py + h')).
Proof.
  intros Hpx Hpy Hd Hh. unfold distHeightXY.
  assert (Hn : forall z, Z.abs z < 2 ^ 62 -> Int.neg z = - z).
  { intros z Hz. apply wrap_small.
    unfold Int.in_range, Int.min_int, Int.max_int. lia. }
  assert (Ha : forall a b, Z.abs a <= 2 ^ 62 -> Z.abs b < 2 ^ 62 ->
                           Int.add a b = a + b).
  { intros a b H1 H2. apply wrap_small.
    unfold Int.in_range, Int.min_int, Int.max_int. lia. }
  rewrite (Hn d Hd), (Hn h Hh). cbv zeta.
  destruct (Z.land oct 1 >? 0), (Z.land oct 2 >? 0), (Z.land oct 4 >? 0);
    rewrite !Ha by lia; reflexivity.
Qed.

(** The cell of a scan at distance [d] and height [k <= d] is [d] away from
    the observer on one axis and [k] away on the other. *)
Lemma distHeightXY_offsets (px py d k oct : Z) :
  Z.abs px <= 2 ^ 62 -> Z.abs py <= 2 ^ 62 -> 0 <= k <= d -> d < 2 ^ 62 ->
  exists dx dy,
    distHeightXY px py d k oct = (px + dx, py + dy) /\
    dx * dx + dy * dy = d * d + k * k /\
    Z.abs dx <= d /\ Z.abs dy <= d /\ (Z.abs dx = d \/ Z.abs dy = d).
Proof.
  intros Hpx Hpy Hk Hd. rewrite distHeightXY_small by lia. cbv zeta.
  destruct (Z.land oct 1 >? 0), (Z.land oct 2 >? 0), (Z.land oct 4 >? 0);
    eexists _, _; (split; [reflexivity|]); repeat split; lia.
Qed.

(** The eight octants cover the plane. *)
Lemma octants_cover_small (px py dx dy : Z) :
  Z.abs px <= 2 ^ 62 -> Z.abs py <= 2 ^ 62 ->
  Z.abs dx < 2 ^ 62 -> Z.abs dy < 2 ^ 62 ->
  exists oct d k,
    1 <= oct <= 8 /\ 0 <= k <= d /\ d = Z.max (Z.abs dx) (Z.abs dy) /\
    distHeightXY px py d k oct = (px + dx, py + dy).
Proof.
  intros Hpx Hpy Hdx Hdy.
  destruct (Z.le_gt_cases (Z.abs dy) (Z.abs dx)) as [Hle|Hgt].
  - destruct (Z.le_gt_cases 0 dx) as [Hx|Hx], (Z.le_gt_cases 0 dy) as [Hy|Hy].
    + exists 8, dx, dy. rewrite distHeightXY_small by lia.
      split; [lia|]. split; [lia|]. split; [lia|]. simpl. f_equal; lia.
    + exists 2, dx, (- dy). rewrite distHeightXY_small by lia.
      split; [lia|]. split; [lia|]. split; [lia|]. simpl. f_equal; lia.
    + exists 1, (- dx), dy. rewrite distHeightXY_small by lia.
      split; [lia|]. split; [lia|]. split; [lia|]. simpl. f_equal; lia.
    + exists 3, (- dx), (- dy). rewrite distHeightXY_small by lia.
      split; [lia|]. split; [lia|]. split; [lia|]. simpl. f_equal; lia.
  - destruct (Z.le_gt_cases 0 dx) as [Hx|Hx], (Z.le_gt_cases 0 dy) as [Hy|Hy].
    + exists 4, dy, dx. rewrite distHeightXY_small by lia.
      split; [lia|]. split; [lia|]. split; [lia|]. simpl. f_equal; lia.
    + exists 5, (- dy), dx. rewrite distHeightXY_small by lia.
      split; [lia|]. split; [lia|]. split; [lia|]. simpl. f_equal; lia.
    + exists 6, dy, (- dx). rewrite distHeightXY_small by lia.
      split; [lia|]. split; [lia|]. split; [lia|]. simpl. f_equal; lia.
    + exists 7, (- dy), (- dx). rewrite distHeightXY_small by lia.
      split; [lia|]. split; [lia|]. split; [lia|]. simpl. f_equal; lia.
Qed.

(** ** The scan stays within the radius *)

Section WedgeCompute.

Variable grid : GridMap.
Variables px py r : Z.
Hypothesis r_small : r < 2 ^ 50.

Variable I : machine -> Prop.

Hypothesis I_bounds : forall s oct d k,
  1 <= d <= r -> 0 <= k <= d -> I s ->
  I (logged (QInBounds (distHeightXY px py d k oct).1
                       (distHeightXY px py d k oct).2) s).
Hypothesis I_opaque : forall s oct d k,
  1 <= d <= r -> 0 <= k <= d ->
  InBounds grid (distHeightXY px py d k oct).1
                (distHeightXY px py d k oct).2 = true ->
  I s ->
  I (logged (QIsOpaque (distHeightXY px py d k oct).1
                       (distHeightXY px py d k oct).2)
       (logged (QInBounds (distHeightXY px py d k oct).1
                          (distHeightXY px py d k oct).2) s)).
Hypothesis I_mark : forall s oct d k,
  1 <= d <= r -> 0 <= k <= d ->
  InBounds grid (distHeightXY px py d k oct).1
                (distHeightXY px py d k oct).2 = true ->
  distTo px py (distHeightXY px py d k oct).1
               (distHeightXY px py d k oct).2 < r ->
  I s ->
  I (marked (distHeightXY px py d k oct).1 (distHeightXY px py d k oct).2 s).

Lemma wedge_Compute_keeps (fuel : nat) (s : machine) :
  I (marked px py (cleared s)) -> I (fst (Compute fuel grid px py r s)).
Proof.
  intros Hs. rewrite Compute_unfold.
  refine (proj1 (for_range_keeps I _ 8 _ 1 _ Hs)).
  intros i. apply wedge_fov_keeps; auto.
Qed.

End WedgeCompute.

Lemma sqrt_lt_square (n r : Z) : 0 <= n -> 0 < r -> Z.sqrt n < r -> n < r * r.
Proof.
  intros Hn Hr H. pose proof (Z.sqrt_spec n Hn) as [_ Hhi].
  unfold Z.succ in Hhi. pose proof (Z.sqrt_nonneg n). nia.
Qed.

Lemma square_lt_sqrt (n r : Z) : 0 <= n -> 0 < r -> n < r * r -> Z.sqrt n < r.
Proof.
  intros Hn Hr H. pose proof (Z.sqrt_spec n Hn) as [Hlo _].
  pose proof (Z.sqrt_nonneg n). nia.
Qed.

Lemma distTo_wedge (d k : Z) :
  0 <= k <= d -> d <= 2 ^ 25 -> distTo 0 0 d k = Z.sqrt (d * d + k * k).
Proof.
  intros Hk Hd. rewrite distTo_sqrt by lia. f_equal. lia.
Qed.

Lemma in_disc_Compute (fuel : nat) (grid : GridMap) (px py r : Z)
    (s : machine) :
  Z.abs px <= 2 ^ 62 -> Z.abs py <= 2 ^ 62 -> r <= 2 ^ 25 ->
  in_disc grid px py r (fst (Compute fuel grid px py r s)).
Proof.
  intros Hpx Hpy Hr.
  apply wedge_Compute_keeps; try lia.
  - intros s0 oct d k _ _ H. exact H.
  - intros s0 oct d k _ _ _ H. exact H.
  - intros s0 oct d k Hd Hk Hb Hdist H key Hkey.
    apply elem_of_marked in Hkey as [->|Hkey]; [|now apply H].
    right.
    rewrite distTo_distHeightXY in Hdist
      by (unfold Int.in_range, Int.min_int, Int.max_int; lia).
    rewrite distTo_wedge in Hdist by lia.
    apply sqrt_lt_square in Hdist; [|nia|lia].
    destruct (distHeightXY_offsets px py d k oct Hpx Hpy Hk ltac:(lia))
      as (dx & dy & E & Hsq & _).
    rewrite E in *. cbn [fst snd] in *.
    exists (px + dx), (py + dy). split; [reflexivity|]. split; [exact Hb|].
    replace (px + dx - px) with dx by lia.
    replace (py + dy - py) with dy by lia. lia.
  - intros key Hkey. apply elem_of_marked in Hkey as [->|Hkey]; [now left|].
    simpl in Hkey. set_solver.
Qed.

Lemma queries_around_Compute (fuel : nat) (grid : GridMap) (px py r : Z)
    (s : machine) :
  Z.abs px <= 2 ^ 62 -> Z.abs py <= 2 ^ 62 -> r < 2 ^ 50 ->
  Forall (fun q => around px py r (query_cell q).1 (query_cell q).2)
    (queries s) ->
  Forall (fun q => around px py r (query_cell q).1 (query_cell q).2)
    (queries (fst (Compute fuel grid px py r s))).
Proof.
  intros Hpx Hpy Hr Hs.
  assert (Hcell : forall oct d k, 1 <= d <= r -> 0 <= k <= d ->
            around px py r (distHeightXY px py d k oct).1
                           (distHeightXY px py d k oct).2).
  { intros oct d k Hd Hk.
    destruct (distHeightXY_offsets px py d k oct Hpx Hpy Hk ltac:(lia))
      as (dx & dy & E & _ & Hx & Hy & Hmax).
    rewrite E. cbn [fst snd]. unfold around. lia. }
  apply (wedge_Compute_keeps grid px py r Hr
           (fun s => Forall (fun q => around px py r (query_cell q).1
                                        (query_cell q).2) (queries s))).
  - intros s0 oct d k Hd Hk H. simpl. constructor; [|exact H].
    now apply Hcell.
  - intros s0 oct d k Hd Hk _ H. simpl.
    constructor; [now apply Hcell|]. constructor; [now apply Hcell | exact H].
  - intros s0 oct d k _ _ _ _ H. exact H.
  - exact Hs.
Qed.

(** * Runs that return *)

(** ** Proof rules for [ensures] *)

Lemma ensures_cut_off {A} (Q : machine -> Prop) : ensures (@cut_off A) Q.
Proof. intros s s' a. unfold cut_off. discriminate. Qed.

Lemma ensures_bind_r {A B} (m : M A) (k : A -> M B) (Q : machine -> Prop) :
  (forall a, ensures (k a) Q) -> ensures (bind m k) Q.
Proof.
  intros Hk s s' b. unfold bind. destruct (m s) as [s1 [a|]]; [|discriminate].
  apply Hk.
Qed.

Lemma ensures_bind_l {A B} (m : M A) (k : A -> M B) (Q : machine -> Prop) :
  ensures m Q -> (forall a, keeps Q (k a) (fun _ => True)) ->
  ensures (bind m k) Q.
Proof.
  intros Hm Hk s s' b. unfold bind.
  destruct (m s) as [s1 [a|]] eqn:E; [|discriminate].
  intros E'. pose proof (proj1 (Hk a s1 (Hm _ _ _ E))) as H.
  now rewrite E' in H.
Qed.

Lemma ensures_bind_post {A B} (m : M A) (k : A -> M B) (P : A -> Prop)
    (Q : machine -> Prop) :
  keeps (fun _ => True) m P -> (forall a, P a -> ensures (k a) Q) ->
  ensures (bind m k) Q.
Proof.
  intros Hm Hk s s' b. unfold bind.
  destruct (m s) as [s1 [a|]] eqn:E; [|discriminate].
  apply Hk. destruct (Hm s I) as [_ H]. apply H. now rewrite E.
Qed.

Lemma ensures_for_range (body : Z -> M unit) (Q : machine -> Prop) (j : Z) :
  (forall i, keeps Q (body i) (fun _ => True)) -> ensures (body j) Q ->
  forall (n : nat) (i : Z),
    i <= j < i + Z.of_nat n -> ensures (for_range n i body) Q.
Proof.
  intros Hkeep Hj. induction n as [|n IH]; intros i Hi; [lia|].
  simpl. destruct (Z.eq_dec i j) as [->|Hne].
  - apply ensures_bind_l; [exact Hj|]. intros _.
    now apply for_range_keeps.
  - apply ensures_bind_r. intros _. apply IH. lia.
Qed.

(** ** A key, once in the visible set, stays *)

Lemma has_key_marked (k : string) (x y : Z) (s : machine) :
  has_key k s -> has_key k (marked x y s).
Proof. unfold has_key. intros H. apply elem_of_marked. now right. Qed.

Lemma has_key_fov_loop (k : string) (grid : GridMap) (px py oct rad : Z)
    (fuel : nat) dist high highSlope height lowSlope inGap :
  keeps (has_key k)
    (fov_loop grid px py oct rad fuel dist high highSlope height lowSlope
       inGap) (fun _ => True).
Proof.
  apply fov_loop_keeps; auto.
  intros s x y _ _. apply has_key_marked.
Qed.

Lemma has_key_fov_with (k : string) (grid : GridMap) (px py oct rad : Z)
    (fuel : nat) dist lowSlope highSlope :
  keeps (has_key k)
    (fov_with rad (fov_loop grid px py oct rad fuel) dist lowSlope highSlope)
    (fun _ => True).
Proof.
  apply (fov_keeps grid px py oct rad (has_key k)); auto.
  intros s x y _ _. apply has_key_marked.
Qed.

(** ** One round of the loop *)

Lemma near_value (grid : GridMap) (px py rad x y : Z) :
  InBounds grid x y = true -> distTo px py x y < rad ->
  keeps (fun _ => True)
    (andM (inBounds grid x y) (ret (distTo px py x y <? rad)))
    (fun b => b = true).
Proof.
  intros Hb Hd s _. unfold andM, bind, inBounds. simpl. rewrite Hb. simpl.
  split; [exact I|]. intros a [= <-]. now apply Z.ltb_lt.
Qed.

Lemma clear_value (I : machine -> Prop) (grid : GridMap) (x y : Z) :
  (forall s q, I s -> I (logged q s)) ->
  keeps I (andM (inBounds grid x y) (notM (isOpaque grid x y)))
    (fun b => b = InBounds grid x y && negb (IsOpaque grid x y)).
Proof.
  intros Hlog s Hs. unfold andM, notM, bind, inBounds, isOpaque. simpl.
  destruct (InBounds grid x y); simpl.
  - split; [now apply Hlog, Hlog|]. now intros a [= <-].
  - split; [now apply Hlog|]. now intros a [= <-].
Qed.

Section Round.

Variable grid : GridMap.
Variables px py oct rad : Z.
Variable fuel : nat.
Variables (dist : Z) (high highSlope height lowSlope : float64).
Variable inGap : bool.

Hypothesis in_band : leb height high = true.

(** The cell of the round is marked if it is in bounds and near. *)
Lemma round_marks :
  InBounds grid (distHeightXY px py dist (to_int height) oct).1
                (distHeightXY px py dist (to_int height) oct).2 = true ->
  distTo px py (distHeightXY px py dist (to_int height) oct).1
               (distHeightXY px py dist (to_int height) oct).2 < rad ->
  ensures (fov_loop grid px py oct rad (S fuel) dist high highSlope height
             lowSlope inGap)
    (has_key (key (distHeightXY px py dist (to_int height) oct).1
                  (distHeightXY px py dist (to_int height) oct).2)).
Proof.
  rewrite fov_loop_S, in_band.
  destruct (distHeightXY px py dist (to_int height) oct) as [mapx mapy].
  cbn [fst snd]. intros Hb Hd.
  eapply ensures_bind_post; [now apply near_value|]. intros near ->.
  apply ensures_bind_l.
  { intros s s' a [= <- _]. unfold has_key. apply elem_of_marked. now left. }
  intros _.
  eapply keeps_bind.
  { apply (clear_keeps grid (has_key (key mapx mapy))); auto. }
  intros [|] _.
  - eapply keeps_bind; [|intros; apply has_key_fov_loop].
    apply keeps_when. intros _. apply has_key_fov_with.
  - eapply keeps_bind; [|intros; apply has_key_fov_loop].
    apply keeps_when. intros _. apply has_key_fov_with.
Qed.

(** On a cell that is out of bounds or opaque, the round scans one level
    deeper if the height is the last of the band, and goes on with the next
    height. *)
Hypothesis blocked :
  InBounds grid (distHeightXY px py dist (to_int height) oct).1
                (distHeightXY px py dist (to_int height) oct).2 &&
  negb (IsOpaque grid (distHeightXY px py dist (to_int height) oct).1
                      (distHeightXY px py dist (to_int height) oct).2) = false.

Lemma round_blocked_next (Q : machine -> Prop) :
  ensures (fov_loop grid px py oct rad fuel dist high highSlope
             (F64.add height one) lowSlope true) Q ->
  ensures (fov_loop grid px py oct rad (S fuel) dist high highSlope height
             lowSlope inGap) Q.
Proof.
  intros Hnext. rewrite fov_loop_S, in_band. revert blocked.
  destruct (distHeightXY px py dist (to_int height) oct) as [mapx mapy].
  cbn [fst snd]. intros Hbl.
  apply ensures_bind_r. intros near. apply ensures_bind_r. intros _.
  eapply ensures_bind_post.
  { apply (clear_value (fun _ => True)). auto. }
  intros clear ->. rewrite Hbl.
  apply ensures_bind_r. intros _. exact Hnext.
Qed.

Lemma round_blocked_deeper (k : string) :
  eqb height high = true ->
  ensures (fov_with rad (fov_loop grid px py oct rad fuel) (Int.add dist 1)
             lowSlope highSlope) (has_key k) ->
  ensures (fov_loop grid px py oct rad (S fuel) dist high highSlope height
             lowSlope inGap) (has_key k).
Proof.
  intros Hlast Hdeep. rewrite fov_loop_S, in_band. revert blocked.
  destruct (distHeightXY px py dist (to_int height) oct) as [mapx mapy].
  cbn [fst snd]. intros Hbl.
  apply ensures_bind_r. intros near. apply ensures_bind_r. intros _.
  eapply ensures_bind_post.
  { apply (clear_value (fun _ => True)). auto. }
  intros clear ->. rewrite Hbl, Hlast.
  apply ensures_bind_l; [exact Hdeep|].
  intros _. apply has_key_fov_loop.
Qed.

End Round.

(** Whatever its cell, a round goes on with the next height. *)
Lemma round_next (grid : GridMap) (px py oct rad : Z) (fuel : nat)
    (dist : Z) (high highSlope height lowSlope : float64) (inGap : bool)
    (Q : machine -> Prop) :
  leb height high = true ->
  (forall ls g, ensures (fov_loop grid px py oct rad fuel dist high highSlope
                           (F64.add height one) ls g) Q) ->
  ensures (fov_loop grid px py oct rad (S fuel) dist high highSlope height
             lowSlope inGap) Q.
Proof.
  intros Hband Hnext. rewrite fov_loop_S, Hband.
  destruct (distHeightXY px py dist (to_int height) oct) as [mapx mapy].
  apply ensures_bind_r. intros near. apply ensures_bind_r. intros _.
  apply ensures_bind_r. intros [|]; apply ensures_bind_r; intros _;
    apply Hnext.
Qed.

Lemma finished_ensures {A} (m : M A) (Q : machine -> Prop) (v : View) :
  finished m v = true -> ensures m Q -> Q (fst (run m v)).
Proof.
  unfold finished, run. intros Hfin Hm.
  destruct (m _) as [s' [a|]] eqn:E; [|discriminate].
  simpl. eapply Hm. exact E.
Qed.

Lemma Compute_ensures (k : string) (grid : GridMap) (px py r : Z)
    (fuel : nat) (j : Z) :
  1 <= j <= 8 ->
  ensures (fov grid px py j r fuel 1 zero one) (has_key k) ->
  ensures (Compute fuel grid px py r) (has_key k).
Proof.
  intros Hj H. unfold Compute.
  apply ensures_bind_r. intros _. apply ensures_bind_r. intros _.
  apply (ensures_for_range _ _ j); [|exact H|simpl; lia].
  intros i. apply has_key_fov_with.
Qed.

Lemma gtb_false (a b : Z) : a <= b -> (a >? b) = false.
Proof. intros H. rewrite Z.gtb_ltb. apply Z.ltb_ge. lia. Qed.

(** ** The whole octant *)

Lemma band_one_exact (d : Z) : 0 < d < 2 ^ 52 -> band one d = of_int d.
Proof.
  intros Hd. unfold band.
  rewrite (mul_one_int_float d) by (apply of_int_int_float; lia).
  apply floor_add_half_small; [lia | apply of_int_int_float; lia].
Qed.

Lemma band_zero_exact (d : Z) : 0 < d < 2 ^ 52 -> band zero d = of_int 0.
Proof. intros Hd. unfold band. rewrite band_zero by lia. reflexivity. Qed.

Lemma eqb_of_int_spec (k k' : Z) :
  0 <= k <= 2 ^ 53 -> 0 <= k' <= 2 ^ 53 ->
  eqb (of_int k) (of_int k') = (k =? k').
Proof.
  intros Hk Hk'. unfold eqb, SFeqb. rewrite compare_of_int by lia.
  destruct (Z.compare_spec k k') as [H|H|H].
  - symmetry. now apply Z.eqb_eq.
  - symmetry. apply Z.eqb_neq. lia.
  - symmetry. apply Z.eqb_neq. lia.
Qed.

Lemma distTo_first_row (h : Z) : 0 <= h <= 1 -> distTo 0 0 1 h = 1.
Proof.
  intros H. assert (E : h = 0 \/ h = 1) by lia.
  destruct E as [->| ->]; vm_compute; reflexivity.
Qed.

(** ** The cells next to the observer *)

Lemma first_row_marked (grid : GridMap) (px py oct r : Z) (fuel : nat)
    (h : Z) :
  2 <= r -> 0 <= h <= 1 ->
  InBounds grid (distHeightXY px py 1 h oct).1
                (distHeightXY px py 1 h oct).2 = true ->
  ensures (fov grid px py oct r fuel 1 zero one)
    (has_key (key (distHeightXY px py 1 h oct).1
                  (distHeightXY px py 1 h oct).2)).
Proof.
  intros Hr Hh Hb. unfold fov, fov_with.
  replace (1 >? r) with false by (symmetry; apply gtb_false; lia).
  fold (band zero 1). fold (band one 1).
  rewrite band_zero_exact, band_one_exact by lia.
  assert (Hdist : distTo px py (distHeightXY px py 1 h oct).1
                               (distHeightXY px py 1 h oct).2 < r).
  { rewrite distTo_distHeightXY
      by (unfold Int.in_range, Int.min_int, Int.max_int; lia).
    rewrite distTo_first_row by lia. lia. }
  assert (Hlast : forall fuel' ls g,
            ensures (fov_loop grid px py oct r fuel' 1 (of_int 1) one
                       (of_int h) ls g)
              (has_key (key (distHeightXY px py 1 h oct).1
                            (distHeightXY px py 1 h oct).2))).
  { intros [|fuel'] ls g; [apply ensures_cut_off|].
    pose proof (round_marks grid px py oct r fuel' 1 (of_int 1) one (of_int h)
                  ls g) as H.
    rewrite to_int_of_int in H by lia.
    apply H; [apply leb_of_int; lia | exact Hb | exact Hdist]. }
  destruct (Z.eq_dec h 0) as [->|Hne]; [apply Hlast|].
  replace h with 1 in * by lia.
  destruct fuel as [|fuel]; [apply ensures_cut_off|].
  apply round_next; [apply leb_of_int; lia|].
  intros ls g. rewrite add_one_of_int by lia. apply Hlast.
Qed.

Lemma neighbour_marked (fuel : nat) (grid : GridMap) (px py r : Z) (v : View)
    (x y : Z) :
  Z.abs px <= 2 ^ 62 -> Z.abs py <= 2 ^ 62 -> 2 <= r ->
  finished (Compute fuel grid px py r) v = true ->
  Z.abs (x - px) <= 1 -> Z.abs (y - py) <= 1 -> InBounds grid x y = true ->
  key x y ∈ Visible (view_after (Compute fuel grid px py r) v).
Proof.
  intros Hpx Hpy Hr Hfin Hx Hy Hb.
  destruct (Z.eq_dec x px) as [Ex|Nx], (Z.eq_dec y py) as [Ey|Ny];
    [subst; apply observer_marked_Compute| | |].
  all: destruct (octants_cover_small px py (x - px) (y - py) Hpx Hpy
                   ltac:(lia) ltac:(lia)) as (oct & d & k & Hoct & Hk & Hd & E);
    replace (px + (x - px)) with x in E by lia;
    replace (py + (y - py)) with y in E by lia;
    assert (Hd1 : d = 1) by lia; clear Hd; subst d;
    apply (finished_ensures _ (has_key (key x y)) v Hfin);
    apply (Compute_ensures _ _ _ _ _ _ oct Hoct);
    pose proof (first_row_marked grid px py oct r fuel k Hr Hk) as H;
    rewrite E in H; apply H; exact Hb.
Qed.

(** With a radius of 1 no cell of the scan is below the radius. *)
Lemma radius_one_Compute (fuel : nat) (grid : GridMap) (px py : Z)
    (s : machine) :
  forall k, k ∈ Visible (view (fst (Compute fuel grid px py 1 s))) ->
            k = key px py.
Proof.
  apply (wedge_Compute_keeps grid px py 1 ltac:(lia)
           (fun s => forall k, k ∈ Visible (view s) -> k = key px py)).
  - intros s0 oct d k _ _ H. exact H.
  - intros s0 oct d k _ _ _ H. exact H.
  - intros s0 oct d k Hd Hk _ Hdist _.
    rewrite distTo_distHeightXY in Hdist
      by (unfold Int.in_range, Int.min_int, Int.max_int; lia).
    replace d with 1 in Hdist by lia.
    rewrite distTo_first_row in Hdist by lia. lia.
  - intros k Hk. apply elem_of_marked in Hk as [->|Hk]; [reflexivity|].
    simpl in Hk. set_solver.
Qed.

(** The cells next to a cell, in machine arithmetic, are the cells of the
    first row of the eight octants. *)
Lemma octants_cover_next (px py dx dy : Z) :
  Z.abs dx <= 1 -> Z.abs dy <= 1 -> dx <> 0 \/ dy <> 0 ->
  exists oct h, 1 <= oct <= 8 /\ 0 <= h <= 1 /\
    distHeightXY px py 1 h oct = (Int.add px dx, Int.add py dy).
Proof.
  intros Hx Hy Hne.
  assert (Ex : dx = -1 \/ dx = 0 \/ dx = 1) by lia.
  assert (Ey : dy = -1 \/ dy = 0 \/ dy = 1) by lia.
  destruct Ex as [Ex|[Ex|Ex]], Ey as [Ey|[Ey|Ey]]; subst dx dy.
  - exists 3, 1. split; [lia|]. split; [lia | reflexivity].
  - exists 1, 0. split; [lia|]. split; [lia | reflexivity].
  - exists 1, 1. split; [lia|]. split; [lia | reflexivity].
  - exists 5, 0. split; [lia|]. split; [lia | reflexivity].
  - lia.
  - exists 4, 0. split; [lia|]. split; [lia | reflexivity].
  - exists 2, 1. split; [lia|]. split; [lia | reflexivity].
  - exists 8, 0. split; [lia|]. split; [lia | reflexivity].
  - exists 8, 1. split; [lia|]. split; [lia | reflexivity].
Qed.

Lemma next_marked (fuel : nat) (grid : GridMap) (px py r : Z) (v : View)
    (dx dy : Z) :
  Int.in_range px -> Int.in_range py -> 2 <= r ->
  finished (Compute fuel grid px py r) v = true ->
  Z.abs dx <= 1 -> Z.abs dy <= 1 ->
  InBounds grid (Int.add px dx) (Int.add py dy) = true ->
  key (Int.add px dx) (Int.add py dy)
    ∈ Visible (view_after (Compute fuel grid px py r) v).
Proof.
  intros Hpx Hpy Hr Hfin Hx Hy Hb.
  destruct (Z.eq_dec dx 0) as [Ex|Nx], (Z.eq_dec dy 0) as [Ey|Ny].
  1: { subst. unfold Int.add. rewrite !Z.add_0_r, !wrap_small by assumption.
       apply observer_marked_Compute. }
  all: destruct (octants_cover_next px py dx dy Hx Hy ltac:(lia))
         as (oct & h & Hoct & Hh & E);
    apply (finished_ensures _
             (has_key (key (Int.add px dx) (Int.add py dy))) v Hfin);
    apply (Compute_ensures _ _ _ _ _ _ oct Hoct);
    pose proof (first_row_marked grid px py oct r fuel h Hr Hh) as H;
    rewrite E in H; apply H; exact Hb.
Qed.

(** ** A grid of walls *)

Section Blocked.

Variable grid : GridMap.
Variables px py oct r : Z.
Hypothesis px_small : Z.abs px <= 2 ^ 62.
Hypothesis py_small : Z.abs py <= 2 ^ 62.
Hypothesis r_small : r < 2 ^ 50.

Hypothesis blocked : forall x y,
  around px py r x y -> InBounds grid x y && negb (IsOpaque grid x y) = false.

Variables d0 k0 : Z.
Hypothesis d0_range : 1 <= d0 <= r.
Hypothesis k0_range : 0 <= k0 <= d0.
Hypothesis target_in_bounds :
  InBounds grid (distHeightXY px py d0 k0 oct).1
                (distHeightXY px py d0 k0 oct).2 = true.
Hypothesis target_near :
  distTo px py (distHeightXY px py d0 k0 oct).1
               (distHeightXY px py d0 k0 oct).2 < r.

Lemma blocked_cell (d k : Z) :
  1 <= d <= r -> 0 <= k <= d ->
  InBounds grid (distHeightXY px py d k oct).1
                (distHeightXY px py d k oct).2 &&
  negb (IsOpaque grid (distHeightXY px py d k oct).1
                      (distHeightXY px py d k oct).2) = false.
Proof.
  intros Hd Hk. apply blocked.
  destruct (distHeightXY_offsets px py d k oct px_small py_small Hk ltac:(lia))
    as (dx & dy & E & _ & Hx & Hy & Hmax).
  rewrite E. cbn [fst snd]. unfold around. lia.
Qed.

Lemma blocked_reach (fuel : nat) :
  forall (d k : Z) (inGap : bool),
    1 <= d <= d0 -> 0 <= k <= d -> (d = d0 -> k <= k0) ->
    ensures (fov_loop grid px py oct r fuel d (of_int d) one (of_int k) zero
               inGap)
      (has_key (key (distHeightXY px py d0 k0 oct).1
                    (distHeightXY px py d0 k0 oct).2)).
Proof.
  induction fuel as [|fuel IH]; intros d k inGap Hd Hk Hlast;
    [apply ensures_cut_off|].
  assert (Hband : leb (of_int k) (of_int d) = true) by (apply leb_of_int; lia).
  destruct (Z.eq_dec d d0) as [Ed|Nd].
  - destruct (Z.eq_dec k k0) as [Ek|Nk].
    + subst d k.
      pose proof (round_marks grid px py oct r fuel d0 (of_int d0) one
                    (of_int k0) zero inGap Hband) as H.
      rewrite to_int_of_int in H by lia. now apply H.
    + apply round_blocked_next; [exact Hband| |].
      * rewrite to_int_of_int by lia. apply blocked_cell; lia.
      * rewrite add_one_of_int by lia. apply IH; lia.
  - destruct (Z.eq_dec k d) as [Ek|Nk].
    + subst k. apply round_blocked_deeper; [exact Hband| | |].
      * rewrite to_int_of_int by lia. apply blocked_cell; lia.
      * apply eqb_of_int_refl. lia.
      * rewrite add_1_small by lia. unfold fov_with.
        replace (d + 1 >? r) with false
          by (symmetry; apply gtb_false; lia).
        fold (band zero (d + 1)). fold (band one (d + 1)).
        rewrite band_zero_exact, band_one_exact by lia.
        apply IH; lia.
    + apply round_blocked_next; [exact Hband| |].
      * rewrite to_int_of_int by lia. apply blocked_cell; lia.
      * rewrite add_one_of_int by lia. apply IH; lia.
Qed.

Lemma blocked_fov (fuel : nat) :
  ensures (fov grid px py oct r fuel 1 zero one)
    (has_key (key (distHeightXY px py d0 k0 oct).1
                  (distHeightXY px py d0 k0 oct).2)).
Proof.
  unfold fov, fov_with.
  replace (1 >? r) with false by (symmetry; apply gtb_false; lia).
  fold (band zero 1). fold (band one 1).
  rewrite band_zero_exact, band_one_exact by lia.
  apply blocked_reach; lia.
Qed.

End Blocked.

Lemma sum_squares_0 (a b : Z) : a * a + b * b = 0 -> a = 0 /\ b = 0.
Proof.
  intros H. pose proof (Z.square_nonneg a). pose proof (Z.square_nonneg b).
  assert (Ha : a * a = 0) by lia. assert (Hb : b * b = 0) by lia.
  apply Z.mul_eq_0 in Ha, Hb. lia.
Qed.

Lemma square_lt_abs (a b r : Z) : a * a + b * b < r * r -> 0 < r -> Z.abs a < r.
Proof.
  intros H Hr. pose proof (Z.square_nonneg b).
  destruct (Z.lt_ge_cases (Z.abs a) r) as [Hlt|Hge]; [exact Hlt|exfalso].
  assert (r * r <= Z.abs a * Z.abs a) by nia.
  assert (Z.abs a * Z.abs a = a * a) by (destruct (Z.abs_spec a) as [[_ ->]|[_ ->]]; ring).
  lia.
Qed.

Lemma disc_marked_blocked (fuel : nat) (grid : GridMap) (px py r : Z)
    (v : View) (x y : Z) :
  Z.abs px <= 2 ^ 62 -> Z.abs py <= 2 ^ 62 -> 0 <= r <= 2 ^ 25 ->
  (forall x y, around px py r x y ->
               InBounds grid x y && negb (IsOpaque grid x y) = false) ->
  finished (Compute fuel grid px py r) v = true ->
  InBounds grid x y = true ->
  (x - px) * (x - px) + (y - py) * (y - py) < r * r ->
  key x y ∈ Visible (view_after (Compute fuel grid px py r) v).
Proof.
  intros Hpx Hpy Hr Hbl Hfin Hb Hdisc.
  destruct (Z.eq_dec ((x - px) * (x - px) + (y - py) * (y - py)) 0) as [E0|N0].
  { apply sum_squares_0 in E0 as [Ex Ey].
    replace x with px by lia. replace y with py by lia.
    apply observer_marked_Compute. }
  assert (Hr0 : 0 < r).
  { pose proof (Z.square_nonneg (x - px)). pose proof (Z.square_nonneg (y - py)).
    destruct (Z.eq_dec r 0) as [->|]; lia. }
  assert (Hdx : Z.abs (x - px) < r) by (eapply square_lt_abs; eassumption).
  assert (Hdy : Z.abs (y - py) < r).
  { apply (square_lt_abs _ (x - px)); [lia | exact Hr0]. }
  destruct (octants_cover_small px py (x - px) (y - py) Hpx Hpy
              ltac:(lia) ltac:(lia)) as (oct & d & k & Hoct & Hk & Hd & E).
  replace (px + (x - px)) with x in E by lia.
  replace (py + (y - py)) with y in E by lia.
  assert (Hne : x <> px \/ y <> py).
  { destruct (Z.eq_dec x px) as [->|]; [|now left].
    destruct (Z.eq_dec y py) as [->|]; [|now right].
    exfalso. apply N0. ring. }
  assert (Hd1 : 1 <= d <= r) by lia.
  apply (finished_ensures _ (has_key (key x y)) v Hfin).
  apply (Compute_ensures _ _ _ _ _ _ oct Hoct).
  pose proof (blocked_fov grid px py oct r Hpx Hpy ltac:(lia) Hbl d k Hd1 Hk)
    as H.
  rewrite E in H. cbn [fst snd] in H. apply H; [exact Hb|].
  rewrite distTo_sqrt by lia.
  apply square_lt_sqrt;
    [pose proof (Z.square_nonneg (px - x));
     pose proof (Z.square_nonneg (py - y)); lia | lia |].
  replace ((px - x) * (px - x)) with ((x - px) * (x - px)) by ring.
  replace ((py - y) * (py - y)) with ((y - py) * (y - py)) by ring.
  exact Hdisc.
Qed.

(** * What the grid around the observer decides *)

(** ** An open room *)

Section OpenRoom.

Variable grid : GridMap.
Variables px py oct r : Z.
Hypothesis px_small : Z.abs px <= 2 ^ 62.
Hypothesis py_small : Z.abs py <= 2 ^ 62.

Hypothesis open : forall x y,
  around px py 1 x y -> InBounds grid x y = true /\ IsOpaque grid x y = false.

Lemma open_loop_keeps (fuel : nat) :
  forall (k : Z) (ls : float64),
    0 <= k <= 2 ->
    keeps (within px py 1)
      (fov_loop grid px py oct r fuel 1 (of_int 1) one (of_int k) ls false)
      (fun _ => True).
Proof.
  induction fuel as [|fuel IH]; intros k ls Hk; [apply keeps_cut_off|].
  rewrite fov_loop_S, leb_of_int_spec by lia.
  destruct (Z.leb_spec k 1) as [Hle|Hgt]; [|now apply keeps_ret].
  rewrite to_int_of_int by lia.
  destruct (distHeightXY_offsets px py 1 k oct px_small py_small
              ltac:(lia) ltac:(lia)) as (dx & dy & E & _ & Hx & Hy & Hmax).
  rewrite E.
  destruct (open (px + dx) (py + dy)) as [Hb Ho]; [unfold around; lia|].
  eapply keeps_bind; [apply near_keeps_at; intros s H; exact H|].
  intros near _. eapply keeps_bind.
  { apply keeps_when. intros _. apply mark_keeps_at. intros s H key Hkey.
    apply elem_of_marked in Hkey as [->|Hkey]; [|now apply H].
    exists (px + dx), (py + dy). split; [reflexivity | lia]. }
  intros _ _. eapply keeps_bind.
  { apply clear_value. intros s q H. exact H. }
  intros clear ->. rewrite Hb, Ho. cbn [andb negb].
  eapply keeps_bind; [apply keeps_when; discriminate|]. intros _ _.
  rewrite add_one_of_int by lia. apply IH. lia.
Qed.

Lemma open_fov_keeps (fuel : nat) :
  keeps (within px py 1) (fov grid px py oct r fuel 1 zero one)
    (fun _ => True).
Proof.
  unfold fov, fov_with.
  destruct (1 >? r); [now apply keeps_ret|].
  fold (band zero 1). fold (band one 1).
  rewrite band_zero_exact, band_one_exact by lia.
  apply open_loop_keeps. lia.
Qed.

End OpenRoom.

Lemma open_room_Compute (fuel : nat) (grid : GridMap) (px py r : Z)
    (s : machine) :
  Z.abs px <= 2 ^ 62 -> Z.abs py <= 2 ^ 62 ->
  (forall x y, around px py 1 x y ->
               InBounds grid x y = true /\ IsOpaque grid x y = false) ->
  within px py 1 (fst (Compute fuel grid px py r s)).
Proof.
  intros Hpx Hpy Hopen. rewrite Compute_unfold.
  refine (proj1 (for_range_keeps (within px py 1) _ 8 _ 1 _ _)).
  - intros i. now apply open_fov_keeps.
  - intros key Hkey. apply elem_of_marked in Hkey as [->|Hkey].
    + exists px, py. split; [reflexivity | lia].
    + simpl in Hkey. set_solver.
Qed.

(** ** The run depends on the grid around the observer only *)

Lemma same_run_refl {A} (m : M A) : same_run m m.
Proof. now intros s. Qed.

Lemma same_run_bind {A B} (m m' : M A) (k k' : A -> M B) :
  same_run m m' -> (forall a, same_run (k a) (k' a)) ->
  same_run (bind m k) (bind m' k').
Proof.
  intros Hm Hk s. unfold bind. rewrite Hm.
  destruct (m' s) as [s' [a|]]; [apply Hk | reflexivity].
Qed.

Lemma same_run_when (b : bool) (m m' : M unit) :
  same_run m m' -> same_run (when b m) (when b m').
Proof. destruct b; simpl; [easy | intros; apply same_run_refl]. Qed.

Lemma same_run_for_range (body body' : Z -> M unit) (n : nat) :
  (forall i, same_run (body i) (body' i)) ->
  forall i, same_run (for_range n i body) (for_range n i body').
Proof.
  intros H. induction n as [|n IH]; intros i; simpl.
  - apply same_run_refl.
  - apply same_run_bind; [apply H | intros; apply IH].
Qed.

Section Local.

Variables g g' : GridMap.
Variables px py oct r : Z.
Hypothesis px_small : Z.abs px <= 2 ^ 62.
Hypothesis py_small : Z.abs py <= 2 ^ 62.
Hypothesis r_small : r < 2 ^ 50.
Hypothesis same : same_around g g' px py r.

Lemma local_loop (fuel : nat) :
  forall (d kh : Z) (hs : float64) (k : Z) (ls : float64) (inGap : bool),
    1 <= d <= r -> 0 <= kh <= d -> hi_slope r hs -> lo_slope r ls ->
    0 <= k <= 2 ^ 53 -> (inGap = true -> 1 <= k) ->
    same_run
      (fov_loop g px py oct r fuel d (of_int kh) hs (of_int k) ls inGap)
      (fov_loop g' px py oct r fuel d (of_int kh) hs (of_int k) ls inGap).
Proof.
  induction fuel as [|fuel IH]; intros d kh hs k ls inGap Hd Hkh Hhs Hls Hk Hgap.
  - apply same_run_refl.
  - rewrite !fov_loop_S. rewrite leb_of_int_spec by lia.
    destruct (Z.leb_spec k kh) as [Hle|Hgt]; [|apply same_run_refl].
    rewrite to_int_of_int by lia.
    assert (Hdeep : forall ls' hs', lo_slope r ls' -> hi_slope r hs' ->
              same_run
                (fov_with r (fov_loop g px py oct r fuel) (Int.add d 1) ls' hs')
                (fov_with r (fov_loop g' px py oct r fuel) (Int.add d 1) ls'
                   hs')).
    { intros ls' hs' Hl Hh. rewrite add_1_small by lia. unfold fov_with.
      destruct (Z.gtb_spec (d + 1) r) as [Hgt|Hle']; [apply same_run_refl|].
      destruct (hi_band_all r r_small hs' (d + 1) Hh ltac:(lia))
        as (kh' & Hkh' & Ehi).
      destruct (lo_band_all r r_small ls' (d + 1) Hl ltac:(lia))
        as (kl' & Hkl' & Elo).
      fold (band ls' (d + 1)). fold (band hs' (d + 1)). rewrite Ehi, Elo.
      apply IH; first [lia | assumption | discriminate]. }
    assert (Hnext : forall ls' b, lo_slope r ls' ->
              same_run
                (fov_loop g px py oct r fuel d (of_int kh) hs
                   (F64.add (of_int k) one) ls' b)
                (fov_loop g' px py oct r fuel d (of_int kh) hs
                   (F64.add (of_int k) one) ls' b)).
    { intros ls' b Hl. rewrite add_one_of_int by lia.
      apply IH; first [lia | assumption]. }
    destruct (distHeightXY_offsets px py d k oct px_small py_small
                ltac:(lia) ltac:(lia)) as (dx & dy & E & _ & Hx & Hy & Hmax).
    rewrite E.
    destruct (same (px + dx) (py + dy)) as [Eb Eo]; [unfold around; lia|].
    apply same_run_bind.
    { intros s. unfold andM, bind, inBounds. now rewrite Eb. }
    intros near. apply same_run_bind; [apply same_run_refl|]. intros _.
    apply same_run_bind.
    { intros s. unfold andM, notM, bind, inBounds, isOpaque. rewrite <- Eb.
      destruct (InBounds g (px + dx) (py + dy)); [|reflexivity].
      now rewrite Eo. }
    intros [|].
    + apply same_run_bind.
      * destruct inGap; [|apply same_run_refl].
        apply Hdeep; [exact Hls|]. right. exists k, d.
        repeat split; first [lia | apply Hgap; reflexivity].
      * intros _. apply Hnext. right. exists k, d. repeat split; lia.
    + apply same_run_bind.
      * apply same_run_when. now apply Hdeep.
      * intros _. now apply Hnext.
Qed.

Lemma local_fov (fuel : nat) :
  same_run (fov g px py oct r fuel 1 zero one)
           (fov g' px py oct r fuel 1 zero one).
Proof.
  unfold fov, fov_with.
  destruct (Z.gtb_spec 1 r) as [Hgt|Hle]; [apply same_run_refl|].
  fold (band zero 1). fold (band one 1).
  rewrite band_zero_exact, band_one_exact by lia.
  apply local_loop; first [lia | now left | discriminate].
Qed.

End Local.

Lemma local_Compute (fuel : nat) (g g' : GridMap) (px py r : Z) :
  Z.abs px <= 2 ^ 62 -> Z.abs py <= 2 ^ 62 -> r < 2 ^ 50 ->
  same_around g g' px py r ->
  same_run (Compute fuel g px py r) (Compute fuel g' px py r).
Proof.
  intros Hpx Hpy Hr Hsame. unfold Compute.
  apply same_run_bind; [apply same_run_refl|]. intros _.
  apply same_run_bind; [apply same_run_refl|]. intros _.
  apply same_run_for_range. intros i. now apply local_fov.
Qed.

(** ** A ring of transparent cells *)

Section Ring.

Variable grid : GridMap.
Variables px py oct r j : Z.
Hypothesis px_small : Z.abs px <= 2 ^ 62.
Hypothesis py_small : Z.abs py <= 2 ^ 62.
Hypothesis r_small : r < 2 ^ 50.

Hypothesis ring : forall x y,
  Z.max (Z.abs (x - px)) (Z.abs (y - py)) = j ->
  InBounds grid x y = true /\ IsOpaque grid x y = false.

Lemma ring_loop_keeps (fuel : nat) :
  forall (d kh : Z) (hs : float64) (k : Z) (ls : float64) (inGap : bool),
    1 <= d <= r -> d <= j -> 0 <= kh <= d ->
    hi_slope r hs -> lo_slope r ls ->
    0 <= k <= 2 ^ 53 -> (inGap = true -> 1 <= k) ->
    (d = j -> inGap = false) ->
    keeps (within px py j)
      (fov_loop grid px py oct r fuel d (of_int kh) hs (of_int k) ls inGap)
      (fun _ => True).
Proof.
  induction fuel as [|fuel IH];
    intros d kh hs k ls inGap Hd Hdj Hkh Hhs Hls Hk Hgap Hring.
  - apply keeps_cut_off.
  - rewrite fov_loop_S. rewrite leb_of_int_spec by lia.
    destruct (Z.leb_spec k kh) as [Hle|Hgt]; [|now apply keeps_ret].
    rewrite to_int_of_int by lia.
    assert (Hdeep : forall ls' hs', d < j ->
              lo_slope r ls' -> hi_slope r hs' ->
              keeps (within px py j)
                (fov_with r (fov_loop grid px py oct r fuel) (Int.add d 1)
                   ls' hs') (fun _ => True)).
    { intros ls' hs' Hlt Hl Hh. rewrite add_1_small by lia. unfold fov_with.
      destruct (Z.gtb_spec (d + 1) r) as [Hgt|Hle']; [now apply keeps_ret|].
      destruct (hi_band_all r r_small hs' (d + 1) Hh ltac:(lia))
        as (kh' & Hkh' & Ehi).
      destruct (lo_band_all r r_small ls' (d + 1) Hl ltac:(lia))
        as (kl' & Hkl' & Elo).
      fold (band ls' (d + 1)). fold (band hs' (d + 1)). rewrite Ehi, Elo.
      apply IH; first [lia | assumption | discriminate | reflexivity]. }
    assert (Hnext : forall ls' g', lo_slope r ls' -> (d = j -> g' = false) ->
              keeps (within px py j)
                (fov_loop grid px py oct r fuel d (of_int kh) hs
                   (F64.add (of_int k) one) ls' g') (fun _ => True)).
    { intros ls' g' Hl Hg. rewrite add_one_of_int by lia.
      apply IH; first [lia | assumption]. }
    destruct (distHeightXY_offsets px py d k oct px_small py_small
                ltac:(lia) ltac:(lia)) as (dx & dy & E & _ & Hx & Hy & Hmax).
    rewrite E.
    eapply keeps_bind; [apply near_keeps_at; intros s H; exact H|].
    intros near _. eapply keeps_bind.
    { apply keeps_when. intros _. apply mark_keeps_at. intros s H key Hkey.
      apply elem_of_marked in Hkey as [->|Hkey]; [|now apply H].
      exists (px + dx), (py + dy). split; [reflexivity | lia]. }
    intros _ _. eapply keeps_bind.
    { apply clear_value. intros s q H. exact H. }
    intros clear ->.
    destruct (Z.eq_dec d j) as [Edj|Ndj].
    + destruct (ring (px + dx) (py + dy)) as [Hb Ho]; [lia|].
      rewrite Hb, Ho. cbn [andb negb]. rewrite (Hring Edj).
      eapply keeps_bind; [apply keeps_when; discriminate|]. intros _ _.
      apply Hnext; [|reflexivity]. right. exists k, d. repeat split; lia.
    + destruct (InBounds grid (px + dx) (py + dy) &&
                negb (IsOpaque grid (px + dx) (py + dy))).
      * eapply keeps_bind.
        -- apply keeps_when. intros ->. apply Hdeep; [lia | exact Hls|].
           right. exists k, d.
           repeat split; first [lia | apply Hgap; reflexivity].
        -- intros _ _. apply Hnext; [|lia].
           right. exists k, d. repeat split; lia.
      * eapply keeps_bind.
        -- apply keeps_when. intros _. apply Hdeep; [lia | exact Hls | exact Hhs].
        -- intros _ _. apply Hnext; [exact Hls | lia].
Qed.

Lemma ring_fov_keeps (fuel : nat) :
  1 <= j ->
  keeps (within px py j) (fov grid px py oct r fuel 1 zero one)
    (fun _ => True).
Proof.
  intros Hj. unfold fov, fov_with.
  destruct (Z.gtb_spec 1 r) as [Hgt|Hle]; [now apply keeps_ret|].
  fold (band zero 1). fold (band one 1).
  rewrite band_zero_exact, band_one_exact by lia.
  apply ring_loop_keeps; first [lia | now left | discriminate | reflexivity].
Qed.

End Ring.

Lemma within_Compute (fuel : nat) (grid : GridMap) (px py r j : Z)
    (s : machine) :
  Z.abs px <= 2 ^ 62 -> Z.abs py <= 2 ^ 62 -> r < 2 ^ 50 -> 1 <= j ->
  (forall x y, Z.max (Z.abs (x - px)) (Z.abs (y - py)) = j ->
               InBounds grid x y = true /\ IsOpaque grid x y = false) ->
  within px py j (fst (Compute fuel grid px py r s)).
Proof.
  intros Hpx Hpy Hr Hj Hring. rewrite Compute_unfold.
  refine (proj1 (for_range_keeps (within px py j) _ 8 _ 1 _ _)).
  - intros i. now apply ring_fov_keeps.
  - intros key Hkey. apply elem_of_marked in Hkey as [->|Hkey].
    + exists px, py. split; [reflexivity | lia].
    + simpl in Hkey. set_solver.
Qed.

(** ** A larger radius *)

Lemma holds_keeps_fov_loop (V : gridSet) (grid : GridMap) (px py oct rad : Z)
    (fuel : nat) dist high highSlope height lowSlope inGap :
  keeps (holds V)
    (fov_loop grid px py oct rad fuel dist high highSlope height lowSlope
       inGap) (fun _ => True).
Proof.
  apply fov_loop_keeps; auto.
  intros s x y _ _ H. unfold holds in *. simpl. set_solver.
Qed.

Lemma holds_keeps_fov_with (V : gridSet) (grid : GridMap) (px py oct rad : Z)
    (fuel : nat) dist lowSlope highSlope :
  keeps (holds V)
    (fov_with rad (fov_loop grid px py oct rad fuel) dist lowSlope highSlope)
    (fun _ => True).
Proof.
  apply (fov_keeps grid px py oct rad (holds V)); auto.
  intros s x y _ _ H. unfold holds in *. simpl. set_solver.
Qed.

Lemma holds_after {A} (V : gridSet) (m : M A) (s t : machine) (a : option A) :
  (forall W, keeps (holds W) m (fun _ => True)) ->
  holds V s -> m s = (t, a) -> holds V t.
Proof.
  intros Hm Hs E. pose proof (proj1 (Hm V s Hs)) as H. now rewrite E in H.
Qed.

Lemma follows_ret {A} (R : A -> A -> Prop) (a a' : A) :
  R a a' -> follows R (ret a) (ret a').
Proof.
  intros HR s s' t' b' Hs [= <- <-]. split; [exact Hs|].
  simpl. now intros b [= <-].
Qed.

(** A computation that stops at once is followed by any that only adds. *)
Lemma follows_stop {A} (R : A -> A -> Prop) (m m' : M A) :
  (forall s, fst (m s) = s) ->
  (forall s a, snd (m s) = Some a -> forall a', R a a') ->
  (forall W, keeps (holds W) m' (fun _ => True)) ->
  follows R m m'.
Proof.
  intros Hm Hv Hm' s s' t' a' Hs E. rewrite Hm. split.
  - eapply holds_after; eauto.
  - intros a Ha. eapply Hv. exact Ha.
Qed.

Lemma follows_bind {A B} (R : A -> A -> Prop) (R' : B -> B -> Prop)
    (m m' : M A) (k k' : A -> M B) :
  follows R m m' ->
  (forall a a', R a a' -> follows R' (k a) (k' a')) ->
  (forall a' W, keeps (holds W) (k' a') (fun _ => True)) ->
  follows R' (bind m k) (bind m' k').
Proof.
  intros Hm Hk Hk' s s' t' b' Hs. unfold bind.
  destruct (m' s') as [s1' [a'|]] eqn:E'; [|discriminate].
  intros Ek'. destruct (Hm s s' s1' a' Hs E') as [H1 Hv].
  destruct (m s) as [s1 [a|]]; simpl in *.
  - apply (Hk a a' (Hv a eq_refl) s1 s1' t' b' H1 Ek').
  - split; [|discriminate]. eapply holds_after; eauto.
Qed.

Lemma follows_near (grid : GridMap) (px py r r' x y : Z) :
  r <= r' ->
  follows (fun b b' => b = true -> b' = true)
    (andM (inBounds grid x y) (ret (distTo px py x y <? r)))
    (andM (inBounds grid x y) (ret (distTo px py x y <? r'))).
Proof.
  intros Hr s s' t' a' Hs. unfold andM, bind, inBounds. simpl.
  destruct (InBounds grid x y); simpl.
  - intros [= <- <-]. split; [exact Hs|]. intros a [= <-] H.
    apply Z.ltb_lt in H. apply Z.ltb_lt. lia.
  - intros [= <- <-]. split; [exact Hs|]. now intros a [= <-].
Qed.

Lemma follows_mark (b b' : bool) (x y : Z) :
  (b = true -> b' = true) ->
  follows (fun _ _ => True) (when b (mark x y)) (when b' (mark x y)).
Proof.
  intros Hb s s' t' a' Hs. unfold holds in *.
  destruct b, b'; simpl; [| discriminate (Hb eq_refl) | |];
    intros E; injection E as <- _; (split; [|easy]); simpl.
  - now apply union_mono_l.
  - now apply union_subseteq_r'.
  - exact Hs.
Qed.

Lemma follows_clear (grid : GridMap) (x y : Z) :
  follows eq (andM (inBounds grid x y) (notM (isOpaque grid x y)))
             (andM (inBounds grid x y) (notM (isOpaque grid x y))).
Proof.
  intros s s' t' a' Hs. unfold andM, notM, bind, inBounds, isOpaque. simpl.
  destruct (InBounds grid x y); simpl; intros [= <- <-];
    (split; [exact Hs | now intros a [= <-]]).
Qed.

Lemma holds_keeps_when (V : gridSet) (b : bool) (m : M unit) :
  keeps (holds V) m (fun _ => True) ->
  keeps (holds V) (when b m) (fun _ => True).
Proof. intros H. apply keeps_when. intros _. exact H. Qed.

Lemma holds_keeps_near (V : gridSet) (grid : GridMap) (px py rad x y : Z) :
  keeps (holds V) (andM (inBounds grid x y) (ret (distTo px py x y <? rad)))
    (fun _ => True).
Proof.
  eapply keeps_weaken; [apply near_keeps_at|easy]. intros s H. exact H.
Qed.

Lemma holds_keeps_clear (V : gridSet) (grid : GridMap) (x y : Z) :
  keeps (holds V) (andM (inBounds grid x y) (notM (isOpaque grid x y)))
    (fun _ => True).
Proof. apply clear_keeps_at; intros; assumption. Qed.

Lemma holds_keeps_mark (V : gridSet) (x y : Z) :
  keeps (holds V) (mark x y) (fun _ => True).
Proof.
  apply mark_keeps_at. intros s H. unfold holds in *. simpl. set_solver.
Qed.

Ltac adds :=
  repeat first
    [ apply holds_keeps_fov_loop
    | apply holds_keeps_fov_with
    | apply holds_keeps_when
    | apply holds_keeps_mark
    | apply holds_keeps_clear
    | apply holds_keeps_near
    | match goal with
      | |- keeps _ (if ?b then _ else _) _ => destruct b
      | |- keeps _ (bind _ _) _ => eapply keeps_bind; [|intros ? _]
      end ].

Lemma follows_when (b : bool) (m m' : M unit) :
  follows (fun _ _ => True) m m' ->
  follows (fun _ _ => True) (when b m) (when b m').
Proof. destruct b; simpl; [easy | intros; now apply follows_ret]. Qed.

Lemma follows_for_range (body body' : Z -> M unit) :
  (forall i, follows (fun _ _ => True) (body i) (body' i)) ->
  (forall i W, keeps (holds W) (body' i) (fun _ => True)) ->
  forall (n : nat) (i : Z),
    follows (fun _ _ => True) (for_range n i body) (for_range n i body').
Proof.
  intros H Hadds. induction n as [|n IH]; intros i; simpl.
  - now apply follows_ret.
  - eapply follows_bind; [apply H | intros; apply IH|].
    intros _ W. apply for_range_keeps. intros i'. apply Hadds.
Qed.

Section LargerRadius.

Variable grid : GridMap.
Variables px py oct r r' : Z.
Hypothesis r_le : r <= r'.

Lemma follows_fov_loop (fuel' : nat) :
  forall (fuel : nat) dist high highSlope height lowSlope inGap,
    follows (fun _ _ => True)
      (fov_loop grid px py oct r fuel dist high highSlope height lowSlope
         inGap)
      (fov_loop grid px py oct r' fuel' dist high highSlope height lowSlope
         inGap).
Proof.
  induction fuel' as [|fuel' IH]; intros.
  - intros s s' t' a' _. simpl. discriminate.
  - destruct fuel as [|fuel].
    + apply follows_stop; [easy | easy |].
      intros W. apply holds_keeps_fov_loop.
    + assert (Hdeep : forall d ls hs,
                follows (fun _ _ => True)
                  (fov_with r (fov_loop grid px py oct r fuel) d ls hs)
                  (fov_with r' (fov_loop grid px py oct r' fuel') d ls hs)).
      { intros d ls hs. unfold fov_with.
        destruct (Z.gtb_spec d r) as [Hgt|Hle].
        - apply follows_stop; [easy | easy |]. intros W.
          apply (holds_keeps_fov_with W grid px py oct r' fuel' d ls hs).
        - replace (d >? r') with false by (symmetry; apply gtb_false; lia).
          apply IH. }
      rewrite !fov_loop_S.
      destruct (leb height high); [|now apply follows_ret].
      destruct (distHeightXY px py dist (to_int height) oct) as [mapx mapy].
      eapply follows_bind;
        [now apply follows_near | intros near near' Hn | intros near' W; adds].
      eapply follows_bind;
        [now apply follows_mark | intros _ _ _ | intros _ W; adds].
      eapply follows_bind;
        [apply follows_clear | intros c c' <- | intros c' W; adds].
      destruct c.
      * eapply follows_bind;
          [apply follows_when, Hdeep | intros; apply IH | intros; adds].
      * eapply follows_bind;
          [apply follows_when, Hdeep | intros; apply IH | intros; adds].
Qed.

Lemma follows_fov (fuel fuel' : nat) :
  follows (fun _ _ => True)
    (fov grid px py oct r fuel 1 zero one)
    (fov grid px py oct r' fuel' 1 zero one).
Proof.
  unfold fov, fov_with.
  destruct (Z.gtb_spec 1 r) as [Hgt|Hle].
  - apply follows_stop; [easy | easy |]. intros W.
    apply (holds_keeps_fov_with W grid px py oct r' fuel' 1 zero one).
  - replace (1 >? r') with false by (symmetry; apply gtb_false; lia).
    apply follows_fov_loop.
Qed.

End LargerRadius.

Lemma follows_Compute (fuel fuel' : nat) (grid : GridMap) (px py r r' : Z)
    (v v' : View) :
  r <= r' ->
  finished (Compute fuel' grid px py r') v' = true ->
  Visible (view_after (Compute fuel grid px py r) v) ⊆
  Visible (view_after (Compute fuel' grid px py r') v').
Proof.
  intros Hr Hfin. unfold finished, view_after, run in *.
  rewrite !Compute_unfold in *.
  destruct (for_range 8 1 (fun i => fov grid px py i r' fuel' 1 zero one) _)
    as [t' [a'|]] eqn:E; [|discriminate].
  assert (H : holds
            (Visible (view (fst (for_range 8 1
               (fun i => fov grid px py i r fuel 1 zero one)
               (marked px py (cleared {| view := v; queries := nil |})))))) t').
  { refine (proj1 (follows_for_range _ _ _ _ 8 1 _ _ t' a' _ E)).
    - intros i. now apply follows_fov.
    - intros i W.
      apply (holds_keeps_fov_with W grid px py i r' fuel' 1 zero one).
    - unfold holds. simpl. set_solver. }
  unfold holds in H. cbn [fst]. exact H.
Qed.

(** * The scan and the state *)

(** ** The scan does not read the state *)

Lemma onto_blank (s : machine) : onto s blank = s.
Proof.
  destruct s as [[V] qs]. unfold onto, blank. simpl.
  f_equal. f_equal. apply (left_id_L ∅ (∪)).
Qed.

Lemma onto_onto (s e1 e2 : machine) :
  onto (onto s e1) e2 = onto s (onto e1 e2).
Proof.
  unfold onto. simpl. f_equal.
  - f_equal. apply (assoc_L (∪)).
  - apply app_assoc.
Qed.

Lemma framed_ret {A} (a : A) : framed (ret a).
Proof. intros s. unfold ret. simpl. now rewrite onto_blank. Qed.

Lemma framed_cut_off {A} : framed (@cut_off A).
Proof. intros s. unfold cut_off. simpl. now rewrite onto_blank. Qed.

Lemma framed_bind {A B} (m : M A) (k : A -> M B) :
  framed m -> (forall a, framed (k a)) -> framed (bind m k).
Proof.
  intros Hm Hk s. unfold bind. rewrite (Hm s).
  destruct (m blank) as [e1 [a|]]; simpl.
  - rewrite (Hk a (onto s e1)), (Hk a e1). simpl.
    now rewrite onto_onto.
  - reflexivity.
Qed.

Lemma framed_when (b : bool) (m : M unit) : framed m -> framed (when b m).
Proof. destruct b; simpl; [easy | intros; apply framed_ret]. Qed.

Lemma framed_logged (q : query) (s : machine) :
  logged q s = onto s (logged q blank).
Proof.
  destruct s as [[V] qs]. unfold onto, logged, blank. simpl.
  f_equal. f_equal. symmetry. apply (left_id_L ∅ (∪)).
Qed.

Lemma framed_inBounds (grid : GridMap) (x y : Z) : framed (inBounds grid x y).
Proof. intros s. unfold inBounds. simpl. now rewrite <- framed_logged. Qed.

Lemma framed_isOpaque (grid : GridMap) (x y : Z) : framed (isOpaque grid x y).
Proof. intros s. unfold isOpaque. simpl. now rewrite <- framed_logged. Qed.

Lemma framed_mark (x y : Z) : framed (mark x y).
Proof.
  intros s. destruct s as [[V] qs]. unfold mark, marked, onto, blank. simpl.
  f_equal. f_equal. f_equal. now rewrite (right_id_L ∅ (∪)).
Qed.

Lemma framed_andM (a b : M bool) : framed a -> framed b -> framed (andM a b).
Proof.
  intros Ha Hb. apply framed_bind; [exact Ha|].
  intros [|]; [exact Hb | apply framed_ret].
Qed.

Lemma framed_notM (a : M bool) : framed a -> framed (notM a).
Proof. intros Ha. apply framed_bind; [exact Ha|]. intros b. apply framed_ret. Qed.

Lemma framed_fov_with (rad : Z) loop :
  (forall d hi hs h ls g, framed (loop d hi hs h ls g)) ->
  forall dist ls hs, framed (fov_with rad loop dist ls hs).
Proof.
  intros H dist ls hs. unfold fov_with.
  destruct (dist >? rad); [apply framed_ret | apply H].
Qed.

Lemma framed_fov_loop (grid : GridMap) (px py oct rad : Z) (fuel : nat) :
  forall dist high highSlope height lowSlope inGap,
    framed (fov_loop grid px py oct rad fuel dist high highSlope height
              lowSlope inGap).
Proof.
  induction fuel as [|fuel IH]; intros; [apply framed_cut_off|].
  rewrite fov_loop_S.
  destruct (leb height high); [|apply framed_ret].
  destruct (distHeightXY px py dist (to_int height) oct) as [mapx mapy].
  apply framed_bind.
  { apply framed_andM; [apply framed_inBounds | apply framed_ret]. }
  intros near. apply framed_bind; [apply framed_when, framed_mark|].
  intros _. apply framed_bind.
  { apply framed_andM; [apply framed_inBounds|].
    apply framed_notM, framed_isOpaque. }
  intros [|].
  - apply framed_bind; [|intros; apply IH].
    apply framed_when, framed_fov_with. intros; apply IH.
  - apply framed_bind; [|intros; apply IH].
    apply framed_when, framed_fov_with. intros; apply IH.
Qed.

Lemma framed_fov (grid : GridMap) (px py oct rad : Z) (fuel : nat)
    (dist : Z) (lowSlope highSlope : float64) :
  framed (fov grid px py oct rad fuel dist lowSlope highSlope).
Proof. apply framed_fov_with, framed_fov_loop. Qed.

(** What a row of scans leaves is what was there and what the scans add,
    each on its own; all of it, when the row finishes. *)
Lemma for_range_adds (body : Z -> M unit) :
  (forall i, framed (body i)) ->
  forall (n : nat) (i : Z) (s : machine) (k : string),
    k ∈ Visible (view (fst (for_range n i body s))) ->
    k ∈ Visible (view s) \/
    exists j, i <= j < i + Z.of_nat n /\
              k ∈ Visible (view (fst (body j blank))).
Proof.
  intros Hbody. induction n as [|n IH]; intros i s k.
  - simpl. now left.
  - simpl. unfold bind. rewrite (Hbody i s).
    destruct (body i blank) as [e [[]|]] eqn:E; simpl.
    + intros H. apply IH in H as [H|(j & Hj & H)].
      * simpl in H. apply elem_of_union in H as [H|H]; [|now left].
        right. exists i. rewrite E. split; [lia | exact H].
      * right. exists j. split; [lia | exact H].
    + intros H. apply elem_of_union in H as [H|H]; [|now left].
      right. exists i. rewrite E. split; [lia | exact H].
Qed.

Lemma for_range_union (body : Z -> M unit) :
  (forall i, framed (body i)) ->
  forall (n : nat) (i : Z) (s s' : machine) (k : string),
    for_range n i body s = (s', Some tt) ->
    (k ∈ Visible (view s') <->
     k ∈ Visible (view s) \/
     exists j, i <= j < i + Z.of_nat n /\
               k ∈ Visible (view (fst (body j blank)))).
Proof.
  intros Hbody. induction n as [|n IH]; intros i s s' k.
  - simpl. intros [= <-]. split; [now left|].
    intros [H|(j & Hj & _)]; [exact H | lia].
  - simpl. unfold bind. rewrite (Hbody i s).
    destruct (body i blank) as [e [[]|]] eqn:E; simpl; [|discriminate].
    intros Hrest. rewrite (IH _ _ _ k Hrest). simpl.
    rewrite elem_of_union. split.
    + intros [[H|H]|(j & Hj & H)].
      * right. exists i. rewrite E. split; [lia | exact H].
      * now left.
      * right. exists j. split; [lia | exact H].
    + intros [H|(j & Hj & H)].
      * left. now right.
      * destruct (Z.eq_dec j i) as [->|Hne].
        -- left. left. now rewrite E in H.
        -- right. exists j. split; [lia | exact H].
Qed.

(** ** The queries of a round *)

Lemma rounds_round {A} (grid : GridMap) (x y : Z) (b : bool)
    (k : bool -> M A) :
  (forall c, keeps (fun s => rounds grid (queries s)) (k c) (fun _ => True)) ->
  keeps (fun s => rounds grid (queries s))
    (near <- andM (inBounds grid x y) (ret b) ;;
     when near (mark x y) ;;
     clear <- andM (inBounds grid x y) (notM (isOpaque grid x y)) ;;
     k clear)
    (fun _ => True).
Proof.
  intros Hk s Hs.
  unfold bind, andM, notM, inBounds, isOpaque, when, mark, ret. simpl.
  destruct (InBounds grid x y) eqn:Hb; simpl.
  - destruct b; simpl; apply Hk; simpl; now apply rounds_in.
  - apply Hk; simpl. now apply rounds_out.
Qed.

Lemma rounds_fov_with (grid : GridMap) (rad : Z) loop :
  (forall d hi hs h ls g,
     keeps (fun s => rounds grid (queries s)) (loop d hi hs h ls g)
       (fun _ => True)) ->
  forall dist ls hs,
    keeps (fun s => rounds grid (queries s)) (fov_with rad loop dist ls hs)
      (fun _ => True).
Proof.
  intros H dist ls hs. unfold fov_with.
  destruct (dist >? rad); [now apply keeps_ret | apply H].
Qed.

Lemma rounds_fov_loop (grid : GridMap) (px py oct rad : Z) (fuel : nat) :
  forall dist high highSlope height lowSlope inGap,
    keeps (fun s => rounds grid (queries s))
      (fov_loop grid px py oct rad fuel dist high highSlope height lowSlope
         inGap) (fun _ => True).
Proof.
  induction fuel as [|fuel IH]; intros; [apply keeps_cut_off|].
  rewrite fov_loop_S.
  destruct (leb height high); [|now apply keeps_ret].
  destruct (distHeightXY px py dist (to_int height) oct) as [mapx mapy].
  apply rounds_round. intros [|].
  - eapply keeps_bind; [|intros; apply IH].
    apply keeps_when. intros _. apply rounds_fov_with. intros; apply IH.
  - eapply keeps_bind; [|intros; apply IH].
    apply keeps_when. intros _. apply rounds_fov_with. intros; apply IH.
Qed.

Lemma rounds_Compute (fuel : nat) (grid : GridMap) (px py r : Z)
    (s : machine) :
  rounds grid (queries s) ->
  rounds grid (queries (fst (Compute fuel grid px py r s))).
Proof.
  intros Hs. rewrite Compute_unfold.
  refine (proj1 (for_range_keeps (fun s => rounds grid (queries s)) _ 8 _ 1
                   (marked px py (cleared s)) Hs)).
  intros i. apply rounds_fov_with, rounds_fov_loop.
Qed.

(** * The earlier engine *)

(** ** Decimal numerals *)

Lemma append_assoc (a b c : string) : (a +:+ b) +:+ c = a +:+ (b +:+ c).
Proof.
  induction a as [|ch a IH]; [reflexivity|].
  change (String ch ((a +:+ b) +:+ c) = String ch (a +:+ (b +:+ c))).
  now rewrite IH.
Qed.

Lemma pretty_N_go_app (x : N) (s : string) :
  pretty_N_go x s = pretty_N_go x "" +:+ s.
Proof.
  revert s. induction (N.lt_wf_0 x) as [x _ IH]. intros s.
  destruct (decide (x = 0)%N) as [->|Hx].
  - now rewrite !pretty_N_go_0.
  - rewrite !(pretty_N_go_step x) by lia.
    rewrite (IH (x `div` 10)%N) by (apply N.div_lt; lia).
    rewrite (IH (x `div` 10)%N ltac:(apply N.div_lt; lia)
               (String _ "")).
    now rewrite append_assoc.
Qed.

Lemma pretty_Z_pos (z : Z) : 0 < z -> pretty z = pretty_N_go (Z.to_N z) "".
Proof.
  destruct z as [|p|p]; try lia. intros _.
  unfold pretty, pretty_Z, pretty, pretty_positive, pretty, pretty_N.
  now rewrite decide_False by lia.
Qed.

Lemma pretty_digit (d : Z) :
  0 <= d <= 9 -> pretty d = String (pretty_N_char (Z.to_N d)) "".
Proof.
  intros Hd.
  assert (E : d = 0 \/ d = 1 \/ d = 2 \/ d = 3 \/ d = 4 \/ d = 5 \/ d = 6 \/
              d = 7 \/ d = 8 \/ d = 9) by lia.
  repeat (destruct E as [->|E]; [reflexivity|]). now subst.
Qed.

(** The numeral of [10 * a + d] is the numeral of [a] followed by the digit
    [d]. *)
Lemma pretty_snoc (a d : Z) :
  1 <= a -> 0 <= d <= 9 -> pretty (10 * a + d) = pretty a +:+ pretty d.
Proof.
  intros Ha Hd. rewrite !pretty_Z_pos, pretty_digit by lia.
  rewrite pretty_N_go_step by lia.
  replace (Z.to_N (10 * a + d) `div` 10)%N with (Z.to_N a).
  2:{ apply N.div_unique with (Z.to_N d); lia. }
  replace (Z.to_N (10 * a + d) `mod` 10)%N with (Z.to_N d).
  2:{ apply N.mod_unique with (Z.to_N a); lia. }
  apply pretty_N_go_app.
Qed.

(** Without the comma two cells can have the same key. *)
Lemma key_clash (a d : Z) :
  1 <= a -> 1 <= d <= 9 ->
  MapFOV.key (10 * a + d) 0 = MapFOV.key a (10 * d).
Proof.
  intros Ha Hd. unfold MapFOV.key.
  rewrite pretty_snoc by lia.
  replace (10 * d) with (10 * d + 0) by lia.
  rewrite (pretty_snoc d 0) by lia. apply append_assoc.
Qed.

(** ** The two engines side by side *)

Lemma mirrors_ret {A} (a : A) : mirrors (ret a) (ret a).
Proof. intros s s' H. now split. Qed.

Lemma mirrors_cut_off {A} : mirrors (@cut_off A) (@cut_off A).
Proof. intros s s' H. now split. Qed.

Lemma mirrors_bind {A B} (m m' : M A) (k k' : A -> M B) :
  mirrors m m' -> (forall a, mirrors (k a) (k' a)) ->
  mirrors (bind m k) (bind m' k').
Proof.
  intros Hm Hk s s' H. unfold bind. destruct (Hm s s' H) as [Hc Hv].
  destruct (m s) as [s1 [a|]], (m' s') as [s1' [a'|]]; simpl in *;
    try discriminate.
  - injection Hv as <-. now apply Hk.
  - now split.
Qed.

Lemma mirrors_when (b : bool) (m m' : M unit) :
  mirrors m m' -> mirrors (when b m) (when b m').
Proof. destruct b; simpl; [easy | intros; apply mirrors_ret]. Qed.

Lemma mirrors_logged (q : query) (s s' : machine) :
  covers s s' -> covers (logged q s) (logged q s').
Proof. intros [Hq Hv]. split; [simpl; now rewrite Hq | exact Hv]. Qed.

Lemma mirrors_inBounds (grid : GridMap) (x y : Z) :
  mirrors (inBounds grid x y) (inBounds grid x y).
Proof. intros s s' H. split; [now apply mirrors_logged | reflexivity]. Qed.

Lemma mirrors_isOpaque (grid : GridMap) (x y : Z) :
  mirrors (isOpaque grid x y) (isOpaque grid x y).
Proof. intros s s' H. split; [now apply mirrors_logged | reflexivity]. Qed.

Lemma mirrors_andM (a a' b b' : M bool) :
  mirrors a a' -> mirrors b b' -> mirrors (andM a b) (andM a' b').
Proof.
  intros Ha Hb. apply mirrors_bind; [exact Ha|].
  intros [|]; [exact Hb | apply mirrors_ret].
Qed.

Lemma mirrors_notM (a a' : M bool) :
  mirrors a a' -> mirrors (notM a) (notM a').
Proof.
  intros Ha. apply mirrors_bind; [exact Ha|]. intros b. apply mirrors_ret.
Qed.

Lemma mirrors_mark (x y : Z) : mirrors (mark x y) (MapFOV.mark x y).
Proof.
  intros s s' [Hq Hv]. split; [|reflexivity]. split; [exact Hq|].
  intros x' y' Hk. apply elem_of_marked in Hk as [E|Hk]; simpl.
  - apply Key.key_inj in E as [-> ->]. set_solver.
  - apply Hv in Hk. set_solver.
Qed.

Lemma mirrors_reset : mirrors reset reset.
Proof.
  intros s s' [Hq Hv]. split; [|reflexivity]. split; [exact Hq|].
  simpl. set_solver.
Qed.

Lemma mirrors_fov_with (rad : Z) loop loop' :
  (forall d hi hs h ls g, mirrors (loop d hi hs h ls g) (loop' d hi hs h ls g)) ->
  forall dist ls hs,
    mirrors (fov_with rad loop dist ls hs) (fov_with rad loop' dist ls hs).
Proof.
  intros H dist ls hs. unfold fov_with.
  destruct (dist >? rad); [apply mirrors_ret | apply H].
Qed.

Lemma mirrors_fov_loop (grid : GridMap) (px py oct rad : Z) (fuel : nat) :
  forall dist high highSlope height lowSlope inGap,
    mirrors
      (fov_loop grid px py oct rad fuel dist high highSlope height lowSlope
         inGap)
      (MapFOV.fov_loop grid px py oct rad fuel dist high highSlope height
         lowSlope inGap).
Proof.
  induction fuel as [|fuel IH]; intros; [apply mirrors_cut_off|].
  rewrite fov_loop_S. cbn [MapFOV.fov_loop].
  destruct (leb height high); [|apply mirrors_ret].
  destruct (distHeightXY px py dist (to_int height) oct) as [mapx mapy].
  apply mirrors_bind.
  { apply mirrors_andM; [apply mirrors_inBounds | apply mirrors_ret]. }
  intros near. apply mirrors_bind.
  { apply mirrors_when, mirrors_mark. }
  intros _. apply mirrors_bind.
  { apply mirrors_andM; [apply mirrors_inBounds|].
    apply mirrors_notM, mirrors_isOpaque. }
  intros [|].
  - apply mirrors_bind; [|intros; apply IH].
    apply mirrors_when, mirrors_fov_with. intros; apply IH.
  - apply mirrors_bind; [|intros; apply IH].
    apply mirrors_when, mirrors_fov_with. intros; apply IH.
Qed.

Lemma mirrors_for_range (body body' : Z -> M unit) (n : nat) :
  (forall i, mirrors (body i) (body' i)) ->
  forall i, mirrors (for_range n i body) (for_range n i body').
Proof.
  intros H. induction n as [|n IH]; intros i; simpl.
  - apply mirrors_ret.
  - apply mirrors_bind; [apply H | intros; apply IH].
Qed.

Lemma mirrors_Compute (fuel : nat) (grid : GridMap) (px py r : Z) :
  mirrors (Compute fuel grid px py r) (MapFOV.ComputeFOV fuel grid px py r).
Proof.
  unfold Compute, MapFOV.ComputeFOV.
  apply mirrors_bind; [apply mirrors_reset|]. intros _.
  apply mirrors_bind; [apply mirrors_mark|]. intros _.
  apply mirrors_for_range. intros i.
  apply mirrors_fov_with, mirrors_fov_loop.
Qed.

Lemma covers_start (v v' : View) :
  covers (cleared {| view := v; queries := nil |})
         (cleared {| view := v'; queries := nil |}).
Proof. split; [reflexivity|]. simpl. set_solver. Qed.

Lemma mirrors_after_reset (fuel : nat) (grid : GridMap) (px py r : Z)
    (v v' : View) :
  covers (fst (run (Compute fuel grid px py r) v))
         (fst (run (MapFOV.ComputeFOV fuel grid px py r) v')) /\
  snd (run (Compute fuel grid px py r) v) =
  snd (run (MapFOV.ComputeFOV fuel grid px py r) v').
Proof.
  assert (Hbody : forall a : unit,
            mirrors
              (for_range 8 1 (fun i => fov grid px py i r fuel 1 zero one))
              (for_range 8 1
                 (fun i => MapFOV.fov grid px py i r fuel 1 zero one))).
  { intros _. apply mirrors_for_range. intros i.
    apply mirrors_fov_with, mirrors_fov_loop. }
  exact (mirrors_bind (mark px py) (MapFOV.mark px py) _ _
           (mirrors_mark px py) Hbody _ _ (covers_start v v')).
Qed.

(** * The scan on the call stack *)


(** ** With room enough, the stack is not felt *)





(** ** A run that returns is the run on a stack without a bound *)





(** ** Without room enough, the run ends on the stack *)

Section Overflow.

Variables px py oct rad : Z.





End Overflow.


(** * Properties of the engine *)

(** ** The octant transform *)

(** C9. [distHeightXY] is a pure function of its five arguments: bit 0 of the
    octant id negates the distance, bit 1 negates the height, and bit 2 makes
    the result [(px + h, py + d)] in place of [(px + d, py + h)], all in
    machine arithmetic.  When the coordinates are far from the limits of
    [int] the sums are the mathematical ones. *)
Theorem distHeightXY_bits (px py d h oct : Z) :
  distHeightXY px py d h oct =
    (let d' := if Z.testbit oct 0 then Int.neg d else d in
     let h' := if Z.testbit oct 1 then Int.neg h else h in
     if Z.testbit oct 2 then (Int.add px h', Int.add py d')
     else (Int.add px d', Int.add py h'))
  /\ (Z.abs px <= 2 ^ 62 -> Z.abs py <= 2 ^ 62 ->
      Z.abs d < 2 ^ 62 -> Z.abs h < 2 ^ 62 ->
      distHeightXY px py d h oct =
        (let d' := if Z.testbit oct 0 then - d else d in
         let h' := if Z.testbit oct 1 then - h else h in
         if Z.testbit oct 2 then (px + h', py + d') else (px + d', py + h'))).
Proof.
  assert (E : distHeightXY px py d h oct =
    (let d' := if Z.testbit oct 0 then Int.neg d else d in
     let h' := if Z.testbit oct 1 then Int.neg h else h in
     if Z.testbit oct 2 then (Int.add px h', Int.add py d')
     else (Int.add px d', Int.add py h'))).
  { unfold distHeightXY.
    change (Z.land oct 1) with (Z.land oct (2 ^ 0)).
    change (Z.land oct 2) with (Z.land oct (2 ^ 1)).
    change (Z.land oct 4) with (Z.land oct (2 ^ 2)).
    now rewrite !land_bit by lia. }
  split; [exact E|].
  intros Hpx Hpy Hd Hh. rewrite E. cbv zeta.
  assert (Hn : forall z, Z.abs z < 2 ^ 62 -> Int.neg z = - z).
  { intros z Hz. apply wrap_small.
    unfold Int.in_range, Int.min_int, Int.max_int. lia. }
  assert (Ha : forall a b, Z.abs a <= 2 ^ 62 -> Z.abs b < 2 ^ 62 ->
                           Int.add a b = a + b).
  { intros a b H1 H2. apply wrap_small.
    unfold Int.in_range, Int.min_int, Int.max_int. lia. }
  rewrite (Hn d Hd), (Hn h Hh).
  destruct (Z.testbit oct 0), (Z.testbit oct 1), (Z.testbit oct 2);
    rewrite !Ha by lia; reflexivity.
Qed.

(** ** The visible set after [Compute] *)

(** C3, as the code has it.  A cell that is visible after [Compute] is the
    observer's own cell or satisfies the grid's [InBounds]; the observer's
    cell is entered without a bounds check. *)
Theorem visible_in_bounds_or_observer (fuel : nat) (grid : GridMap)
    (px py r : Z) (v : View) (x y : Z) :
  IsVisible (view_after (Compute fuel grid px py r) v) x y = true ->
  (x = px /\ y = py) \/ InBounds grid x y = true.
Proof.
  intros Hvis. apply IsVisible_spec in Hvis.
  destruct (marks_sound_Compute fuel grid px py r _ _ Hvis)
    as [E|(x' & y' & E & Hb & _)]; apply Key.key_inj in E as [-> ->]; auto.
Qed.

Lemma visible_in_bounds_or_observer_witness :
  IsVisible (view_after (Compute 8 wall7 3 3 3) New) 4 3 = true /\
  ((4 = 3 /\ 3 = 3) \/ InBounds wall7 4 3 = true).
Proof.
  assert (H : IsVisible (view_after (Compute 8 wall7 3 3 3) New) 4 3 = true)
    by (vm_compute; reflexivity).
  split; [exact H|].
  exact (visible_in_bounds_or_observer 8 wall7 3 3 3 New 4 3 H).
Defined.

(** C3, as the specification words it, fails: on a grid without any cell in
    bounds the observer's cell is in the result all the same. *)
Lemma observer_out_of_bounds_is_visible :
  finished (Compute 8 no_grid 0 0 1) New = true /\
  IsVisible (view_after (Compute 8 no_grid 0 0 1) New) 0 0 = true /\
  InBounds no_grid 0 0 = false.
Proof. vm_compute. auto. Qed.

(** C4. Whatever the grid, the observer's position and the radius, the
    observer's own cell is visible after [Compute] (and at every point of
    its run), whether that cell is opaque, or even out of bounds, or not. *)
Theorem observer_is_visible (fuel : nat) (grid : GridMap) (px py r : Z)
    (v : View) :
  IsVisible (view_after (Compute fuel grid px py r) v) px py = true.
Proof. apply IsVisible_spec. apply observer_marked_Compute. Qed.

(** C5. With a radius of zero or less, [Compute] finishes, whatever the
    budget, without a single query on the grid (each of the eight scans
    returns at its first statement, the initial distance 1 being above the
    radius), and the result holds the observer's cell and nothing else. *)
Theorem small_radius_only_observer (fuel : nat) (grid : GridMap)
    (px py r : Z) (v : View) :
  r <= 0 ->
  finished (Compute fuel grid px py r) v = true /\
  queries (fst (run (Compute fuel grid px py r) v)) = [] /\
  Visible (view_after (Compute fuel grid px py r) v) = {[ key px py ]} /\
  forall x y,
    IsVisible (view_after (Compute fuel grid px py r) v) x y = true <->
    x = px /\ y = py.
Proof.
  intros Hr. split; [|split; [|split]].
  - unfold finished, run. now rewrite Compute_small_radius.
  - unfold run. now rewrite Compute_small_radius.
  - now apply small_radius_view.
  - intros x y. rewrite IsVisible_spec, small_radius_view by exact Hr.
    rewrite elem_of_singleton.
    split; [apply Key.key_inj | now intros [-> ->]].
Qed.

Lemma small_radius_only_observer_witness :
  0 <= 0 /\
  finished (Compute 0 wall7 3 3 0) New = true /\
  queries (fst (run (Compute 0 wall7 3 3 0) New)) = [] /\
  Visible (view_after (Compute 0 wall7 3 3 0) New) = {[ key 3 3 ]} /\
  forall x y,
    IsVisible (view_after (Compute 0 wall7 3 3 0) New) x y = true <->
    x = 3 /\ y = 3.
Proof.
  split; [lia|]. apply (small_radius_only_observer 0 wall7 3 3 0 New). lia.
Defined.

(** C6. [Compute] starts from a fresh map: its run does not depend on the
    view it is called on, so a second call with the same arguments, made on
    the view the first call left, ends as the first did, with the same
    visible set. *)
Theorem Compute_twice (fuel : nat) (grid : GridMap) (px py r : Z) (v : View) :
  (forall v', run (Compute fuel grid px py r) v' =
              run (Compute fuel grid px py r) v) /\
  view_after (Compute fuel grid px py r)
    (view_after (Compute fuel grid px py r) v) =
  view_after (Compute fuel grid px py r) v /\
  finished (Compute fuel grid px py r)
    (view_after (Compute fuel grid px py r) v) =
  finished (Compute fuel grid px py r) v.
Proof.
  assert (H : forall v', run (Compute fuel grid px py r) v' =
                         run (Compute fuel grid px py r) v).
  { intros v'. unfold run. now rewrite !Compute_unfold. }
  split; [exact H|]. unfold view_after, finished. now rewrite !H.
Qed.

(** C8. In every run of [Compute], finished or not, each [IsOpaque] query
    follows at once an [InBounds] query on the same cell, and that cell is
    in bounds: [IsOpaque] is never asked about a cell out of bounds. *)
Theorem opacity_queries_in_bounds (fuel : nat) (grid : GridMap)
    (px py r : Z) (v : View) :
  guarded grid (queries (fst (run (Compute fuel grid px py r) v))) /\
  forall x y,
    In (QIsOpaque x y) (queries (fst (run (Compute fuel grid px py r) v))) ->
    InBounds grid x y = true.
Proof.
  assert (H : guarded grid (queries (fst (run (Compute fuel grid px py r) v))))
    by (apply guarded_Compute; exact I).
  split; [exact H | intros x y; now apply guarded_In].
Qed.

(** C10, as the code has it.  On any grid and for every radius, a cell
    visible after [Compute] other than the observer's own is nearer than the
    radius as [distTo] measures it, and the radius is at least 1.  Its
    truncated Euclidean distance to the observer, the integer square root of
    the sum of the squares of its offsets, is below the radius when the cell
    is at most 2^25 away from the observer on each axis; and that is so for
    every visible cell when the radius is at most 2^25 and the observer is
    away from the limits of [int]. *)
Theorem visible_within_radius (fuel : nat) (grid : GridMap) (px py r : Z)
    (v : View) (x y : Z) :
  IsVisible (view_after (Compute fuel grid px py r) v) x y = true ->
  (x = px /\ y = py) \/
  (0 < r /\ distTo px py x y < r /\
   (Z.abs (x - px) <= 2 ^ 25 /\ Z.abs (y - py) <= 2 ^ 25 \/
    Z.abs px <= 2 ^ 62 /\ Z.abs py <= 2 ^ 62 /\ r <= 2 ^ 25 ->
    Z.sqrt ((x - px) * (x - px) + (y - py) * (y - py)) < r)).
Proof.
  intros Hvis.
  destruct (Z.le_gt_cases r 0) as [Hr|Hr].
  { left. apply IsVisible_spec in Hvis.
    rewrite small_radius_view in Hvis by exact Hr.
    apply elem_of_singleton in Hvis. now apply Key.key_inj. }
  apply IsVisible_spec in Hvis.
  destruct (marks_sound_Compute fuel grid px py r _ _ Hvis)
    as [E|(x' & y' & E & _ & Hd)]; apply Key.key_inj in E as [-> ->];
    [now left|].
  right. split; [lia|]. split; [exact Hd|].
  intros [[Hx Hy]|(Hpx & Hpy & Hr25)].
  - rewrite distTo_sqrt in Hd by lia.
    replace ((x' - px) * (x' - px) + (y' - py) * (y' - py))
      with ((px - x') * (px - x') + (py - y') * (py - y')) by lia.
    exact Hd.
  - destruct (in_disc_Compute fuel grid px py r _ Hpx Hpy Hr25 _ Hvis)
      as [E|(x2 & y2 & E & _ & Hsq)]; apply Key.key_inj in E as [E1 E2].
    + subst.
      replace ((px - px) * (px - px) + (py - py) * (py - py)) with 0 by lia.
      simpl. lia.
    + subst x2 y2.
      pose proof (Z.square_nonneg (x' - px)).
      pose proof (Z.square_nonneg (y' - py)).
      apply square_lt_sqrt; lia.
Qed.

Lemma visible_within_radius_witness :
  IsVisible (view_after (Compute 8 wall7 3 3 3) New) 5 4 = true /\
  ((5 = 3 /\ 4 = 3) \/
   (0 < 3 /\ distTo 3 3 5 4 < 3 /\
    (Z.abs (5 - 3) <= 2 ^ 25 /\ Z.abs (4 - 3) <= 2 ^ 25 \/
     Z.abs 3 <= 2 ^ 62 /\ Z.abs 3 <= 2 ^ 62 /\ 3 <= 2 ^ 25 ->
     Z.sqrt ((5 - 3) * (5 - 3) + (4 - 3) * (4 - 3)) < 3))).
Proof.
  assert (H : IsVisible (view_after (Compute 8 wall7 3 3 3) New) 5 4 = true)
    by (vm_compute; reflexivity).
  split; [exact H|].
  exact (visible_within_radius 8 wall7 3 3 3 New 5 4 H).
Defined.

(** C10, as the specification words it, fails.  The coordinates of the
    scanned cells are computed in [int], and wrap around.  On the open
    field, with the observer at the largest [int] on the x axis and a radius
    of 2, the scan of the cell one step to the right comes to the smallest
    [int]: that cell is in bounds, [distTo] to it is 1, and it is visible,
    2^64 - 1 away from the observer. *)
Lemma visible_across_the_int_limit :
  finished (Compute 8 open_field Int.max_int 0 2) New = true /\
  IsVisible (view_after (Compute 8 open_field Int.max_int 0 2) New)
    Int.min_int 0 = true /\
  Int.min_int <> Int.max_int /\
  distTo Int.max_int 0 Int.min_int 0 = 1 /\
  Z.sqrt ((Int.min_int - Int.max_int) * (Int.min_int - Int.max_int)
          + (0 - 0) * (0 - 0)) = 2 ^ 64 - 1.
Proof.
  split; [vm_compute; reflexivity|]. split; [vm_compute; reflexivity|].
  split; [discriminate|]. split; vm_compute; reflexivity.
Qed.

(** ** The two scenarios of the specification, as the code runs them *)

(** C1, evaluated.  With the wall at (4,3) and the observer at (3,3),
    radius 3: the wall and (4,4) are visible and (6,3) is not, but (5,3),
    right behind the wall, is visible. *)
Theorem wall_scenario :
  exists n, forall fuel, (n <= fuel)%nat ->
    finished (Compute fuel wall7 3 3 3) New = true /\
    let v := view_after (Compute fuel wall7 3 3 3) New in
    IsVisible v 4 3 = true /\ IsVisible v 5 3 = true /\
    IsVisible v 6 3 = false /\ IsVisible v 4 4 = true /\
    visible_cells v all_cells7 =
      [(2, 2); (2, 3); (2, 4); (3, 2); (3, 3); (3, 4);
       (4, 2); (4, 3); (4, 4); (5, 2); (5, 3); (5, 4)].
Proof.
  exists 8%nat. intros fuel Hfuel.
  assert (Hfin : finished (Compute 8 wall7 3 3 3) New = true)
    by (vm_compute; reflexivity).
  unfold finished, view_after.
  rewrite (run_fuel_le wall7 3 3 3 8 fuel New Hfin Hfuel).
  vm_compute. auto 10.
Qed.

(** C2, evaluated.  On the open field without bounds, observer (3,3) and
    radius 3: (5,3) is at truncated distance 2 and is not visible; of the
    7x7 block around the observer just the nine cells next to it are. *)
Theorem open_field_scenario :
  exists n, forall fuel, (n <= fuel)%nat ->
    finished (Compute fuel open_field 3 3 3) New = true /\
    let v := view_after (Compute fuel open_field 3 3 3) New in
    distTo 3 3 5 3 = 2 /\
    IsVisible v 3 3 = true /\ IsVisible v 4 3 = true /\
    IsVisible v 5 3 = false /\ IsVisible v 6 3 = false /\
    visible_cells v all_cells7 =
      [(2, 2); (2, 3); (2, 4); (3, 2); (3, 3); (3, 4);
       (4, 2); (4, 3); (4, 4)].
Proof.
  exists 8%nat. intros fuel Hfuel.
  assert (Hfin : finished (Compute 8 open_field 3 3 3) New = true)
    by (vm_compute; reflexivity).
  unfold finished, view_after.
  rewrite (run_fuel_le open_field 3 3 3 8 fuel New Hfin Hfuel).
  vm_compute. auto 10.
Qed.

(** ** Termination *)




(** * Further properties of the engine *)

(** ** The distance metric and the octant transform *)

(** X1. [distTo] is symmetric: the distance from a first cell to a second is
    the distance from the second to the first, and exchanging the two axes
    does not change it either.  This holds for all arguments, the ones
    whose difference overflows included. *)
Theorem distTo_symmetric (x1 y1 x2 y2 : Z) :
  distTo x1 y1 x2 y2 = distTo x2 y2 x1 y1 /\
  distTo x1 y1 x2 y2 = distTo y1 x1 y2 x2.
Proof. split; [apply distTo_swap | apply distTo_transpose]. Qed.

(** X2. For two cells at most 2^25 apart on each axis, [distTo] is the
    integer part of their Euclidean distance, exactly: the rounding of the
    squares, their sum and the square root never reaches the next integer.
    So [distTo] is below a positive radius exactly when the sum of the
    squares is below the square of the radius. *)
Theorem distTo_integer_sqrt (x1 y1 x2 y2 : Z) :
  Z.abs (x1 - x2) <= 2 ^ 25 -> Z.abs (y1 - y2) <= 2 ^ 25 ->
  distTo x1 y1 x2 y2 =
    Z.sqrt ((x1 - x2) * (x1 - x2) + (y1 - y2) * (y1 - y2)) /\
  forall r, 0 < r ->
    (distTo x1 y1 x2 y2 < r <->
     (x1 - x2) * (x1 - x2) + (y1 - y2) * (y1 - y2) < r * r).
Proof.
  intros Hx Hy. rewrite distTo_sqrt by assumption. split; [reflexivity|].
  intros r Hr.
  pose proof (Z.square_nonneg (x1 - x2)). pose proof (Z.square_nonneg (y1 - y2)).
  split; [apply sqrt_lt_square | apply square_lt_sqrt]; lia.
Qed.

Lemma distTo_integer_sqrt_witness :
  Z.abs (3 - 5) <= 2 ^ 25 /\ Z.abs (3 - 4) <= 2 ^ 25 /\
  distTo 3 3 5 4 = Z.sqrt ((3 - 5) * (3 - 5) + (3 - 4) * (3 - 4)) /\
  forall r, 0 < r ->
    (distTo 3 3 5 4 < r <-> (3 - 5) * (3 - 5) + (3 - 4) * (3 - 4) < r * r).
Proof.
  split; [lia|]. split; [lia|]. apply (distTo_integer_sqrt 3 3 5 4); lia.
Defined.

(** X3. The distance from the observer to the cell [distHeightXY] gives for
    a distance [d] and a height [h] is [distTo 0 0 d h]: it is the same in
    every octant and for every observer, wrap-around of the coordinates
    included. *)
Theorem distTo_same_in_every_octant (px py d h oct : Z) :
  Int.in_range d -> Int.in_range h ->
  distTo px py (distHeightXY px py d h oct).1 (distHeightXY px py d h oct).2 =
  distTo 0 0 d h.
Proof. apply distTo_distHeightXY. Qed.

Lemma distTo_same_in_every_octant_witness :
  Int.in_range 2 /\ Int.in_range 1 /\
  distTo 3 3 (distHeightXY 3 3 2 1 6).1 (distHeightXY 3 3 2 1 6).2 =
  distTo 0 0 2 1.
Proof.
  assert (H2 : Int.in_range 2) by (vm_compute; split; discriminate).
  assert (H1 : Int.in_range 1) by (vm_compute; split; discriminate).
  split; [exact H2|]. split; [exact H1|].
  exact (distTo_same_in_every_octant 3 3 2 1 6 H2 H1).
Defined.

(** X4. The eight octant ids 1 to 8 that [Compute] passes cover the plane:
    every cell [(x, y)] is the cell of one of them at distance
    [max |x - px| |y - py|] and at a height between 0 and that distance
    (coordinates away from the limits of [int]). *)
Theorem octants_cover (px py x y : Z) :
  Z.abs px <= 2 ^ 62 -> Z.abs py <= 2 ^ 62 ->
  Z.abs (x - px) < 2 ^ 62 -> Z.abs (y - py) < 2 ^ 62 ->
  exists oct d h,
    1 <= oct <= 8 /\ 0 <= h <= d /\
    d = Z.max (Z.abs (x - px)) (Z.abs (y - py)) /\
    distHeightXY px py d h oct = (x, y).
Proof.
  intros Hpx Hpy Hx Hy.
  destruct (octants_cover_small px py (x - px) (y - py) Hpx Hpy Hx Hy)
    as (oct & d & k & Hoct & Hk & Hd & E).
  exists oct, d, k. repeat split; try lia.
  rewrite E. f_equal; lia.
Qed.

Lemma octants_cover_witness :
  Z.abs 3 <= 2 ^ 62 /\ Z.abs 3 <= 2 ^ 62 /\
  Z.abs (5 - 3) < 2 ^ 62 /\ Z.abs (2 - 3) < 2 ^ 62 /\
  exists oct d h,
    1 <= oct <= 8 /\ 0 <= h <= d /\
    d = Z.max (Z.abs (5 - 3)) (Z.abs (2 - 3)) /\
    distHeightXY 3 3 d h oct = (5, 2).
Proof.
  split; [lia|]. split; [lia|]. split; [lia|]. split; [lia|].
  apply (octants_cover 3 3 5 2); lia.
Defined.

(** X5. Within one octant [distHeightXY] is injective: two pairs of a
    distance and a height that give the same cell are the same pair, for
    all values of [int], wrap-around included. *)
Theorem distHeightXY_injective (px py d h d' h' oct : Z) :
  Int.in_range d -> Int.in_range h -> Int.in_range d' -> Int.in_range h' ->
  distHeightXY px py d h oct = distHeightXY px py d' h' oct ->
  d = d' /\ h = h'.
Proof. apply distHeightXY_inj. Qed.

Lemma distHeightXY_injective_witness :
  Int.in_range 2 /\ Int.in_range 1 /\ Int.in_range 2 /\ Int.in_range 1 /\
  distHeightXY 3 3 2 1 6 = distHeightXY 3 3 2 1 6 /\
  2 = 2 /\ 1 = 1.
Proof.
  assert (H2 : Int.in_range 2) by (vm_compute; split; discriminate).
  assert (H1 : Int.in_range 1) by (vm_compute; split; discriminate).
  split; [exact H2|]. split; [exact H1|]. split; [exact H2|].
  split; [exact H1|]. split; [reflexivity|].
  exact (distHeightXY_injective 3 3 2 1 2 1 6 H2 H1 H2 H1 eq_refl).
Defined.

(** ** The visible set *)

(** X6. On any grid, for a radius up to 2^25 and an observer away from the
    limits of [int], a cell visible after [Compute] other than the
    observer's is in bounds and strictly inside the Euclidean disc of the
    radius: the sum of the squares of its offsets is below the square of
    the radius. *)
Theorem visible_in_disc (fuel : nat) (grid : GridMap) (px py r : Z)
    (v : View) (x y : Z) :
  Z.abs px <= 2 ^ 62 -> Z.abs py <= 2 ^ 62 -> r <= 2 ^ 25 ->
  IsVisible (view_after (Compute fuel grid px py r) v) x y = true ->
  (x = px /\ y = py) \/
  (InBounds grid x y = true /\
   (x - px) * (x - px) + (y - py) * (y - py) < r * r).
Proof.
  intros Hpx Hpy Hr Hvis. apply IsVisible_spec in Hvis.
  destruct (in_disc_Compute fuel grid px py r _ Hpx Hpy Hr _ Hvis)
    as [E|(x' & y' & E & Hb & Hd)]; apply Key.key_inj in E as [-> ->]; auto.
Qed.

Lemma visible_in_disc_witness :
  Z.abs 3 <= 2 ^ 62 /\ Z.abs 3 <= 2 ^ 62 /\ 3 <= 2 ^ 25 /\
  IsVisible (view_after (Compute 8 wall7 3 3 3) New) 5 4 = true /\
  ((5 = 3 /\ 4 = 3) \/
   (InBounds wall7 5 4 = true /\
    (5 - 3) * (5 - 3) + (4 - 3) * (4 - 3) < 3 * 3)).
Proof.
  assert (H : IsVisible (view_after (Compute 8 wall7 3 3 3) New) 5 4 = true)
    by (vm_compute; reflexivity).
  split; [lia|]. split; [lia|]. split; [lia|]. split; [exact H|].
  apply (visible_in_disc 8 wall7 3 3 3 New 5 4); [lia | lia | lia | exact H].
Defined.

(** X7. With a radius of 1, whatever the grid and the observer, the
    observer's cell is the only visible one: the cells next to the observer
    are scanned, but their distance is 1, which is not below the radius. *)
Theorem radius_one_only_observer (fuel : nat) (grid : GridMap) (px py : Z)
    (v : View) (x y : Z) :
  IsVisible (view_after (Compute fuel grid px py 1) v) x y = true <->
  x = px /\ y = py.
Proof.
  split.
  - intros Hvis. apply IsVisible_spec in Hvis.
    apply radius_one_Compute in Hvis. now apply Key.key_inj.
  - intros [-> ->]. apply IsVisible_spec, observer_marked_Compute.
Qed.

(** X8. On any grid and for every observer, in a run of [Compute] that
    returns, with a radius of 2 or more: every cell next to the observer
    that is in bounds is visible, opaque or not.  The cells next to the
    observer are those the scan computes, [px + dx] and [py + dy] in [int]
    for offsets -1, 0 and 1, wrap-around at the limits of [int] included. *)
Theorem neighbours_visible (fuel : nat) (grid : GridMap) (px py r : Z)
    (v : View) (dx dy : Z) :
  Int.in_range px -> Int.in_range py -> 2 <= r ->
  finished (Compute fuel grid px py r) v = true ->
  Z.abs dx <= 1 -> Z.abs dy <= 1 ->
  InBounds grid (Int.add px dx) (Int.add py dy) = true ->
  IsVisible (view_after (Compute fuel grid px py r) v)
    (Int.add px dx) (Int.add py dy) = true.
Proof. intros. apply IsVisible_spec. now apply next_marked. Qed.

Lemma neighbours_visible_witness :
  Int.in_range 3 /\ Int.in_range 3 /\ 2 <= 3 /\
  finished (Compute 8 wall7 3 3 3) New = true /\
  Z.abs 1 <= 1 /\ Z.abs (-1) <= 1 /\
  InBounds wall7 (Int.add 3 1) (Int.add 3 (-1)) = true /\
  IsVisible (view_after (Compute 8 wall7 3 3 3) New)
    (Int.add 3 1) (Int.add 3 (-1)) = true.
Proof.
  assert (Hfin : finished (Compute 8 wall7 3 3 3) New = true)
    by (vm_compute; reflexivity).
  assert (Hin : Int.in_range 3) by (vm_compute; split; discriminate).
  split; [exact Hin|]. split; [exact Hin|]. split; [lia|].
  split; [exact Hfin|].
  split; [lia|]. split; [lia|]. split; [reflexivity|].
  apply (neighbours_visible 8 wall7 3 3 3 New 1 (-1));
    [exact Hin | exact Hin | lia | exact Hfin | lia | lia | reflexivity].
Defined.

(** X9. For an observer away from the limits of [int]: when the eight
    cells around the observer are all in bounds and transparent, no cell
    beyond them is visible, whatever the radius.  The scan of distance 1
    meets no blocked cell, and it is a blocked cell, or a transparent one
    right after a blocked one, that opens a scan one level deeper.  In a
    run that returns, with a radius of 2 or more, the visible cells are the
    observer's and these eight. *)
Theorem open_room_sees_neighbours_only (fuel : nat) (grid : GridMap)
    (px py r : Z) (v : View) :
  Z.abs px <= 2 ^ 62 -> Z.abs py <= 2 ^ 62 ->
  (forall x y, around px py 1 x y ->
               InBounds grid x y = true /\ IsOpaque grid x y = false) ->
  (forall x y,
     IsVisible (view_after (Compute fuel grid px py r) v) x y = true ->
     Z.abs (x - px) <= 1 /\ Z.abs (y - py) <= 1) /\
  (2 <= r -> finished (Compute fuel grid px py r) v = true ->
   forall x y,
     IsVisible (view_after (Compute fuel grid px py r) v) x y = true <->
     Z.abs (x - px) <= 1 /\ Z.abs (y - py) <= 1).
Proof.
  intros Hpx Hpy Hopen.
  assert (Hin : forall x y,
     IsVisible (view_after (Compute fuel grid px py r) v) x y = true ->
     Z.abs (x - px) <= 1 /\ Z.abs (y - py) <= 1).
  { intros x y Hvis. apply IsVisible_spec in Hvis.
    destruct (open_room_Compute fuel grid px py r _ Hpx Hpy Hopen _ Hvis)
      as (x' & y' & E & Hx & Hy).
    apply Key.key_inj in E as [-> ->]. now split. }
  split; [exact Hin|]. intros Hr Hfin x y. split; [apply Hin|].
  intros [Hx Hy]. apply IsVisible_spec.
  destruct (Z.eq_dec x px) as [Ex|Nx], (Z.eq_dec y py) as [Ey|Ny];
    [subst; apply observer_marked_Compute| | |];
    (apply neighbour_marked; try assumption; apply Hopen; unfold around; lia).
Qed.

Lemma open_room_sees_neighbours_only_witness :
  Z.abs 1 <= 2 ^ 62 /\ Z.abs 1 <= 2 ^ 62 /\
  (forall x y, around 1 1 1 x y ->
               InBounds wall7 x y = true /\ IsOpaque wall7 x y = false) /\
  (forall x y,
     IsVisible (view_after (Compute 8 wall7 1 1 3) New) x y = true ->
     Z.abs (x - 1) <= 1 /\ Z.abs (y - 1) <= 1) /\
  (2 <= 3 -> finished (Compute 8 wall7 1 1 3) New = true ->
   forall x y,
     IsVisible (view_after (Compute 8 wall7 1 1 3) New) x y = true <->
     Z.abs (x - 1) <= 1 /\ Z.abs (y - 1) <= 1).
Proof.
  assert (Hopen : forall x y, around 1 1 1 x y ->
            InBounds wall7 x y = true /\ IsOpaque wall7 x y = false).
  { intros x y (Hx & Hy & _).
    assert (Ex : x = 0 \/ x = 1 \/ x = 2) by lia.
    assert (Ey : y = 0 \/ y = 1 \/ y = 2) by lia.
    destruct Ex as [Ex|[Ex|Ex]], Ey as [Ey|[Ey|Ey]]; subst;
      split; reflexivity. }
  split; [lia|]. split; [lia|]. split; [exact Hopen|].
  apply (open_room_sees_neighbours_only 8 wall7 1 1 3 New);
    [lia | lia | exact Hopen].
Defined.

(** X10. For an observer away from the limits of [int] and a radius below
    2^50: when every cell of the square ring at distance [j] from the
    observer (the cells whose larger offset is [j]) is in bounds and
    transparent, no cell beyond that ring is visible, whatever the grid
    holds there: the scan of the ring finds no cell that would send it one
    level deeper. *)
Theorem transparent_ring_hides_beyond (fuel : nat) (grid : GridMap)
    (px py r j : Z) (v : View) (x y : Z) :
  Z.abs px <= 2 ^ 62 -> Z.abs py <= 2 ^ 62 -> r < 2 ^ 50 -> 1 <= j ->
  (forall x y, Z.max (Z.abs (x - px)) (Z.abs (y - py)) = j ->
               InBounds grid x y = true /\ IsOpaque grid x y = false) ->
  IsVisible (view_after (Compute fuel grid px py r) v) x y = true ->
  Z.abs (x - px) <= j /\ Z.abs (y - py) <= j.
Proof.
  intros Hpx Hpy Hr Hj Hring Hvis. apply IsVisible_spec in Hvis.
  destruct (within_Compute fuel grid px py r j _ Hpx Hpy Hr Hj Hring _ Hvis)
    as (x' & y' & E & Hx & Hy).
  apply Key.key_inj in E as [-> ->]. now split.
Qed.

Lemma transparent_ring_hides_beyond_witness :
  Z.abs 3 <= 2 ^ 62 /\ Z.abs 3 <= 2 ^ 62 /\ 3 < 2 ^ 50 /\ 1 <= 2 /\
  (forall x y, Z.max (Z.abs (x - 3)) (Z.abs (y - 3)) = 2 ->
               InBounds wall7 x y = true /\ IsOpaque wall7 x y = false) /\
  IsVisible (view_after (Compute 8 wall7 3 3 3) New) 5 4 = true /\
  Z.abs (5 - 3) <= 2 /\ Z.abs (4 - 3) <= 2.
Proof.
  assert (Hring : forall x y, Z.max (Z.abs (x - 3)) (Z.abs (y - 3)) = 2 ->
            InBounds wall7 x y = true /\ IsOpaque wall7 x y = false).
  { intros x y Hmax. split.
    - simpl. rewrite !andb_true_iff, !Z.leb_le. lia.
    - simpl. apply andb_false_iff.
      destruct (Z.eqb_spec x 4) as [->|]; [right | now left].
      apply Z.eqb_neq. lia. }
  assert (Hvis : IsVisible (view_after (Compute 8 wall7 3 3 3) New) 5 4 = true)
    by (vm_compute; reflexivity).
  split; [lia|]. split; [lia|]. split; [lia|]. split; [lia|].
  split; [exact Hring|]. split; [exact Hvis|].
  apply (transparent_ring_hides_beyond 8 wall7 3 3 3 2 New 5 4);
    [lia | lia | lia | lia | exact Hring | exact Hvis].
Defined.

(** X11. For an observer away from the limits of [int] and a radius from 0
    to 2^25: when every cell around the observer, up to the radius on each
    axis, is opaque or out of bounds, a run of [Compute] that returns sees
    the whole disc: the visible cells are the observer's and the cells in
    bounds whose Euclidean distance to the observer is below the radius.
    Opaque cells do not stop the scan: the blocked cell that ends a row
    sends it one level deeper. *)
Theorem walls_show_the_disc (fuel : nat) (grid : GridMap) (px py r : Z)
    (v : View) :
  Z.abs px <= 2 ^ 62 -> Z.abs py <= 2 ^ 62 -> 0 <= r <= 2 ^ 25 ->
  (forall x y, around px py r x y ->
               InBounds grid x y && negb (IsOpaque grid x y) = false) ->
  finished (Compute fuel grid px py r) v = true ->
  forall x y,
    IsVisible (view_after (Compute fuel grid px py r) v) x y = true <->
    (x = px /\ y = py) \/
    (InBounds grid x y = true /\
     (x - px) * (x - px) + (y - py) * (y - py) < r * r).
Proof.
  intros Hpx Hpy Hr Hbl Hfin x y. rewrite IsVisible_spec. split.
  - intros Hvis.
    destruct (in_disc_Compute fuel grid px py r _ Hpx Hpy ltac:(lia) _ Hvis)
      as [E|(x' & y' & E & Hb & Hd)]; apply Key.key_inj in E as [-> ->]; auto.
  - intros [[-> ->]|[Hb Hd]]; [apply observer_marked_Compute|].
    now apply disc_marked_blocked.
Qed.

Lemma walls_show_the_disc_witness :
  Z.abs 3 <= 2 ^ 62 /\ Z.abs 3 <= 2 ^ 62 /\ 0 <= 3 <= 2 ^ 25 /\
  (forall x y, around 3 3 3 x y ->
               InBounds walls7 x y && negb (IsOpaque walls7 x y) = false) /\
  finished (Compute 18 walls7 3 3 3) New = true /\
  forall x y,
    IsVisible (view_after (Compute 18 walls7 3 3 3) New) x y = true <->
    (x = 3 /\ y = 3) \/
    (InBounds walls7 x y = true /\
     (x - 3) * (x - 3) + (y - 3) * (y - 3) < 3 * 3).
Proof.
  assert (Hbl : forall x y, around 3 3 3 x y ->
            InBounds walls7 x y && negb (IsOpaque walls7 x y) = false).
  { intros x y _. simpl. apply andb_false_r. }
  assert (Hfin : finished (Compute 18 walls7 3 3 3) New = true)
    by (vm_compute; reflexivity).
  split; [lia|]. split; [lia|]. split; [lia|]. split; [exact Hbl|].
  split; [exact Hfin|].
  apply (walls_show_the_disc 18 walls7 3 3 3 New);
    [lia | lia | lia | exact Hbl | exact Hfin].
Defined.

(** X12. A larger radius never hides a cell: on the same grid and for the
    same observer, a cell visible with radius [r] is visible in every run
    with a radius [r' >= r] that returns. *)
Theorem larger_radius_sees_more (fuel fuel' : nat) (grid : GridMap)
    (px py r r' : Z) (v v' : View) (x y : Z) :
  r <= r' ->
  finished (Compute fuel' grid px py r') v' = true ->
  IsVisible (view_after (Compute fuel grid px py r) v) x y = true ->
  IsVisible (view_after (Compute fuel' grid px py r') v') x y = true.
Proof.
  intros Hr Hfin Hvis. apply IsVisible_spec in Hvis. apply IsVisible_spec.
  now apply (follows_Compute fuel fuel' grid px py r r' v v' Hr Hfin).
Qed.

Lemma larger_radius_sees_more_witness :
  2 <= 3 /\
  finished (Compute 8 wall7 3 3 3) New = true /\
  IsVisible (view_after (Compute 8 wall7 3 3 2) New) 4 4 = true /\
  IsVisible (view_after (Compute 8 wall7 3 3 3) New) 4 4 = true.
Proof.
  assert (Hfin : finished (Compute 8 wall7 3 3 3) New = true)
    by (vm_compute; reflexivity).
  assert (Hvis : IsVisible (view_after (Compute 8 wall7 3 3 2) New) 4 4 = true)
    by (vm_compute; reflexivity).
  split; [lia|]. split; [exact Hfin|]. split; [exact Hvis|].
  apply (larger_radius_sees_more 8 8 wall7 3 3 2 3 New New 4 4);
    [lia | exact Hfin | exact Hvis].
Defined.

(** ** The scan and the state *)

(** X13. A scan does not read the state: from any state in which the map
    has been made, [fov] adds the keys, makes the queries and returns (or
    not) as it does when it is run alone, right after the map has been made
    as [Compute] makes it, on whatever view.  In particular it never removes
    a key. *)
Theorem fov_frame (grid : GridMap) (px py oct rad : Z) (fuel : nat)
    (dist : Z) (lowSlope highSlope : float64) (s : machine) (v : View) :
  let m := fov grid px py oct rad fuel dist lowSlope highSlope in
  let alone := run (reset ;; m) v in
  Visible (view (fst (m s))) =
    Visible (view (fst alone)) ∪ Visible (view s) /\
  queries (fst (m s)) = queries (fst alone) ++ queries s /\
  snd (m s) = snd alone.
Proof.
  intros m alone. unfold alone, m.
  change (run (reset ;; fov grid px py oct rad fuel dist lowSlope highSlope) v)
    with (fov grid px py oct rad fuel dist lowSlope highSlope blank).
  rewrite (framed_fov grid px py oct rad fuel dist lowSlope highSlope s).
  repeat split.
Qed.

(** X14. The eight scans of [Compute] are independent of each other: a cell
    visible after [Compute] is the observer's, or is visible after the scan
    of one of the octants 1 to 8 run alone, right after the map has been
    made, on whatever view; and in a run of [Compute] that returns, every
    such cell is visible. *)
Theorem Compute_is_union_of_octants (fuel : nat) (grid : GridMap)
    (px py r : Z) (v v' : View) (x y : Z) :
  (IsVisible (view_after (Compute fuel grid px py r) v) x y = true ->
   (x = px /\ y = py) \/
   exists i, 1 <= i <= 8 /\
     IsVisible
       (view_after (reset ;; fov grid px py i r fuel 1 zero one) v') x y
     = true) /\
  (finished (Compute fuel grid px py r) v = true ->
   forall i, 1 <= i <= 8 ->
     IsVisible
       (view_after (reset ;; fov grid px py i r fuel 1 zero one) v') x y
     = true ->
     IsVisible (view_after (Compute fuel grid px py r) v) x y = true).
Proof.
  assert (Hbody : forall i, framed (fov grid px py i r fuel 1 zero one))
    by (intros i; apply framed_fov).
  assert (Halone : forall i,
    view_after (reset ;; fov grid px py i r fuel 1 zero one) v' =
    view (fst (fov grid px py i r fuel 1 zero one blank)))
    by reflexivity.
  split.
  - intros Hvis. apply IsVisible_spec in Hvis.
    unfold view_after, run in Hvis. rewrite Compute_unfold in Hvis.
    apply (for_range_adds _ Hbody) in Hvis as [H|(j & Hj & H)].
    + apply elem_of_marked in H as [E|H]; [|simpl in H; set_solver].
      left. now apply Key.key_inj.
    + right. exists j. split; [simpl in Hj; lia|].
      rewrite Halone. apply IsVisible_spec. exact H.
  - intros Hfin i Hi Hvis. rewrite Halone in Hvis.
    apply IsVisible_spec in Hvis.
    apply IsVisible_spec. unfold finished, view_after, run in *.
    rewrite Compute_unfold in *.
    destruct (for_range 8 1 _ _) as [s' [[]|]] eqn:E; [|discriminate].
    apply (for_range_union _ Hbody _ _ _ _ _ E). right.
    exists i. split; [simpl; lia | exact Hvis].
Qed.

(** X15. Entering a cell in the visible set makes that cell visible and no
    other: the key of a cell, with its comma, is the key of no other
    cell. *)
Theorem mark_then_IsVisible (a b x y : Z) (s : machine) :
  IsVisible (view (fst (mark a b s))) x y =
  (x =? a) && (y =? b) || IsVisible (view s) x y.
Proof.
  apply eq_true_iff_eq.
  rewrite orb_true_iff, andb_true_iff, !IsVisible_spec, !Z.eqb_eq.
  cbn [mark fst]. rewrite elem_of_marked. split.
  - intros [E|H]; [left; now apply Key.key_inj | now right].
  - intros [[-> ->]|H]; [now left | now right].
Qed.

(** ** The queries made on the grid *)

(** X16. [Compute] asks the grid about cells around the observer only: every
    [InBounds] or [IsOpaque] query is about a cell at most [r] away from
    the observer on each axis, and never about the observer's own cell. *)
Theorem queries_around_observer (fuel : nat) (grid : GridMap) (px py r : Z)
    (v : View) :
  Z.abs px <= 2 ^ 62 -> Z.abs py <= 2 ^ 62 -> r < 2 ^ 50 ->
  Forall (fun q => around px py r (query_cell q).1 (query_cell q).2)
    (queries (fst (run (Compute fuel grid px py r) v))).
Proof.
  intros Hpx Hpy Hr. unfold run.
  apply queries_around_Compute; try assumption. constructor.
Qed.

Lemma queries_around_observer_witness :
  Z.abs 3 <= 2 ^ 62 /\ Z.abs 3 <= 2 ^ 62 /\ 3 < 2 ^ 50 /\
  Forall (fun q => around 3 3 3 (query_cell q).1 (query_cell q).2)
    (queries (fst (run (Compute 8 wall7 3 3 3) New))).
Proof.
  split; [lia|]. split; [lia|]. split; [lia|].
  apply (queries_around_observer 8 wall7 3 3 3 New); lia.
Defined.

(** X17. The queries of [Compute] come in whole rounds, one for each cell
    the scan visits: two [InBounds] queries on the cell, followed, exactly
    when the cell is in bounds, by one [IsOpaque] query on it.  This holds
    in every run, cut off or not. *)
Theorem queries_come_in_rounds (fuel : nat) (grid : GridMap) (px py r : Z)
    (v : View) :
  rounds grid (queries (fst (run (Compute fuel grid px py r) v))).
Proof. unfold run. apply rounds_Compute. constructor. Qed.

(** X18. For an observer away from the limits of [int] and a radius below
    2^50, the run of [Compute] depends on the grid through the cells around
    the observer only, up to the radius on each axis: two grids that give
    the same [InBounds] there, and the same [IsOpaque] on the cells in
    bounds there, give the same run, whatever they say elsewhere and
    whatever their [Index]. *)
Theorem Compute_local (fuel : nat) (g g' : GridMap) (px py r : Z) (v : View) :
  Z.abs px <= 2 ^ 62 -> Z.abs py <= 2 ^ 62 -> r < 2 ^ 50 ->
  same_around g g' px py r ->
  run (Compute fuel g px py r) v = run (Compute fuel g' px py r) v.
Proof. intros Hpx Hpy Hr Hsame. unfold run. now apply local_Compute. Qed.

Lemma Compute_local_witness :
  Z.abs 3 <= 2 ^ 62 /\ Z.abs 3 <= 2 ^ 62 /\ 3 < 2 ^ 50 /\
  same_around wall7 wall7_flat 3 3 3 /\
  run (Compute 8 wall7 3 3 3) New = run (Compute 8 wall7_flat 3 3 3) New.
Proof.
  assert (Hsame : same_around wall7 wall7_flat 3 3 3).
  { intros x y _. split; [reflexivity|]. intros Hb.
    change (IsOpaque wall7_flat x y)
      with (IsOpaque wall7 x y || negb (InBounds wall7 x y)).
    rewrite Hb. simpl negb. now rewrite orb_false_r. }
  split; [lia|]. split; [lia|]. split; [lia|]. split; [exact Hsame|].
  apply (Compute_local 8 wall7 wall7_flat 3 3 3 New);
    [lia | lia | lia | exact Hsame].
Defined.

(** ** The earlier engine, side by side *)

(** X19. In the earlier engine the key has no comma, so that two cells can
    share a key.  With the observer at [(10 * a + d, 0)] the cell
    [(a, 10 * d)] is reported visible after [ComputeFOV], on any grid and for
    any radius, a radius of zero included; the engine with the comma
    reports it not visible there. *)
Theorem MapFOV_phantom_cell (fuel : nat) (grid : GridMap) (a d r : Z)
    (v : View) :
  1 <= a -> 1 <= d <= 9 ->
  MapFOV.IsVisible
    (view_after (MapFOV.ComputeFOV fuel grid (10 * a + d) 0 r) v) a (10 * d)
    = true /\
  IsVisible (view_after (Compute fuel grid (10 * a + d) 0 0) v) a (10 * d)
    = false.
Proof.
  intros Ha Hd. split.
  - unfold MapFOV.IsVisible.
    rewrite bool_decide_eq_true_2; [reflexivity|].
    rewrite <- key_clash by lia.
    destruct (mirrors_after_reset fuel grid (10 * a + d) 0 r v v)
      as [[_ Hv] _].
    apply Hv. apply observer_marked_Compute.
  - apply not_true_is_false. rewrite IsVisible_spec.
    rewrite small_radius_view by lia. rewrite elem_of_singleton.
    intros E. apply Key.key_inj in E. lia.
Qed.

Lemma MapFOV_phantom_cell_witness :
  1 <= 1 /\ 1 <= 2 <= 9 /\
  MapFOV.IsVisible
    (view_after (MapFOV.ComputeFOV 8 wall7 (10 * 1 + 2) 0 3) New) 1 (10 * 2)
    = true /\
  IsVisible (view_after (Compute 8 wall7 (10 * 1 + 2) 0 0) New) 1 (10 * 2)
    = false.
Proof.
  split; [lia|]. split; [lia|].
  apply (MapFOV_phantom_cell 8 wall7 1 2 3 New); lia.
Defined.

(** X20. The earlier engine and the present one run alike: on the same
    arguments they make the same queries in the same order, return or not
    together, and every cell the present engine reports visible the earlier
    one reports visible too. *)
Theorem MapFOV_covers_View (fuel : nat) (grid : GridMap) (px py r : Z)
    (v v' : View) :
  queries (fst (run (Compute fuel grid px py r) v)) =
  queries (fst (run (MapFOV.ComputeFOV fuel grid px py r) v')) /\
  finished (Compute fuel grid px py r) v =
  finished (MapFOV.ComputeFOV fuel grid px py r) v' /\
  forall x y,
    IsVisible (view_after (Compute fuel grid px py r) v) x y = true ->
    MapFOV.IsVisible
      (view_after (MapFOV.ComputeFOV fuel grid px py r) v') x y = true.
Proof.
  destruct (mirrors_after_reset fuel grid px py r v v') as [[Hq Hv] Hs].
  split; [exact Hq|]. split.
  - unfold finished. now rewrite Hs.
  - intros x y Hvis. apply IsVisible_spec in Hvis.
    unfold MapFOV.IsVisible.
    rewrite bool_decide_eq_true_2; [reflexivity|]. now apply Hv.
Qed.
